(** * Shuttle tracker: rider clustering and trip health

    A shallow embedding of the calculation functions of [server.js]
    ([calculateClusters], [calculateWeightedCenter], [getNeighbors],
    [calculateHaversineDistance], [calculateTripHealth]) and the properties
    the specification states about them.

    Numbers.  A JavaScript number is a double; the embedding keeps the
    rational value of a finite double ([Q]) and a separate [NaN].  Rounding is
    not modelled: sums, products and quotients are exact.  Instants are
    integer milliseconds since the epoch ([Z]), as [Date.prototype.getTime]
    returns them.  The trigonometric distance is kept outside the rational
    part: the clustering code is parametrised by the test
    [calculateHaversineDistance(..) <= radiusMeters], and [Module Haversine]
    gives the distance itself over the real numbers.

    Records.  The bookings and trips are the records that the routes
    [/api/logBooking] and [/api/createTrip] store: every entry is an object, [tripCode], [riderId] and
    [code] are strings, and a coordinate or timestamp is seen through the
    tests the code applies to it.

    The store.  [Module Server] embeds the data file with [readData] and
    [writeData] and the route handlers that read and write it.  A handler
    is a function of the disk, the part of the request it reads, the clock
    and, for [/api/initData], the stream of [Math.random]; it returns the
    response and the disk it leaves.  The second half of the properties is
    about them: what each handler stores, what the store satisfies after
    any sequence of requests, and what the calculation functions return on
    such a store. *)

From Stdlib Require Import Ascii String Bool Arith ZArith QArith Qminmax Qround List Lia.
From Stdlib Require Import Reals Lra.
From Stdlib Require Import DecimalString Permutation Sorted.
From Stdlib Require Lqa.
From Equations Require Import Equations.
Import ListNotations.


Open Scope string_scope.
Open Scope list_scope.
Open Scope nat_scope.

(** ** JavaScript values *)

(** A value whose [typeof] is ['number']. *)
Inductive jsnum : Type :=
| Num (q : Q)
| NaN.

(** A property read from a parsed JSON record: a number, or a value of any
    other type ([undefined] for a missing property, [null], a string, ...). *)
Inductive jsval : Type :=
| JNum (n : jsnum)
| JOther.

(** A [timestamp] property, seen through [typeof] and
    [new Date(timestamp).getTime()]. *)
Inductive jsdate : Type :=
| TsUndefined                 (* typeof timestamp === 'undefined' *)
| TsUnparsable (raw : string) (* getTime() is NaN *)
| TsInstant (ms : Z).         (* getTime() is ms (null reads as 0) *)

Definition typeofNumber (v : jsval) : bool :=
  match v with JNum _ => true | JOther => false end.

(** [typeof v === 'number' && !isNaN(v)], with the number. *)
Definition coord (v : jsval) : option Q :=
  match v with
  | JNum (Num q) => Some q
  | _ => None
  end.

(** [new Date(ts).getTime()]; [None] is NaN. *)
Definition getTime (ts : jsdate) : option Z :=
  match ts with
  | TsInstant ms => Some ms
  | _ => None
  end.

Definition Qltb (x y : Q) : bool := negb (Qle_bool y x).

(** ** Objects used as maps, and sets

    An object keeps its string keys in insertion order; assignment to an
    existing key replaces the value in place.  A [Set] keeps its elements in
    insertion order without repetition. *)

Definition obj (V : Type) : Type := list (string * V).

Fixpoint obj_get {V} (o : obj V) (k : string) : option V :=
  match o with
  | [] => None
  | (k', v) :: o' => if String.eqb k k' then Some v else obj_get o' k
  end.

Fixpoint obj_set {V} (o : obj V) (k : string) (v : V) : obj V :=
  match o with
  | [] => [(k, v)]
  | (k', v') :: o' =>
      if String.eqb k k' then (k', v) :: o' else (k', v') :: obj_set o' k v
  end.

(** The objects of the program are object literals, so a read [o[k]] of a
    key that [o] does not own finds the property of [Object.prototype] when
    [k] names one (a function, or the prototype itself: truthy in all
    cases), and the assignment [o["__proto__"] = v] of an object [v] changes
    the prototype instead of creating a property. *)
Definition inheritedKey (k : string) : bool :=
  existsb (String.eqb k)
    ["constructor"; "__defineGetter__"; "__defineSetter__"; "hasOwnProperty";
     "__lookupGetter__"; "__lookupSetter__"; "isPrototypeOf";
     "propertyIsEnumerable"; "toString"; "valueOf"; "__proto__";
     "toLocaleString"].

Definition obj_assign {V} (o : obj V) (k : string) (v : V) : obj V :=
  if String.eqb k "__proto__" then o else obj_set o k v.

(** A key that is an array index: a canonical decimal numeral below
    2^32 - 1.  [Object.keys] lists these first, in ascending order, and the
    other keys after them in insertion order. *)
Definition digitOf (c : Ascii.ascii) : option N :=
  let n := Ascii.N_of_ascii c in
  if ((48 <=? n) && (n <=? 57))%N then Some (n - 48)%N else None.

Fixpoint digitsValue (s : string) (acc : N) : option N :=
  match s with
  | EmptyString => Some acc
  | String c s' =>
      match digitOf c with
      | Some d => digitsValue s' (10 * acc + d)%N
      | None => None
      end
  end.

Definition arrayIndex (s : string) : option N :=
  match s with
  | EmptyString => None
  | String c s' =>
      if Ascii.eqb c "0"%char then
        match s' with EmptyString => Some 0%N | _ => None end
      else
        match digitsValue s 0 with
        | Some n => if (n <? 4294967295)%N then Some n else None
        | None => None
        end
  end.

Fixpoint insertIndexKey (n : N) (k : string) (l : list (N * string))
    : list (N * string) :=
  match l with
  | [] => [(n, k)]
  | (m, k') :: l' =>
      if (n <=? m)%N then (n, k) :: l else (m, k') :: insertIndexKey n k l'
  end.

Fixpoint indexKeys (keys : list string) : list (N * string) :=
  match keys with
  | [] => []
  | k :: keys' =>
      match arrayIndex k with
      | Some n => insertIndexKey n k (indexKeys keys')
      | None => indexKeys keys'
      end
  end.

Definition isNull {A} (o : option A) : bool :=
  match o with None => true | Some _ => false end.

Definition Object_keys {V} (o : obj V) : list string :=
  let keys := map fst o in
  map snd (indexKeys keys) ++ filter (fun k => isNull (arrayIndex k)) keys.

Definition Set_has {A} (eqb : A -> A -> bool) (s : list A) (x : A) : bool :=
  existsb (eqb x) s.

Definition Set_add {A} (eqb : A -> A -> bool) (s : list A) (x : A) : list A :=
  if Set_has eqb s x then s else s ++ [x].

(** Is the string empty, the one falsy string. *)
Definition truthy (s : string) : bool :=
  match s with EmptyString => false | String _ _ => true end.

(** ** The clock and exceptions

    Both calculation functions read the system clock ([Date.now()],
    [new Date()]).  A computation runs in a world that answers the n-th
    clock read with [tick n]; [None] is a thrown exception. *)

Record World : Type := mkWorld { tick : nat -> Z; reads : nat }.

Definition IO (A : Type) : Type := World -> option (A * World).

Definition ret {A} (a : A) : IO A := fun w => Some (a, w).

Definition bind {A B} (m : IO A) (k : A -> IO B) : IO B :=
  fun w => match m w with
           | Some (a, w') => k a w'
           | None => None
           end.

Definition throw {A} : IO A := fun _ => None.

Definition Date_now : IO Z :=
  fun w => Some (tick w (reads w), mkWorld (tick w) (S (reads w))).

Notation "x <- m ;; k" := (bind m (fun x => k))
  (at level 61, m at next level, right associativity).

(** [l.forEach(x => ...)] where the callback updates a state [s]. *)
Fixpoint forEachIO {A S} (l : list A) (f : A -> S -> IO S) (s : S) : IO S :=
  match l with
  | [] => ret s
  | x :: l' => s' <- f x s ;; forEachIO l' f s'
  end.

(** ** Records *)

(** A booking (location ping) of [data.bookings]. *)
Record Booking : Type := mkBooking {
  tripCode : string;
  riderId : string;
  timestamp : jsdate;
  lat : jsval;
  lng : jsval;
  accuracy : jsval
}.

(** A trip definition of [data.trips]; [createdAt] is never read. *)
Record Trip : Type := mkTrip {
  code : string
}.

(** The point objects built at lines 250-256. *)
Record Point : Type := mkPoint {
  p_lat : jsval;
  p_lng : jsval;
  p_riderId : string;
  p_timestamp : jsdate;
  p_accuracy : jsnum
}.

Record Center : Type := mkCenter { c_lat : Q; c_lng : Q }.

Record Cluster : Type := mkCluster {
  c_tripCode : string;
  center : Center;
  strength : Q;
  riderCount : nat;
  totalRiders : nat;
  c_timestamp : Z;
  riders : list string
}.

Inductive HealthTier : Type := ACTIVE | STALE | INACTIVE | NO_SIGNAL.

(** The message texts; the two that interpolate a number carry it. *)
Inductive HealthMessage : Type :=
| MsgNoRiders        (* 'No riders have joined or updated location ...' *)
| MsgNoValidTime     (* 'Could not determine the last valid update time ...' *)
| MsgActive          (* 'Trip active. Last update < 2 min ago.' *)
| MsgStale (minutes : Z)     (* 'Possibly stale. Last update N min ago.' *)
| MsgInactive (minutes : Z). (* 'Inactive. Last update > 10 min ago (N min).' *)

Record HealthStatus : Type := mkHealth {
  status : HealthTier;
  message : HealthMessage;
  lastUpdate : option jsdate
}.

(** ** Constants (lines 21-23) *)

Definition CLUSTER_RADIUS_METERS : Q := 1000%Q.
Definition MINIMUM_CLUSTER_SIZE : nat := 2.
Definition RECENT_BOOKING_MINUTES : Z := 5%Z.

(** ** The weighted centre (lines 364-414) *)

(** [Math.max(accuracy, 1)] and [1 / accuracy]; NaN propagates. *)
Definition Math_max1 (a : jsnum) : jsnum :=
  match a with
  | Num q => Num (Qmax q 1)
  | NaN => NaN
  end.

Definition inverse (a : jsnum) : jsnum :=
  match a with
  | Num q => Num (1 / q)
  | NaN => NaN
  end.

(** The callback of [points.forEach] at lines 374-389, on the sums
    [(sumLatWeight, sumLngWeight, totalWeight)]. *)
Definition addWeighted (sums : Q * Q * Q) (point : Point) : Q * Q * Q :=
  let '(sumLatWeight, sumLngWeight, totalWeight) := sums in
  let accuracy := Math_max1 (p_accuracy point) in
  let weight := inverse accuracy in
  match coord (p_lat point), coord (p_lng point), weight with
  | Some lat, Some lng, Num weight =>
      (sumLatWeight + lat * weight, sumLngWeight + lng * weight,
       totalWeight + weight)%Q
  | _, _, _ => sums
  end.

(** The filter of line 395. *)
Definition validCoords (p : Point) : bool :=
  match coord (p_lat p), coord (p_lng p) with
  | Some _, Some _ => true
  | _, _ => false
  end.

(** The callback of line 400, on [(sumLat, sumLng)]. *)
Definition addPlain (sums : Q * Q) (p : Point) : Q * Q :=
  let '(sumLat, sumLng) := sums in
  match coord (p_lat p), coord (p_lng p) with
  | Some lat, Some lng => (sumLat + lat, sumLng + lng)%Q
  | _, _ => sums
  end.

Definition Qlength {A} (l : list A) : Q := inject_Z (Z.of_nat (length l)).

(** [None] is the [null] result. *)
Definition calculateWeightedCenter (points : list Point) : option Center :=
  match points with
  | [] => None
  | _ =>
      let '(sumLatWeight, sumLngWeight, totalWeight) :=
        fold_left addWeighted points (0, 0, 0)%Q in
      if Qeq_bool totalWeight 0 then
        let validPoints := filter validCoords points in
        if 0 <? length validPoints then
          let '(sumLat, sumLng) := fold_left addPlain validPoints (0, 0)%Q in
          Some {| c_lat := sumLat / Qlength validPoints;
                  c_lng := sumLng / Qlength validPoints |}
        else None
      else
        Some {| c_lat := sumLatWeight / totalWeight;
                c_lng := sumLngWeight / totalWeight |}
  end.

(** Two results of the centre computation that denote the same rationals. *)
Definition centersAgree (a b : option Center) : Prop :=
  match a, b with
  | Some x, Some y => (c_lat x == c_lat y /\ c_lng x == c_lng y)%Q
  | None, None => True
  | _, _ => False
  end.

(** ** Clustering (lines 196-355, 424-454) *)

Section Clustering.

(** [distanceWithin lat1 lng1 lat2 lng2 radiusMeters] is the test
    [calculateHaversineDistance(lat1, lng1, lat2, lng2) <= radiusMeters]
    of line 446. *)
Variable distanceWithin : Q -> Q -> Q -> Q -> Q -> bool.

(** The [for] loop of [getNeighbors], from index [i] on. *)
Fixpoint neighborsFrom (lat1 lng1 : Q) (pointIndex : nat) (radiusMeters : Q)
    (rest : list Point) (i : nat) : list nat :=
  match rest with
  | [] => []
  | otherPoint :: rest' =>
      let neighbors := neighborsFrom lat1 lng1 pointIndex radiusMeters rest' (S i) in
      if Nat.eqb i pointIndex then neighbors
      else
        match coord (p_lat otherPoint), coord (p_lng otherPoint) with
        | Some lat2, Some lng2 =>
            if distanceWithin lat1 lng1 lat2 lng2 radiusMeters
            then i :: neighbors
            else neighbors
        | _, _ => neighbors
        end
  end.

Definition getNeighbors (point : Point) (pointIndex : nat)
    (allPoints : list Point) (radiusMeters : Q) : list nat :=
  match coord (p_lat point), coord (p_lng point) with
  | Some lat1, Some lng1 =>
      neighborsFrom lat1 lng1 pointIndex radiusMeters allPoints 0
  | _, _ => []
  end.

(** [neighbors.length + 1 >= MINIMUM_CLUSTER_SIZE] (lines 270 and 292). *)
Definition isCore (neighbors : list nat) : bool :=
  MINIMUM_CLUSTER_SIZE <=? length neighbors + 1.

(** A value together with the equation that it is the one inspected. *)
Definition inspect {A : Type} (x : A) : { y : A | x = y } :=
  exist _ x eq_refl.

(** Indices of the array not yet in [visited]; the loop below ends because
    every turn either shortens the queue or visits one of them. *)
Definition unvisited (n : nat) (visited : list nat) : nat :=
  length (filter (fun i => negb (Set_has Nat.eqb visited i)) (seq 0 n)).

Lemma unvisited_add (n : nat) (visited : list nat) (i : nat) :
  i < n -> Set_has Nat.eqb visited i = false ->
  unvisited n (Set_add Nat.eqb visited i) < unvisited n visited.
Proof.
  intros Hi Hv. unfold unvisited, Set_add. rewrite Hv.
  assert (Hin : In i (seq 0 n)) by (apply in_seq; lia).
  induction (seq 0 n) as [|j l IH]; [contradiction|].
  assert (Hmono : forall l',
    length (filter (fun k => negb (Set_has Nat.eqb (visited ++ [i]) k)) l')
    <= length (filter (fun k => negb (Set_has Nat.eqb visited k)) l')).
  { induction l' as [|k l' IH']; simpl; [lia|].
    unfold Set_has in *. rewrite existsb_app. simpl.
    destruct (existsb (Nat.eqb k) visited); simpl; [exact IH'|].
    destruct (Nat.eqb k i); simpl; lia. }
  simpl. destruct (Nat.eq_dec j i) as [->|Hne].
  - rewrite Hv. unfold Set_has at 1. rewrite existsb_app. simpl.
    rewrite Nat.eqb_refl, orb_true_r. simpl.
    specialize (Hmono l). lia.
  - destruct Hin as [Hin|Hin]; [congruence|]. specialize (IH Hin).
    unfold Set_has at 1. rewrite existsb_app. simpl.
    apply Nat.eqb_neq in Hne. rewrite Hne, !orb_false_r.
    fold (Set_has Nat.eqb visited j).
    destruct (Set_has Nat.eqb visited j); simpl; lia.
Qed.

(** The [while (queue.length > 0)] loop of lines 277-301.  [None] is the
    TypeError of reading [.lat] of [points[neighborIndex]] when the index is
    outside the array. *)
Equations? expandCluster (points : list Point) (queue : list nat)
    (visited : list nat) (currentClusterPoints : list Point)
    (currentClusterIndices : list nat)
    : option (list nat * list Point * list nat)
    by wf (unvisited (length points) visited, length queue) (Subterm.lexprod _ _ lt lt) :=
  expandCluster points [] visited currentClusterPoints currentClusterIndices :=
    Some (visited, currentClusterPoints, currentClusterIndices);
  expandCluster points (neighborIndex :: queue) visited currentClusterPoints
      currentClusterIndices
    with inspect (Set_has Nat.eqb visited neighborIndex) := {
    | exist _ true Hvisited =>
        expandCluster points queue visited currentClusterPoints
          currentClusterIndices
    | exist _ false Hvisited
        with inspect (nth_error points neighborIndex) := {
        | exist _ None Hpoint => None
        | exist _ (Some neighborPoint) Hpoint =>
            let visited' := Set_add Nat.eqb visited neighborIndex in
            let neighborsOfNeighbor :=
              getNeighbors neighborPoint neighborIndex points
                CLUSTER_RADIUS_METERS in
            expandCluster points
              (if isCore neighborsOfNeighbor
               then queue ++ filter (fun idx => negb (Set_has Nat.eqb visited' idx))
                                    neighborsOfNeighbor
               else queue)
              visited'
              (currentClusterPoints ++ [neighborPoint])
              (Set_add Nat.eqb currentClusterIndices neighborIndex) } }.
Proof.
  left. apply unvisited_add; [|assumption].
  apply nth_error_Some. congruence.
Defined.

(** The callback of [points.forEach] (lines 262-312) on the state
    [(visited, tripSpecificClusters)]. *)
Definition scanPoint (points : list Point) (index : nat) (point : Point)
    (st : list nat * list (list Point))
    : option (list nat * list (list Point)) :=
  let '(visited, tripSpecificClusters) := st in
  if Set_has Nat.eqb visited index then Some st
  else
    let visited := Set_add Nat.eqb visited index in
    let neighborIndices :=
      getNeighbors point index points CLUSTER_RADIUS_METERS in
    if isCore neighborIndices then
      match expandCluster points neighborIndices visited [point] [index] with
      | Some (visited', currentClusterPoints, _) =>
          Some (visited', tripSpecificClusters ++ [currentClusterPoints])
      | None => None
      end
    else Some (visited, tripSpecificClusters).

Fixpoint scanFrom (points : list Point) (index : nat) (rest : list Point)
    (st : list nat * list (list Point))
    : option (list nat * list (list Point)) :=
  match rest with
  | [] => Some st
  | point :: rest' =>
      match scanPoint points index point st with
      | Some st' => scanFrom points (S index) rest' st'
      | None => None
      end
  end.

(** The clusters found for one trip, in discovery order. *)
Definition dbscan (points : list Point) : option (list (list Point)) :=
  option_map snd (scanFrom points 0 points ([], [])).

(** The filter of lines 208-213. *)
Definition isUndefined (ts : jsdate) : bool :=
  match ts with TsUndefined => true | _ => false end.

Definition isRecent (cutoffTime : Z) (booking : Booking) : bool :=
  if isUndefined (timestamp booking)
     || negb (typeofNumber (lat booking))
     || negb (typeofNumber (lng booking))
  then false
  else
    match getTime (timestamp booking) with
    | Some bookingTime => (cutoffTime <=? bookingTime)%Z
    | None => false
    end.

(** The callback of lines 218-223: the booking is pushed on the array of
    its trip code, created empty when the code is new. *)
Definition addToTrip (bookingsByTrip : obj (list Booking)) (booking : Booking)
    : obj (list Booking) :=
  match obj_get bookingsByTrip (tripCode booking) with
  | None => obj_set bookingsByTrip (tripCode booking) [booking]
  | Some tripBookings =>
      obj_set bookingsByTrip (tripCode booking) (tripBookings ++ [booking])
  end.

(** The callback of lines 227-234. *)
Definition addRider (totalRidersPerTrip : obj (list string)) (booking : Booking)
    : obj (list string) :=
  if truthy (tripCode booking) && truthy (riderId booking) then
    match obj_get totalRidersPerTrip (tripCode booking) with
    | None =>
        obj_set totalRidersPerTrip (tripCode booking)
          (Set_add String.eqb [] (riderId booking))
    | Some ridersSeen =>
        obj_set totalRidersPerTrip (tripCode booking)
          (Set_add String.eqb ridersSeen (riderId booking))
    end
  else totalRidersPerTrip.

(** Lines 250-256. *)
Definition toPoint (booking : Booking) : Point :=
  {| p_lat := lat booking;
     p_lng := lng booking;
     p_riderId := riderId booking;
     p_timestamp := timestamp booking;
     p_accuracy :=
       match accuracy booking with
       | JNum (Num a) => if Qltb 0 a then Num a else Num 50
       | _ => Num 50
       end |}.

(** The callback of [reduce] at lines 319-321, and the reduction without an
    initial value; [None] is the TypeError of reducing an empty array. *)
Definition largerOf (largest current : list Point) : list Point :=
  if length largest <? length current then current else largest.

Definition reduceLargest (clusters : list (list Point)) : option (list Point) :=
  match clusters with
  | [] => None
  | first :: rest => Some (fold_left largerOf rest first)
  end.

(** Line 328: [totalRidersPerTrip[tripCode]?.size || clusterRiderCount]. *)
Definition totalRidersForThisTrip (totalRidersPerTrip : obj (list string))
    (tripCode : string) (clusterRiderCount : nat) : nat :=
  match obj_get totalRidersPerTrip tripCode with
  | Some ridersSeen =>
      if length ridersSeen =? 0 then clusterRiderCount else length ridersSeen
  | None => clusterRiderCount
  end.

(** Line 330. *)
Definition strengthOf (clusterRiderCount totalRidersForThisTrip : nat) : Q :=
  if 0 <? totalRidersForThisTrip
  then (inject_Z (Z.of_nat clusterRiderCount)
        / inject_Z (Z.of_nat totalRidersForThisTrip))%Q
  else 0%Q.

(** The record stored at lines 334-342. *)
Definition clusterRecord (totalRidersPerTrip : obj (list string))
    (tripCode : string) (largestCluster : list Point) (center : Center)
    (computedAt : Z) : Cluster :=
  let clusterRiderCount := length largestCluster in
  let totalRidersForThisTrip :=
    totalRidersForThisTrip totalRidersPerTrip tripCode clusterRiderCount in
  let strength := strengthOf clusterRiderCount totalRidersForThisTrip in
  {| c_tripCode := tripCode;
     center := center;
     strength := Qmin 1 strength;
     riderCount := clusterRiderCount;
     totalRiders := totalRidersForThisTrip;
     c_timestamp := computedAt;
     riders := map p_riderId largestCluster |}.

(** The callback of [Object.keys(bookingsByTrip).forEach] (lines 239-351),
    on the result object.  [tripCode] is an own key of [bookingsByTrip],
    created by assignment, hence not "__proto__": the assignment of line
    334 stores the record. *)
Definition processTrip (bookingsByTrip : obj (list Booking))
    (totalRidersPerTrip : obj (list string)) (tripCode : string)
    (tripClusterResults : obj Cluster) : IO (obj Cluster) :=
  match obj_get bookingsByTrip tripCode with
  | None => throw
  | Some recentTripRiders =>
      if length recentTripRiders <? MINIMUM_CLUSTER_SIZE
      then ret tripClusterResults
      else
        let points := map toPoint recentTripRiders in
        match dbscan points with
        | None => throw
        | Some tripSpecificClusters =>
            if 0 <? length tripSpecificClusters then
              match reduceLargest tripSpecificClusters with
              | None => throw
              | Some largestCluster =>
                  match calculateWeightedCenter largestCluster with
                  | Some center =>
                      computedAt <- Date_now ;;
                      ret (obj_set tripClusterResults tripCode
                             (clusterRecord totalRidersPerTrip tripCode
                                largestCluster center computedAt))
                  | None => ret tripClusterResults
                  end
              end
            else ret tripClusterResults
        end
  end.

(** The loop of lines 217-223.  When the trip code of a recent booking
    names a property of [Object.prototype], [bookingsByTrip[code]] is that
    property: no array is created and [.push] is not a function, a
    TypeError ([None]).  Otherwise the bookings are grouped by [addToTrip]. *)
Definition groupByTrip (recentBookings : list Booking)
    : option (obj (list Booking)) :=
  if existsb (fun booking => inheritedKey (tripCode booking)) recentBookings
  then None
  else Some (fold_left addToTrip recentBookings []).

(** The loop of lines 226-234, with the same TypeError on [.add] for a
    booking that passes the test of line 228. *)
Definition countRiders (validBookings : list Booking)
    : option (obj (list string)) :=
  if existsb (fun booking => truthy (tripCode booking)
                             && truthy (riderId booking)
                             && inheritedKey (tripCode booking))
             validBookings
  then None
  else Some (fold_left addRider validBookings []).

(** [trips] is only logged. *)
Definition calculateClusters (bookings : list Booking) (trips : list Trip)
    : IO (obj Cluster) :=
  now <- Date_now ;;
  let cutoffTime := (now - RECENT_BOOKING_MINUTES * 60 * 1000)%Z in
  let validBookings := bookings in
  let recentBookings := filter (isRecent cutoffTime) validBookings in
  match groupByTrip recentBookings with
  | None => throw
  | Some bookingsByTrip =>
      match countRiders validBookings with
      | None => throw
      | Some totalRidersPerTrip =>
          forEachIO (Object_keys bookingsByTrip)
            (processTrip bookingsByTrip totalRidersPerTrip) []
      end
  end.

End Clustering.

(** ** Trip health (lines 488-564) *)

(** The callback of lines 516-526, on
    [(latestTimestamp, latestBookingTimestampStr)]. *)
Definition latestOf (latest : Z * option jsdate) (booking : Booking)
    : Z * option jsdate :=
  let '(latestTimestamp, _) := latest in
  if isUndefined (timestamp booking) then latest
  else
    match getTime (timestamp booking) with
    | Some bookingTime =>
        if (latestTimestamp <? bookingTime)%Z
        then (bookingTime, Some (timestamp booking))
        else latest
    | None => latest
    end.

(** [Math.round]: the nearest integer, halves upwards. *)
Definition Math_round (q : Q) : Z := Qfloor (q + (1 # 2))%Q.

(** The callback of [validTrips.forEach] (lines 497-561), on the result
    object. *)
Definition tripHealthOf (now : Z) (validBookings : list Booking) (trip : Trip)
    (tripHealth : obj HealthStatus) : obj HealthStatus :=
  let tripCode' := code trip in
  let tripBookings :=
    filter (fun b => String.eqb (tripCode b) tripCode') validBookings in
  if length tripBookings =? 0 then
    obj_assign tripHealth tripCode'
      {| status := NO_SIGNAL; message := MsgNoRiders; lastUpdate := None |}
  else
    let '(latestTimestamp, latestBookingTimestampStr) :=
      fold_left latestOf tripBookings (0%Z, None) in
    if (latestTimestamp =? 0)%Z || isNull latestBookingTimestampStr then
      obj_assign tripHealth tripCode'
        {| status := NO_SIGNAL; message := MsgNoValidTime;
           lastUpdate := None |}
    else
      let minutesSinceLastUpdate :=
        (inject_Z (now - latestTimestamp) / inject_Z (60 * 1000))%Q in
      if Qle_bool minutesSinceLastUpdate 2 then
        obj_assign tripHealth tripCode'
          {| status := ACTIVE; message := MsgActive;
             lastUpdate := latestBookingTimestampStr |}
      else if Qle_bool minutesSinceLastUpdate 10 then
        obj_assign tripHealth tripCode'
          {| status := STALE;
             message := MsgStale (Math_round minutesSinceLastUpdate);
             lastUpdate := latestBookingTimestampStr |}
      else
        obj_assign tripHealth tripCode'
          {| status := INACTIVE;
             message := MsgInactive (Math_round minutesSinceLastUpdate);
             lastUpdate := latestBookingTimestampStr |}.

Definition calculateTripHealth (bookings : list Booking) (trips : list Trip)
    : IO (obj HealthStatus) :=
  now <- Date_now ;;
  let validTrips := trips in
  let validBookings := bookings in
  ret (fold_left (fun tripHealth trip =>
                    tripHealthOf now validBookings trip tripHealth)
                 validTrips []).

(** ** The Haversine distance (lines 465-479), over the real numbers *)

Module Haversine.

Local Open Scope R_scope.

(** [Math.atan2(y, x)]: the angle of the point [(x, y)], in (-PI, PI]. *)
Definition atan2 (y x : R) : R :=
  if Rlt_dec 0 x then atan (y / x)
  else if Rlt_dec x 0 then
    if Rle_dec 0 y then atan (y / x) + PI else atan (y / x) - PI
  else if Rlt_dec 0 y then PI / 2
  else if Rlt_dec y 0 then - (PI / 2)
  else 0.

Definition calculateHaversineDistance (lat1 lon1 lat2 lon2 : R) : R :=
  let R := 6371000 in
  let phi1 := lat1 * PI / 180 in
  let phi2 := lat2 * PI / 180 in
  let dphi := (lat2 - lat1) * PI / 180 in
  let dlambda := (lon2 - lon1) * PI / 180 in
  let a := sin (dphi / 2) * sin (dphi / 2) +
           cos phi1 * cos phi2 *
           sin (dlambda / 2) * sin (dlambda / 2) in
  let c := 2 * atan2 (sqrt a) (sqrt (1 - a)) in
  R * c.

(** The test of line 446 on rational coordinates, for [distanceWithin]. *)
Definition within (lat1 lng1 lat2 lng2 radiusMeters : Q) : bool :=
  if Rle_dec (calculateHaversineDistance (Q2R lat1) (Q2R lng1)
                                         (Q2R lat2) (Q2R lng2))
             (Q2R radiusMeters)
  then true else false.





End Haversine.

(** ** The specification's own definitions

    What the specification says in words about the centroid, the health
    tiers and the clustering procedure, written independently of the code
    above; the theorems compare the two. *)

Module Spec.

Definition Qsum (l : list Q) : Q := fold_right Qplus 0%Q l.

(** The member points with valid coordinates. *)
Definition located (points : list Point) : list (Q * Q * Point) :=
  flat_map (fun p =>
              match coord (p_lat p), coord (p_lng p) with
              | Some la, Some ln => [(la, ln, p)]
              | _, _ => []
              end) points.

(** Those that also have a weight [1 / max(accuracyMeters, 1)], with it. *)
Definition weighted (points : list Point) : list (Q * Q * Q) :=
  flat_map (fun '(la, ln, p) =>
              match p_accuracy p with
              | Num a => [(la, ln, 1 / Qmax a 1)%Q]
              | NaN => []
              end) (located points).

(** Centre = (Σ lat·w, Σ lng·w) / Σ w; when the total weight is zero the
    unweighted mean of the valid points; nothing when none is valid. *)
Definition centroid (points : list Point) : option Center :=
  let ws := weighted points in
  let total := Qsum (map (fun '(_, _, w) => w) ws) in
  if Qeq_bool total 0 then
    match located points with
    | [] => None
    | valid =>
        Some {| c_lat := Qsum (map (fun '(la, _, _) => la) valid)
                         / Qlength valid;
                c_lng := Qsum (map (fun '(_, ln, _) => ln) valid)
                         / Qlength valid |}
    end
  else
    Some {| c_lat := Qsum (map (fun '(la, _, w) => la * w)%Q ws) / total;
            c_lng := Qsum (map (fun '(_, ln, w) => ln * w)%Q ws) / total |}.

(** The instants of the pings of a trip that have a valid timestamp. *)
Definition validTimes (tripCode' : string) (pings : list Booking) : list Z :=
  flat_map (fun b =>
              if String.eqb (tripCode b) tripCode' then
                match timestamp b with
                | TsInstant ms => [ms]
                | _ => []
                end
              else []) pings.

(** The tier and the last update of a trip: NO_SIGNAL without a valid ping,
    else by the age of the most recent one (2 and 10 minutes). *)
Definition classify (now : Z) (pings : list Booking) (tripCode' : string)
    : HealthTier * option jsdate :=
  match validTimes tripCode' pings with
  | [] => (NO_SIGNAL, None)
  | t :: ts =>
      let latest := fold_right Z.max t ts in
      let age := (now - latest)%Z in
      (if (age <=? 2 * 60 * 1000)%Z then ACTIVE
       else if (age <=? 10 * 60 * 1000)%Z then STALE
       else INACTIVE,
       Some (TsInstant latest))
  end.

(** The distinct rider ids ever seen for a trip, over all its pings. *)
Definition ridersEverSeen (tripCode' : string) (pings : list Booking)
    : list string :=
  nodup string_dec
    (map riderId
       (filter (fun b => String.eqb (tripCode b) tripCode') pings)).

Section Procedure.

Variable distanceWithin : Q -> Q -> Q -> Q -> Q -> bool.

(** [q] is within distance R of [p]. *)
Definition near (p q : Point) : bool :=
  match coord (p_lat p), coord (p_lng p), coord (p_lat q), coord (p_lng q) with
  | Some lat1, Some lng1, Some lat2, Some lng2 =>
      distanceWithin lat1 lng1 lat2 lng2 CLUSTER_RADIUS_METERS
  | _, _, _, _ => false
  end.

(** The neighbours of point [i]: the other points within distance R. *)
Definition neighbors (points : list Point) (i : nat) : list nat :=
  match nth_error points i with
  | Some p =>
      filter (fun j =>
                negb (j =? i) &&
                match nth_error points j with
                | Some q => near p q
                | None => false
                end)
             (seq 0 (length points))
  | None => []
  end.

(** A core point: its neighbours, plus itself, are at least M. *)
Definition core (points : list Point) (i : nat) : bool :=
  MINIMUM_CLUSTER_SIZE <=? length (neighbors points i) + 1.

Definition unassigned (assigned : list nat) (l : list nat) : list nat :=
  filter (fun j => negb (Set_has Nat.eqb assigned j)) l.

(** Expansion of a cluster from a FIFO queue: a dequeued neighbour joins
    the cluster and is marked; if it is a core point its unvisited
    neighbours are enqueued; a point already assigned is skipped. *)
Equations? absorb (points : list Point) (queue : list nat)
    (assigned : list nat) (cluster : list Point) : list nat * list Point
    by wf (unvisited (length points) assigned, length queue)
          (Subterm.lexprod _ _ lt lt) :=
  absorb points [] assigned cluster := (assigned, cluster);
  absorb points (j :: queue) assigned cluster
    with inspect (Set_has Nat.eqb assigned j) := {
    | exist _ true Hassigned => absorb points queue assigned cluster
    | exist _ false Hassigned with inspect (nth_error points j) := {
        | exist _ None Hpoint => absorb points queue assigned cluster
        | exist _ (Some q) Hpoint =>
            let assigned' := assigned ++ [j] in
            absorb points
              (if core points j
               then queue ++ unassigned assigned' (neighbors points j)
               else queue)
              assigned' (cluster ++ [q]) } }.
Proof.
  left. pose proof (unvisited_add (length points) assigned j) as H.
  unfold Set_add in H. rewrite Hassigned in H. apply H; [|reflexivity].
  apply nth_error_Some. congruence.
Defined.

(** The scan in input order: an assigned point is skipped; an unassigned
    core point starts a cluster, seeded with its unvisited neighbours; any
    other point is left alone (noise unless a later cluster absorbs it). *)
Fixpoint scan (points : list Point) (index : nat) (rest : list Point)
    (assigned : list nat) (clusters : list (list Point))
    : list (list Point) :=
  match rest with
  | [] => clusters
  | point :: rest' =>
      if Set_has Nat.eqb assigned index then
        scan points (S index) rest' assigned clusters
      else if core points index then
        let assigned' := assigned ++ [index] in
        let '(assigned'', cluster) :=
          absorb points (unassigned assigned' (neighbors points index))
                 assigned' [point] in
        scan points (S index) rest' assigned'' (clusters ++ [cluster])
      else scan points (S index) rest' assigned clusters
  end.

Definition clusters (points : list Point) : list (list Point) :=
  scan points 0 points [] [].

End Procedure.

End Spec.

(** The record that [tripHealthOf] stores for a trip code. *)
Definition healthEntry (now : Z) (validBookings : list Booking)
    (tripCode' : string) : HealthStatus :=
  let tripBookings :=
    filter (fun b => String.eqb (tripCode b) tripCode') validBookings in
  if length tripBookings =? 0 then
    {| status := NO_SIGNAL; message := MsgNoRiders; lastUpdate := None |}
  else
    let '(latestTimestamp, latestBookingTimestampStr) :=
      fold_left latestOf tripBookings (0%Z, None) in
    if (latestTimestamp =? 0)%Z || isNull latestBookingTimestampStr then
      {| status := NO_SIGNAL; message := MsgNoValidTime; lastUpdate := None |}
    else
      let minutesSinceLastUpdate :=
        (inject_Z (now - latestTimestamp) / inject_Z (60 * 1000))%Q in
      if Qle_bool minutesSinceLastUpdate 2 then
        {| status := ACTIVE; message := MsgActive;
           lastUpdate := latestBookingTimestampStr |}
      else if Qle_bool minutesSinceLastUpdate 10 then
        {| status := STALE;
           message := MsgStale (Math_round minutesSinceLastUpdate);
           lastUpdate := latestBookingTimestampStr |}
      else
        {| status := INACTIVE;
           message := MsgInactive (Math_round minutesSinceLastUpdate);
           lastUpdate := latestBookingTimestampStr |}.

(** ** Views of the clustering result, for the statements below *)

(** The rider ids that [addRider] records for a trip code. *)
Definition ridersCounted (tripCode' : string) (bookings : list Booking)
    : list string :=
  map riderId
    (filter (fun b => truthy (tripCode b) && truthy (riderId b)
                      && String.eqb (tripCode b) tripCode') bookings).

(** The fields of a cluster record that do not come from
    [totalRidersPerTrip]. *)
Definition membership (c : Cluster)
    : string * Center * nat * Z * list string :=
  (c_tripCode c, center c, riderCount c, c_timestamp c, riders c).

Definition mapValues {V W} (f : V -> W) (o : obj V) : obj W :=
  map (fun '(k, v) => (k, f v)) o.

(** A ping that the filter of lines 208-213 rejects whatever the cutoff:
    no timestamp, a timestamp that is not a date, or a latitude or longitude
    that is not of type number. *)
Definition malformed (p : Booking) : Prop :=
  getTime (timestamp p) = None \/
  typeofNumber (lat p) = false \/ typeofNumber (lng p) = false.

(** A ping whose timestamp is missing or is not a date. *)
Definition badTimestamp (p : Booking) : Prop :=
  getTime (timestamp p) = None.

(** The tier and last update of a health record. *)
Definition tierOf (h : HealthStatus) : HealthTier * option jsdate :=
  (status h, lastUpdate h).

(** The cutoff of line 200 for a clock reading [now]. *)
Definition cutoffAt (now : Z) : Z :=
  (now - RECENT_BOOKING_MINUTES * 60 * 1000)%Z.

(** The recent pings of a trip, in input order. *)
Definition recentOf (now : Z) (bookings : list Booking) (tripCode' : string)
    : list Booking :=
  filter (fun b => String.eqb (tripCode b) tripCode')
         (filter (isRecent (cutoffAt now)) bookings).

(** [c] is the record emitted for trip [k]: that of the first largest
    cluster among the recent pings of [k], stamped with some clock
    reading. *)
Definition emittedFor (distanceWithin : Q -> Q -> Q -> Q -> Q -> bool)
    (now : Z) (bookings : list Booking) (k : string) (c : Cluster) : Prop :=
  exists clusters largest center computedAt,
    MINIMUM_CLUSTER_SIZE <= length (recentOf now bookings k) /\
    dbscan distanceWithin (map toPoint (recentOf now bookings k))
      = Some clusters /\
    reduceLargest clusters = Some largest /\
    calculateWeightedCenter largest = Some center /\
    c = clusterRecord (fold_left addRider bookings []) k largest center
          computedAt.

(** Is the code that of a registered trip, and one that an assignment can
    store. *)
Definition registered (trips : list Trip) (k : string) : bool :=
  (if in_dec string_dec k (map code trips) then true else false)
  && negb (String.eqb k "__proto__").

(** ** Invariants used in the proofs *)

(** What the scan guarantees of the clusters it adds. *)
Definition wellFormedCluster (points c : list Point) : Prop :=
  1 <= length c <= length points /\ forall p, In p c -> In p points.

(** Two runs of the loop over the trips that differ in the rider totals
    only. *)
Definition sameMembership (r1 r2 : option (obj Cluster * World)) : Prop :=
  match r1, r2 with
  | Some (o1, w1), Some (o2, w2) =>
      mapValues membership o1 = mapValues membership o2 /\ w1 = w2
  | None, None => True
  | _, _ => False
  end.

(** A point with a neighbour. With M = 2 these are the core points, and a
    point without neighbour is the neighbour of none. *)
Definition linked (d : Q -> Q -> Q -> Q -> Q -> bool) (points : list Point)
    (j : nat) : Prop :=
  Spec.neighbors d points j <> [].

(** The two visited sets agree on the points that have a neighbour. *)
Definition agree (d : Q -> Q -> Q -> Q -> Q -> bool) (points : list Point)
    (V A : list nat) : Prop :=
  forall j, linked d points j -> Set_has Nat.eqb V j = Set_has Nat.eqb A j.

(** Two distance tests give the same answer on the points of a list. *)
Definition sameTest (d d' : Q -> Q -> Q -> Q -> Q -> bool)
    (points : list Point) : Prop :=
  forall p q, In p points -> In q points -> Spec.near d p q = Spec.near d' p q.

(** ** Worlds and sample data for the worked examples *)

(** A clock that stands still at [now]. *)
Definition clockAt (now : Z) : World := mkWorld (fun _ => now) 0.

(** A clock that gives the listed answers, then 0. *)
Definition clockOf (answers : list Z) : World :=
  mkWorld (fun n => nth n answers 0%Z) 0.

(** The answers of the clock to the next [n] reads. *)
Definition readings (w : World) (n : nat) : list Z :=
  map (fun i => tick w (reads w + i)) (seq 0 n).

(** The world after [n] more reads of the clock. *)
Definition afterReads (n : nat) (w : World) : World :=
  mkWorld (tick w) (reads w + n).

(** The result of a run, without the world it ends in. *)
Definition result {A} (r : option (A * World)) : option A := option_map fst r.

(** A ping with a 10 m accuracy. *)
Definition ping (trip rider : string) (ts : jsdate) (la ln : jsval) : Booking :=
  mkBooking trip rider ts la ln (JNum (Num 10)).

Definition lagos_lat : jsval := JNum (Num (65244 # 10000)).
Definition lagos_lng : jsval := JNum (Num (33792 # 10000)).

(** 14 November 2023, 22:13:20 UTC. *)
Definition sampleNow : Z := 1700000000000%Z.

(** Two places a quarter of the equator apart. *)
Definition atOrigin (trip rider : string) : Booking :=
  ping trip rider (TsInstant sampleNow) (JNum (Num 0)) (JNum (Num 0)).

Definition atQuarter (trip rider : string) : Booking :=
  ping trip rider (TsInstant sampleNow) (JNum (Num 0)) (JNum (Num 90)).

(** Trip T1 has two riders at each place; trip T2 has two riders at the
    first place and three at the second. *)
Definition twoPlaces : list Booking :=
  [atOrigin "T1" "R1"; atQuarter "T1" "R2"; atOrigin "T1" "R3";
   atQuarter "T1" "R4";
   atOrigin "T2" "R5"; atQuarter "T2" "R6"; atQuarter "T2" "R7";
   atOrigin "T2" "R8"; atQuarter "T2" "R9"].

(** The distance test between these two places: within the radius when the
    place is the same. *)
Definition samePlace (lat1 lng1 lat2 lng2 radiusMeters : Q) : bool :=
  Qeq_bool lat1 lat2 && Qeq_bool lng1 lng2.

(** ** Views of the clusters and of the health, for the statements below *)

(** [j] is joined to [i] by a chain of neighbours that stays inside the
    group [g]. *)
Inductive chained (d : Q -> Q -> Q -> Q -> Q -> bool) (points : list Point)
    (g : list nat) (i : nat) : nat -> Prop :=
| chained_start : In i g -> chained d points g i i
| chained_step (j k : nat) :
    chained d points g i j -> In k g -> In k (Spec.neighbors d points j) ->
    chained d points g i k.

(** The points at the indices of a group, in its order. *)
Definition pointsAt (points : list Point) (g : list nat) (c : list Point)
    : Prop :=
  Forall2 (fun j p => nth_error points j = Some p) g c.

(** A group of indices that is closed under the neighbour relation. *)
Definition closed (d : Q -> Q -> Q -> Q -> Q -> bool) (points : list Point)
    (g : list nat) : Prop :=
  forall i j, In i g -> In j (Spec.neighbors d points i) -> In j g.

(** What holds of the visited set [V] and of the groups found when the
    scan reaches [index]. *)
Definition scanned (d : Q -> Q -> Q -> Q -> Q -> bool)
    (points : list Point) (index : nat) (V : list nat)
    (groups : list (list nat)) (Cs : list (list Point)) : Prop :=
  Forall2 (pointsAt points) groups Cs /\
  (forall j, In j V -> j < length points) /\
  (forall j, j < index -> In j V) /\
  NoDup (concat groups) /\
  (forall i, In i (concat groups) -> In i V /\ linked d points i) /\
  (forall i, In i V -> In i (concat groups) \/ ~ linked d points i) /\
  closed d points V /\
  Forall (fun g => g <> [] /\ closed d points g /\
                   forall i, In i g -> chained d points g (hd 0 g) i) groups.

(** Two recent pings of the trip, at different places of the list, the
    second within the radius of the first. *)
Definition closePair (d : Q -> Q -> Q -> Q -> Q -> bool) (now : Z)
    (bookings : list Booking) (k : string) : Prop :=
  exists i j p q,
    i <> j /\
    nth_error (recentOf now bookings k) i = Some p /\
    nth_error (recentOf now bookings k) j = Some q /\
    Spec.near d (toPoint p) (toPoint q) = true.

(** The bookings without those stamped at the epoch or before it. *)
Definition afterEpoch (booking : Booking) : bool :=
  match timestamp booking with
  | TsInstant ms => (0 <? ms)%Z
  | _ => true
  end.

(** The fields of a cluster record other than the time of its computation. *)
Definition untimed (c : Cluster)
    : string * Center * Q * nat * nat * list string :=
  (c_tripCode c, center c, strength c, riderCount c, totalRiders c, riders c).

(** The bookings of one trip. *)
Definition ofTrip (k : string) (l : list Booking) : list Booking :=
  filter (fun b => String.eqb (tripCode b) k) l.

(** The tier, the message and the last update of a health record fit
    together. *)
Definition coherent (now : Z) (h : HealthStatus) : Prop :=
  match status h with
  | NO_SIGNAL =>
      lastUpdate h = None /\
      (message h = MsgNoRiders \/ message h = MsgNoValidTime)
  | ACTIVE =>
      message h = MsgActive /\
      exists t, lastUpdate h = Some (TsInstant t) /\
                (0 < t)%Z /\ (now - t <= 2 * 60000)%Z
  | STALE =>
      exists minutes t,
        message h = MsgStale minutes /\ (2 <= minutes <= 10)%Z /\
        lastUpdate h = Some (TsInstant t) /\
        (0 < t)%Z /\ (2 * 60000 < now - t <= 10 * 60000)%Z
  | INACTIVE =>
      exists minutes t,
        message h = MsgInactive minutes /\ (10 <= minutes)%Z /\
        lastUpdate h = Some (TsInstant t) /\
        (0 < t)%Z /\ (10 * 60000 < now - t)%Z
  end.

(** * The data file and the request handlers (lines 28-184, 567-826) *)

Module Server.

(** ** Strings

    The strings of a request are ASCII strings.  [trim] removes the white
    space and line terminators at both ends (of the ASCII characters: tab,
    line feed, vertical tab, form feed, carriage return and space);
    [toUpperCase] maps the letters a-z to A-Z. *)

Definition isWhiteSpace (c : ascii) : bool :=
  let n := nat_of_ascii c in
  ((9 <=? n) && (n <=? 13)) || (n =? 32).

Fixpoint trimStart (s : string) : string :=
  match s with
  | EmptyString => EmptyString
  | String c s' => if isWhiteSpace c then trimStart s' else s
  end.

Fixpoint trimEnd (s : string) : string :=
  match s with
  | EmptyString => EmptyString
  | String c s' =>
      match trimEnd s' with
      | EmptyString => if isWhiteSpace c then EmptyString
                       else String c EmptyString
      | rest => String c rest
      end
  end.

Definition trim (s : string) : string := trimEnd (trimStart s).

Definition upperChar (c : ascii) : ascii :=
  let n := nat_of_ascii c in
  if (97 <=? n) && (n <=? 122) then ascii_of_nat (n - 32) else c.

Fixpoint toUpperCase (s : string) : string :=
  match s with
  | EmptyString => EmptyString
  | String c s' => String (upperChar c) (toUpperCase s')
  end.

(** A number in a template literal. *)
Definition decimal (n : nat) : string :=
  NilEmpty.string_of_uint (Nat.to_uint n).

(** The test [!s || s.trim() === ''] on a string. *)
Definition blank (s : string) : bool :=
  negb (truthy s) || String.eqb (trim s) "".

(** ** The data file

    [data.json] holds the object [{ bookings, trips }].  The records are
    kept as [JSON.parse] reads them back: a [Date] is written as its ISO
    string and denotes the same instant, a number that is not finite is
    written as [null]. *)

Record TripRecord : Type := mkTripRecord {
  asTrip : Trip;      (* code *)
  createdAt : Z
}.

Record Data : Type := mkData {
  bookings : list Booking;
  trips : list TripRecord
}.

(** The file as [readData] finds it: absent (ENOENT), with a content that
    [JSON.parse] rejects, failing to be read for another reason, or holding
    data. *)
Inductive File : Type :=
| Missing
| Garbled
| Unreadable
| Holds (data : Data).

(** On a read-only disk [fs.writeFile] fails when it opens the file, which
    stays as it is.  A file that fails to be read and can be written is one
    whose mode forbids reading: a write replaces its content and keeps its
    mode, so it still fails to be read. *)
Record Disk : Type := mkDisk {
  file : File;
  readOnly : bool
}.

Definition initialData : Data := {| bookings := []; trips := [] |}.

(** Lines 46-59; [None] is the thrown ['Could not read data file']. *)
Definition readData (disk : Disk) : option Data :=
  match file disk with
  | Holds data => Some data
  | Missing | Garbled => Some {| bookings := []; trips := [] |}
  | Unreadable => None
  end.

(** Lines 62-71; [None] is the thrown ['Could not write to data file']. *)
Definition writeData (data : Data) (disk : Disk) : option Disk :=
  if readOnly disk then None
  else Some {| file := match file disk with
                       | Unreadable => Unreadable
                       | _ => Holds data
                       end;
               readOnly := readOnly disk |}.

(** Lines 28-41; [fs.access] fails for the absent file.  [None] is the
    rejection of the promise when the file cannot be created. *)
Definition initializeDataFile (disk : Disk) : option Disk :=
  match file disk with
  | Missing => writeData initialData disk
  | _ => Some disk
  end.

(** ** Requests and responses *)

(** What [parseFloat] returns for a field of the request body. *)
Inductive parsed : Type :=
| Finite (q : Q)
| Infinite (negative : bool)
| NotANumber.

(** The body of [/api/logBooking]: a string field is [Some] when its
    [typeof] is ['string']; the numeric fields are seen through
    [parseFloat]. *)
Record LogBody : Type := mkLogBody {
  body_code : option string;
  body_riderId : option string;
  body_lat : parsed;
  body_lng : parsed;
  body_acc : parsed
}.

(** The JSON bodies that the handlers send. *)
Inductive Body : Type :=
| Error (error : string)                      (* { error } *)
| Success                                     (* { success: true } *)
| SuccessTrip (tripCode' : string)            (* { success: true, tripCode } *)
| Outcome (success : bool) (message' : string) (* { success, message } *)
| Flag (hasTrips : bool)
| Bookings (l : list Booking)
| Trips (l : list TripRecord)
| Clusters (o : obj Cluster)
| Health (o : obj HealthStatus).

Record Response : Type := mkResponse {
  statusCode : nat;
  body : Body
}.

(** [Math.random()]: the n-th call answers [draw n]. *)
Record Chance : Type := mkChance { draw : nat -> Q; draws : nat }.

(** ** The handlers that only read *)

(** Lines 76-88. *)
Definition checkDataAvailability (disk : Disk) : Response * Disk :=
  match readData disk with
  | Some data => (mkResponse 200 (Flag (0 <? length (trips data))), disk)
  | None => (mkResponse 500 (Error "Could not read data file"), disk)
  end.

(** Lines 91-101. *)
Definition fetchData (disk : Disk) : Response * Disk :=
  match readData disk with
  | Some data => (mkResponse 200 (Bookings (bookings data)), disk)
  | None => (mkResponse 500 (Error "Could not read data file"), disk)
  end.

(** Lines 104-114. *)
Definition getTrips (disk : Disk) : Response * Disk :=
  match readData disk with
  | Some data => (mkResponse 200 (Trips (trips data)), disk)
  | None => (mkResponse 500 (Error "Could not read data file"), disk)
  end.

(** Lines 172-184. *)
Definition getTripHealth (disk : Disk) (w : World) : Response * Disk :=
  match readData disk with
  | Some data =>
      match calculateTripHealth (bookings data) (map asTrip (trips data)) w with
      | Some (tripHealth, _) => (mkResponse 200 (Health tripHealth), disk)
      | None =>
          (mkResponse 500 (Error "Failed to calculate trip health"), disk)
      end
  | None => (mkResponse 500 (Error "Failed to calculate trip health"), disk)
  end.

(** The largest time value of a [Date]; beyond it [toISOString] throws a
    RangeError. *)
Definition MAX_TIME : Z := 8640000000000000%Z.

(** The filter of lines 733-737. *)
Definition isNewer (since : Z) (booking : Booking) : bool :=
  if isUndefined (timestamp booking) then false
  else
    match getTime (timestamp booking) with
    | Some bookingTime => (since <? bookingTime)%Z
    | None => false
    end.

(** The comparator of line 740, [new Date(b.timestamp) - new Date(a.timestamp)];
    [None] is NaN, which [sort] takes for 0. *)
Definition newestFirst (a b : Booking) : option Z :=
  match getTime (timestamp b), getTime (timestamp a) with
  | Some tb, Some ta => Some (tb - ta)%Z
  | _, _ => None
  end.

(** [Array.prototype.sort] is stable; for a comparator that orders the
    elements consistently, as [newestFirst] does on bookings with a valid
    timestamp, its result is the one of inserting the elements one after the
    other, each behind the elements that do not have to follow it. *)
Fixpoint insertSorted {A} (compareFn : A -> A -> option Z) (x : A)
    (sorted : list A) : list A :=
  match sorted with
  | [] => [x]
  | y :: sorted' =>
      match compareFn x y with
      | Some v => if (v <? 0)%Z then x :: sorted
                  else y :: insertSorted compareFn x sorted'
      | None => y :: insertSorted compareFn x sorted'
      end
  end.

Definition sort {A} (compareFn : A -> A -> option Z) (l : list A) : list A :=
  fold_left (fun sorted x => insertSorted compareFn x sorted) l [].

(** Lines 714-750.  [since] is the value of
    [parseInt(req.query.since || 0)], [None] for NaN. *)
Definition fetchNewBookings (since : option Z) (disk : Disk)
    : Response * Disk :=
  let since' :=
    match since with
    | Some n => if (n <? 0)%Z then 0%Z else n
    | None => 0%Z
    end in
  if (MAX_TIME <? since')%Z then
    (mkResponse 500 (Error "Failed to fetch new bookings"), disk)
  else
    match readData disk with
    | Some data =>
        let validBookings := bookings data in
        let newBookings :=
          sort newestFirst (filter (isNewer since') validBookings) in
        (mkResponse 200 (Bookings newBookings), disk)
    | None => (mkResponse 500 (Error "Failed to fetch new bookings"), disk)
    end.

(** ** The handlers that write *)

(** Lines 118-154.  [tripCode'] is [Some] when [req.body.tripCode] is a
    string. *)
Definition createTrip (tripCode' : option string) (disk : Disk) (w : World)
    : Response * Disk :=
  let invalid :=
    (mkResponse 400
       (Error "Trip code must be provided and cannot be empty"), disk) in
  let failed := (mkResponse 500 (Error "Failed to create trip"), disk) in
  match tripCode' with
  | None => invalid
  | Some tripCode' =>
      if blank tripCode' then invalid
      else
        let code' := toUpperCase (trim tripCode') in
        match readData disk with
        | None => failed
        | Some data =>
            let codeExists :=
              existsb (fun trip => String.eqb (code (asTrip trip)) code')
                      (trips data) in
            if codeExists then
              (mkResponse 400
                 (Error ("Trip code '" ++ code' ++ "' already exists")%string),
               disk)
            else
              let trips' :=
                trips data ++ [mkTripRecord (mkTrip code') (tick w (reads w))] in
              match writeData {| bookings := bookings data; trips := trips' |}
                              disk with
              | None => failed
              | Some disk' => (mkResponse 201 (SuccessTrip code'), disk')
              end
        end
  end.

(** How [JSON.stringify] writes a number, read back. *)
Definition written (p : parsed) : jsval :=
  match p with
  | Finite q => JNum (Num q)
  | _ => JOther
  end.

Definition isNaN (p : parsed) : bool :=
  match p with NotANumber => true | _ => false end.

(** [p < 0]. *)
Definition negative (p : parsed) : bool :=
  match p with
  | Finite q => Qltb q 0
  | Infinite neg => neg
  | NotANumber => false
  end.

(** [l.findIndex(f)]; [None] is -1. *)
Fixpoint findIndex {A} (f : A -> bool) (l : list A) : option nat :=
  match l with
  | [] => None
  | x :: l' => if f x then Some 0 else option_map S (findIndex f l')
  end.

(** [l[i] = x] for an index of the array. *)
Fixpoint assignAt {A} (l : list A) (i : nat) (x : A) : list A :=
  match l, i with
  | [], _ => []
  | _ :: l', 0 => x :: l'
  | y :: l', S i' => y :: assignAt l' i' x
  end.

(** Lines 633-710. *)
Definition logBooking (req : LogBody) (disk : Disk) (w : World)
    : Response * Disk :=
  let failed :=
    (mkResponse 500
       (Error "An internal server error occurred while logging the booking."),
     disk) in
  let noCode :=
    (mkResponse 400 (Error "Valid trip code must be provided"), disk) in
  let noRider :=
    (mkResponse 400 (Error "Valid Rider ID must be provided"), disk) in
  match body_code req with
  | None => noCode
  | Some code' =>
      if blank code' then noCode
      else
        let tripCode' := toUpperCase (trim code') in
        match body_riderId req with
        | None => noRider
        | Some riderId' =>
            if blank riderId' then noRider
            else
              let currentRiderId := trim riderId' in
              let latitude := body_lat req in
              let longitude := body_lng req in
              let accuracy' := body_acc req in
              if isNaN latitude || isNaN longitude then
                (mkResponse 400
                   (Error "Valid latitude and longitude must be provided"),
                 disk)
              else
                let accuracy' :=
                  if isNaN accuracy' || negative accuracy' then JOther
                  else written accuracy' in
                match readData disk with
                | None => failed
                | Some data =>
                    let tripExists :=
                      existsb (fun trip =>
                                 String.eqb (code (asTrip trip)) tripCode')
                              (trips data) in
                    if negb tripExists then
                      (mkResponse 400
                         (Error ("Invalid trip code '" ++ tripCode' ++
                                 "'. This trip does not exist or may have ended.")%string),
                       disk)
                    else
                      let newBookingData :=
                        {| tripCode := tripCode';
                           riderId := currentRiderId;
                           timestamp := TsInstant (tick w (reads w));
                           lat := written latitude;
                           lng := written longitude;
                           accuracy := accuracy' |} in
                      let existingBookingIndex :=
                        findIndex (fun booking =>
                                     String.eqb (tripCode booking) tripCode'
                                     && String.eqb (riderId booking)
                                                   currentRiderId)
                                  (bookings data) in
                      let bookings' :=
                        match existingBookingIndex with
                        | Some index =>
                            assignAt (bookings data) index newBookingData
                        | None => bookings data ++ [newBookingData]
                        end in
                      match writeData {| bookings := bookings';
                                         trips := trips data |} disk with
                      | None => failed
                      | Some disk' =>
                          (mkResponse 200
                             (Outcome true
                                ("Location for " ++ currentRiderId ++
                                 " on trip " ++ tripCode' ++ " logged.")%string),
                           disk')
                      end
                end
        end
  end.

(** Lines 754-794. *)
Definition deleteTrip (tripCode' : option string) (disk : Disk)
    : Response * Disk :=
  let invalid :=
    (mkResponse 400
       (Error "Valid trip code must be provided in the request body"),
     disk) in
  let failed := (mkResponse 500 (Error "Failed to delete trip"), disk) in
  match tripCode' with
  | None => invalid
  | Some tripCode' =>
      if blank tripCode' then invalid
      else
        let codeToDelete := toUpperCase (trim tripCode') in
        match readData disk with
        | None => failed
        | Some data =>
            let initialTripCount := length (trips data) in
            let initialBookingCount := length (bookings data) in
            let trips' :=
              filter (fun trip =>
                        negb (String.eqb (code (asTrip trip)) codeToDelete))
                     (trips data) in
            let tripDeleted := length trips' <? initialTripCount in
            let bookings' :=
              filter (fun booking =>
                        negb (String.eqb (tripCode booking) codeToDelete))
                     (bookings data) in
            let bookingsDeletedCount :=
              initialBookingCount - length bookings' in
            match writeData {| bookings := bookings'; trips := trips' |}
                            disk with
            | None => failed
            | Some disk' =>
                if tripDeleted then
                  (mkResponse 200
                     (Outcome true
                        ("Trip " ++ codeToDelete ++ " and " ++
                         decimal bookingsDeletedCount ++
                         " associated bookings deleted.")%string),
                   disk')
                else
                  (mkResponse 404
                     (Outcome false
                        ("Trip code '" ++ codeToDelete ++ "' not found, but " ++
                         decimal bookingsDeletedCount ++
                         " associated bookings (if any) were removed.")%string),
                   disk')
            end
        end
  end.

(** Lines 798-814. *)
Definition resetData (disk : Disk) : Response * Disk :=
  match writeData {| bookings := []; trips := [] |} disk with
  | Some disk' =>
      (mkResponse 200
         (Outcome true
            "All application data (trips and bookings) has been reset."),
       disk')
  | None => (mkResponse 500 (Error "Failed to reset data"), disk)
  end.

(** ** Sample data (lines 570-629) *)

Record SampleTrip : Type := mkSampleTrip {
  s_code : string;
  s_center : Q * Q
}.

Definition sampleTrips : list SampleTrip :=
  [ {| s_code := "IKI490"; s_center := (65244 # 10000, 33792 # 10000)%Q |};
    {| s_code := "ABX123"; s_center := (66 # 10, 335 # 100)%Q |} ].

(** The callback of lines 582-587, on [data.trips] and the clock. *)
Definition ensureTrip (st : list TripRecord * World) (t : SampleTrip)
    : list TripRecord * World :=
  let '(trips', w) := st in
  if existsb (fun trip => String.eqb (code (asTrip trip)) (s_code t)) trips'
  then st
  else (trips' ++ [mkTripRecord (mkTrip (s_code t)) (tick w (reads w))],
        mkWorld (tick w) (S (reads w))).

(** One turn of the loop of lines 598-617: three draws for the position
    and the accuracy, a clock reading and a draw for the timestamp. *)
Definition sampleBooking (t : SampleTrip) (i : nat)
    (st : list Booking * World * Chance) : list Booking * World * Chance :=
  let '(bookings', w, c) := st in
  let latOffset := ((draw c (draws c) - (1 # 2)) * (15 # 1000))%Q in
  let lngOffset := ((draw c (S (draws c)) - (1 # 2)) * (15 # 1000))%Q in
  let lat' := (fst (s_center t) + latOffset)%Q in
  let lng' := (snd (s_center t) + lngOffset)%Q in
  let acc := (5 + Math_round (draw c (S (S (draws c))) * 45))%Z in
  let timestamp' :=
    (tick w (reads w)
     - Qfloor (draw c (S (S (S (draws c)))) * 60 * 1000))%Z in
  (bookings' ++
     [{| tripCode := s_code t;
         riderId := ("Rider-" ++ decimal i ++ "-" ++
                     String.substring 0 2 (s_code t))%string;
         timestamp := TsInstant timestamp';
         lat := JNum (Num lat');
         lng := JNum (Num lng');
         accuracy := JNum (Num (inject_Z acc)) |}],
   mkWorld (tick w) (S (reads w)),
   mkChance (draw c) (S (S (S (S (draws c)))))).

(** The callback of lines 596-618. *)
Definition sampleBookings (st : list Booking * World * Chance)
    (t : SampleTrip) : list Booking * World * Chance :=
  fold_left (fun st' i => sampleBooking t i st') (seq 1 10) st.

Definition initData (disk : Disk) (w : World) (c : Chance)
    : Response * Disk :=
  let failed :=
    (mkResponse 500 (Error "Failed to initialize sample data"), disk) in
  match readData disk with
  | None => failed
  | Some data =>
      let '(trips', w') := fold_left ensureTrip sampleTrips (trips data, w) in
      let sampleTripCodes :=
        fold_left (Set_add String.eqb) (map s_code sampleTrips) [] in
      let kept :=
        filter (fun b => negb (Set_has String.eqb sampleTripCodes (tripCode b)))
               (bookings data) in
      let '(bookings', _, _) :=
        fold_left sampleBookings sampleTrips (kept, w', c) in
      match writeData {| bookings := bookings'; trips := trips' |} disk with
      | None => failed
      | Some disk' => (mkResponse 200 Success, disk')
      end
  end.

(** ** The server *)

Section Routes.

Variable distanceWithin : Q -> Q -> Q -> Q -> Q -> bool.

(** Lines 157-169. *)
Definition getClusters (disk : Disk) (w : World) : Response * Disk :=
  match readData disk with
  | Some data =>
      match calculateClusters distanceWithin (bookings data)
                              (map asTrip (trips data)) w with
      | Some (calculatedClusters, _) =>
          (mkResponse 200 (Clusters calculatedClusters), disk)
      | None => (mkResponse 500 (Error "Failed to calculate clusters"), disk)
      end
  | None => (mkResponse 500 (Error "Failed to calculate clusters"), disk)
  end.

(** The routes of the application, with what each handler reads of its
    request. *)
Inductive Request : Type :=
| GET_checkDataAvailability
| GET_fetchData
| GET_getTrips
| POST_createTrip (tripCode' : option string)
| GET_getClusters
| GET_getTripHealth
| POST_initData
| POST_logBooking (req : LogBody)
| GET_fetchNewBookings (since : option Z)
| DELETE_deleteTrip (tripCode' : option string)
| DELETE_resetData.

(** A request is served with the clock and the random numbers of its
    time. *)
Definition serve (request : Request) (disk : Disk) (w : World) (c : Chance)
    : Response * Disk :=
  match request with
  | GET_checkDataAvailability => checkDataAvailability disk
  | GET_fetchData => fetchData disk
  | GET_getTrips => getTrips disk
  | POST_createTrip tripCode' => createTrip tripCode' disk w
  | GET_getClusters => getClusters disk w
  | GET_getTripHealth => getTripHealth disk w
  | POST_initData => initData disk w c
  | POST_logBooking req => logBooking req disk w
  | GET_fetchNewBookings since => fetchNewBookings since disk
  | DELETE_deleteTrip tripCode' => deleteTrip tripCode' disk
  | DELETE_resetData => resetData disk
  end.

(** The disk after a sequence of requests. *)
Fixpoint serveAll (requests : list (Request * World * Chance)) (disk : Disk)
    : Disk :=
  match requests with
  | [] => disk
  | (request, w, c) :: rest =>
      serveAll rest (snd (serve request disk w c))
  end.

End Routes.

(** Lines 818-826: the file is created if need be, then requests are
    served. *)
Definition start (disk : Disk) : option Disk := initializeDataFile disk.

(** ** Views of the store, for the statements below *)

(** The string does not begin with white space. *)
Definition cleanStart (s : string) : Prop :=
  match s with
  | EmptyString => True
  | String c _ => isWhiteSpace c = false
  end.

(** A code as the handlers store it: not empty, trimmed and in upper
    case. *)
Definition standard (c : string) : Prop :=
  truthy c = true /\ toUpperCase (trim c) = c.

(** Does the string hold a letter a-z. *)
Fixpoint hasLowerCase (s : string) : bool :=
  match s with
  | EmptyString => false
  | String c s' =>
      let n := nat_of_ascii c in
      ((97 <=? n) && (n <=? 122)) || hasLowerCase s'
  end.

(** The codes of the registered trips, and the key under which a rider's
    booking is kept. *)
Definition codes (registry : list TripRecord) : list string :=
  map (fun trip => code (asTrip trip)) registry.

Definition riderKey (booking : Booking) : string * string :=
  (tripCode booking, riderId booking).

(** What the handlers keep true of the data they write: trip codes are
    standard and registered once; there is one booking per trip and rider,
    for a registered trip, with a rider id that is trimmed and not empty and
    a timestamp that is an instant. *)
Record consistent (data : Data) : Prop := mkConsistent {
  codes_distinct : NoDup (codes (trips data));
  codes_standard : forall c, In c (codes (trips data)) -> standard c;
  riders_distinct : NoDup (map riderKey (bookings data));
  riders_registered :
    forall b, In b (bookings data) -> In (tripCode b) (codes (trips data));
  riders_named :
    forall b, In b (bookings data) ->
              truthy (riderId b) = true /\ trim (riderId b) = riderId b;
  riders_timed :
    forall b, In b (bookings data) -> exists ms, timestamp b = TsInstant ms
}.

Definition consistentDisk (disk : Disk) : Prop :=
  match file disk with
  | Holds data => consistent data
  | _ => True
  end.

(** The bookings after an upsert of [new]: the first booking of the same
    trip and rider is replaced where it stands, else [new] is added at the
    end. *)
Definition upserted (old : list Booking) (new : Booking)
    : list Booking :=
  match findIndex (fun booking =>
                     String.eqb (tripCode booking) (tripCode new)
                     && String.eqb (riderId booking) (riderId new)) old with
  | Some index => assignAt old index new
  | None => old ++ [new]
  end.

Definition sameRider (new booking : Booking) : bool :=
  String.eqb (tripCode booking) (tripCode new)
  && String.eqb (riderId booking) (riderId new).

(** The request is answered with the status and the disk is as it was. *)
Definition refused (answer : Response * Disk) (disk : Disk) : Prop :=
  snd answer = disk /\ 400 <= statusCode (fst answer).

(** The rider id of the i-th sample booking of a trip (line 611). *)
Definition sampleRider (t : SampleTrip) (i : nat) : string :=
  ("Rider-" ++ decimal i ++ "-" ++ String.substring 0 2 (s_code t))%string.

(** The keys of the sample bookings, in the order of their creation. *)
Definition sampleKeys (samples : list SampleTrip) : list (string * string) :=
  flat_map (fun t => map (fun i => (s_code t, sampleRider t i)) (seq 1 10))
           samples.




(** The instant of a booking whose timestamp is a date. *)
Definition stampOf (booking : Booking) : Z :=
  match getTime (timestamp booking) with
  | Some t => t
  | None => 0%Z
  end.

Definition dated (booking : Booking) : Prop :=
  exists t, getTime (timestamp booking) = Some t.

(** [a] is not older than [b]. *)
Definition notOlder (a b : Booking) : Prop := (stampOf b <= stampOf a)%Z.

Definition stampedAt (t : Z) (booking : Booking) : bool :=
  (stampOf booking =? t)%Z.

End Server.

(** * Properties *)

(** ** The weighted centre *)

Lemma Qsum_app (l1 l2 : list Q) :
  (Spec.Qsum (l1 ++ l2) == Spec.Qsum l1 + Spec.Qsum l2)%Q.
Proof.
  induction l1 as [|x l1 IH]; simpl.
  - ring.
  - rewrite IH. ring.
Qed.

Lemma weighted_cons (p : Point) (points : list Point) :
  Spec.weighted (p :: points) =
  match coord (p_lat p), coord (p_lng p), p_accuracy p with
  | Some la, Some ln, Num a => [(la, ln, 1 / Qmax a 1)%Q]
  | _, _, _ => []
  end ++ Spec.weighted points.
Proof.
  unfold Spec.weighted, Spec.located. simpl. rewrite flat_map_app.
  f_equal.
  destruct (coord (p_lat p)), (coord (p_lng p)); simpl; try reflexivity.
  destruct (p_accuracy p); reflexivity.
Qed.

Lemma located_cons (p : Point) (points : list Point) :
  Spec.located (p :: points) =
  match coord (p_lat p), coord (p_lng p) with
  | Some la, Some ln => [(la, ln, p)]
  | _, _ => []
  end ++ Spec.located points.
Proof. reflexivity. Qed.

Lemma fold_addWeighted (points : list Point) :
  forall a b c : Q,
  exists a' b' c',
    fold_left addWeighted points (a, b, c) = (a', b', c') /\
    (a' == a + Spec.Qsum (map (fun '(la, _, w) => la * w) (Spec.weighted points)) /\
     b' == b + Spec.Qsum (map (fun '(_, ln, w) => ln * w) (Spec.weighted points)) /\
     c' == c + Spec.Qsum (map (fun '(_, _, w) => w) (Spec.weighted points)))%Q.
Proof.
  induction points as [|p points IH]; intros a b c.
  - exists a, b, c. simpl. repeat split; ring.
  - cbn [fold_left]. rewrite weighted_cons.
    assert (Hstep : addWeighted (a, b, c) p =
              match coord (p_lat p), coord (p_lng p), p_accuracy p with
              | Some la, Some ln, Num acc =>
                  (a + la * (1 / Qmax acc 1), b + ln * (1 / Qmax acc 1),
                   c + 1 / Qmax acc 1)%Q
              | _, _, _ => (a, b, c)
              end).
    { unfold addWeighted.
      destruct (coord (p_lat p)), (coord (p_lng p)), (p_accuracy p);
        reflexivity. }
    rewrite Hstep. clear Hstep.
    destruct (coord (p_lat p)) as [la|], (coord (p_lng p)) as [ln|],
             (p_accuracy p) as [acc|]; simpl app;
      try solve [destruct (IH a b c) as (a' & b' & c' & E & Ha & Hb & Hc);
                 exists a', b', c'; auto].
    destruct (IH (a + la * (1 / Qmax acc 1))%Q (b + ln * (1 / Qmax acc 1))%Q
                 (c + 1 / Qmax acc 1)%Q)
      as (a' & b' & c' & E & Ha & Hb & Hc).
    exists a', b', c'. split; [exact E|].
    rewrite Ha, Hb, Hc. simpl. repeat split; ring.
Qed.

Lemma fold_addPlain (points : list Point) :
  forall a b : Q,
  exists a' b',
    fold_left addPlain (filter validCoords points) (a, b) = (a', b') /\
    (a' == a + Spec.Qsum (map (fun '(la, _, _) => la) (Spec.located points)) /\
     b' == b + Spec.Qsum (map (fun '(_, ln, _) => ln) (Spec.located points)))%Q.
Proof.
  induction points as [|p points IH]; intros a b.
  - exists a, b. simpl. repeat split; ring.
  - rewrite located_cons. cbn [filter]. unfold validCoords at 1.
    destruct (coord (p_lat p)) as [la|] eqn:Ela,
             (coord (p_lng p)) as [ln|] eqn:Eln; cbn [app]; auto.
    cbn [fold_left].
    assert (Hstep : addPlain (a, b) p = (a + la, b + ln)%Q)
      by (unfold addPlain; rewrite Ela, Eln; reflexivity).
    rewrite Hstep.
    destruct (IH (a + la)%Q (b + ln)%Q) as (a' & b' & E & Ha & Hb).
    exists a', b'. split; [exact E|]. rewrite Ha, Hb. simpl. split; ring.
Qed.

Lemma length_validCoords (points : list Point) :
  length (filter validCoords points) = length (Spec.located points).
Proof.
  induction points as [|p points IH]; [reflexivity|].
  rewrite located_cons, length_app. simpl. unfold validCoords at 1.
  destruct (coord (p_lat p)), (coord (p_lng p)); simpl; lia.
Qed.

Lemma Qeq_bool_congr (x y : Q) : (x == y)%Q -> Qeq_bool x 0 = Qeq_bool y 0.
Proof.
  intros H. destruct (Qeq_bool y 0) eqn:E.
  - apply Qeq_bool_iff. apply Qeq_bool_iff in E. rewrite H. exact E.
  - destruct (Qeq_bool x 0) eqn:E'; [|reflexivity].
    apply Qeq_bool_iff in E'. rewrite H in E'. apply Qeq_bool_iff in E'.
    congruence.
Qed.

Lemma weighted_center_refines (points : list Point) :
  centersAgree (calculateWeightedCenter points) (Spec.centroid points).
Proof.
  destruct points as [|p0 points0]; [reflexivity|].
  unfold calculateWeightedCenter.
  set (points := p0 :: points0).
  destruct (fold_addWeighted points 0 0 0) as (a & b & c & E & Ha & Hb & Hc).
  rewrite E. unfold Spec.centroid.
  rewrite Qplus_0_l in Ha, Hb, Hc.
  rewrite (Qeq_bool_congr _ _ Hc).
  destruct (Qeq_bool _ 0) eqn:Ez.
  - rewrite length_validCoords.
    destruct (fold_addPlain points 0 0) as (a' & b' & E' & Ha' & Hb').
    rewrite E'. rewrite Qplus_0_l in Ha', Hb'.
    destruct (Spec.located points) as [|v valid] eqn:Ev; [reflexivity|].
    cbn [length Nat.ltb Nat.leb]. unfold centersAgree, Qlength.
    cbn [c_lat c_lng].
    rewrite length_validCoords, Ev, Ha', Hb'. split; reflexivity.
  - unfold centersAgree. cbn [c_lat c_lng]. rewrite Ha, Hb, Hc.
    split; reflexivity.
Qed.

Lemma centroid_none (points : list Point) :
  Spec.centroid points = None <-> Spec.located points = [].
Proof.
  unfold Spec.centroid. split.
  - destruct (Qeq_bool _ 0); [|discriminate].
    destruct (Spec.located points); [reflexivity|discriminate].
  - intros E. unfold Spec.weighted. rewrite E. reflexivity.
Qed.

Lemma weighted_center_none (points : list Point) :
  calculateWeightedCenter points = None <-> Spec.located points = [].
Proof.
  rewrite <- centroid_none.
  pose proof (weighted_center_refines points) as H.
  unfold centersAgree in H.
  destruct (calculateWeightedCenter points), (Spec.centroid points);
    split; intros; try discriminate; try contradiction; reflexivity.
Qed.

Lemma Qmax1_pos (a : Q) : (0 < Qmax a 1)%Q.
Proof.
  apply Qlt_le_trans with 1%Q; [reflexivity|]. apply Q.le_max_r.
Qed.

Lemma weighted_center_pair (acc : Q) (r1 r2 : string) (t1 t2 : jsdate) :
  centersAgree
    (calculateWeightedCenter
       [mkPoint (JNum (Num 0)) (JNum (Num 0)) r1 t1 (Num acc);
        mkPoint (JNum (Num 0)) (JNum (Num 2)) r2 t2 (Num acc)])
    (Some (mkCenter 0 1)).
Proof.
  unfold calculateWeightedCenter. cbn [fold_left addWeighted p_lat p_lng
    p_accuracy coord Math_max1 inverse].
  pose proof (Qmax1_pos acc) as Hpos.
  set (m := Qmax acc 1) in *.
  destruct (Qeq_bool (0 + 1 / m + 1 / m) 0) eqn:E.
  - exfalso. apply Qeq_bool_iff in E.
    assert (Hm : ~ (m == 0)%Q)
      by (intros H0; rewrite H0 in Hpos; discriminate).
    assert (H : (0 + 1 / m + 1 / m == 2 / m)%Q) by (field; exact Hm).
    rewrite H in E.
    assert (Hq : (0 < 2 / m)%Q).
    { apply Qlt_shift_div_l; [exact Hpos|]. rewrite Qmult_0_l. reflexivity. }
    rewrite E in Hq. discriminate.
  - assert (Hm : ~ (m == 0)%Q)
      by (intros H0; rewrite H0 in Hpos; discriminate).
    unfold centersAgree. cbn [c_lat c_lng]. split; field; exact Hm.
Qed.

(** C5. The centre computed for a list of member points is the one the
    specification describes: the average of the valid coordinates weighted
    by 1 / max(accuracy, 1); when the total weight is zero, the unweighted
    mean of the points with valid coordinates; and no centre (hence no
    cluster, and no error) exactly when no point has valid coordinates.  Two
    points of equal accuracy at (0,0) and (0,2) have their centre at (0,1). *)
Theorem weighted_center_as_specified :
  (forall points,
     centersAgree (calculateWeightedCenter points) (Spec.centroid points)) /\
  (forall points,
     calculateWeightedCenter points = None <-> Spec.located points = []) /\
  (forall acc r1 r2 t1 t2,
     centersAgree
       (calculateWeightedCenter
          [mkPoint (JNum (Num 0)) (JNum (Num 0)) r1 t1 (Num acc);
           mkPoint (JNum (Num 0)) (JNum (Num 2)) r2 t2 (Num acc)])
       (Some (mkCenter 0 1))).
Proof.
  split; [|split].
  - exact weighted_center_refines.
  - exact weighted_center_none.
  - exact weighted_center_pair.
Qed.

(** ** The largest cluster *)

Lemma fold_largerOf (rest : list (list Point)) :
  forall before largest mid,
    (forall c, In c before -> length c < length largest) ->
    (forall c, In c mid -> length c <= length largest) ->
    exists before' after',
      before ++ largest :: mid ++ rest =
        before' ++ fold_left largerOf rest largest :: after' /\
      (forall c, In c before' ->
                 length c < length (fold_left largerOf rest largest)) /\
      (forall c, In c after' ->
                 length c <= length (fold_left largerOf rest largest)).
Proof.
  induction rest as [|x rest IH]; intros before largest mid Hb Hm.
  - exists before, mid. rewrite app_nil_r. auto.
  - cbn [fold_left]. unfold largerOf at 2 4 6.
    destruct (length largest <? length x) eqn:E.
    + apply Nat.ltb_lt in E.
      destruct (IH (before ++ largest :: mid) x []) as (b' & a' & Heq & H1 & H2).
      * intros c Hc. apply in_app_or in Hc. destruct Hc as [Hc|[Hc|Hc]].
        -- specialize (Hb c Hc). lia.
        -- subst c. exact E.
        -- specialize (Hm c Hc). lia.
      * intros c [].
      * exists b', a'. split; [|auto].
        rewrite <- Heq. rewrite <- !app_assoc. reflexivity.
    + apply Nat.ltb_ge in E.
      destruct (IH before largest (mid ++ [x])) as (b' & a' & Heq & H1 & H2).
      * exact Hb.
      * intros c Hc. apply in_app_or in Hc. destruct Hc as [Hc|[Hc|[]]].
        -- auto.
        -- subst c. exact E.
      * exists b', a'. split; [|auto].
        rewrite <- Heq. rewrite <- !app_assoc. reflexivity.
Qed.

(** The reduction selects the first cluster of maximum size: every
    cluster before it is strictly smaller, none after it is larger. *)
Lemma reduceLargest_first_maximum (first : list Point)
    (rest : list (list Point)) :
  exists before after,
    first :: rest = before ++ fold_left largerOf rest first :: after /\
    (forall c, In c before ->
               length c < length (fold_left largerOf rest first)) /\
    (forall c, In c after ->
               length c <= length (fold_left largerOf rest first)).
Proof.
  destruct (fold_largerOf rest [] first []) as (b & a & Heq & H1 & H2).
  - intros c [].
  - intros c [].
  - exists b, a. auto.
Qed.

(** ** The Haversine distance *)

Section HaversineFacts.

Import Haversine.
Local Open Scope R_scope.


Lemma haversine_sym lat1 lon1 lat2 lon2 :
  calculateHaversineDistance lat1 lon1 lat2 lon2 =
  calculateHaversineDistance lat2 lon2 lat1 lon1.
Proof.
  unfold calculateHaversineDistance.
  replace ((lat1 - lat2) * PI / 180 / 2)
    with (- ((lat2 - lat1) * PI / 180 / 2)) by field.
  replace ((lon1 - lon2) * PI / 180 / 2)
    with (- ((lon2 - lon1) * PI / 180 / 2)) by field.
  rewrite !sin_neg.
  set (s := sin ((lat2 - lat1) * PI / 180 / 2)).
  set (t := sin ((lon2 - lon1) * PI / 180 / 2)).
  replace (- s * - s + cos (lat2 * PI / 180) * cos (lat1 * PI / 180) * - t * - t)
    with (s * s + cos (lat1 * PI / 180) * cos (lat2 * PI / 180) * t * t) by ring.
  reflexivity.
Qed.

Lemma atan2_0_1 : atan2 0 1 = 0.
Proof.
  unfold atan2. destruct (Rlt_dec 0 1) as [_|H]; [|exfalso; lra].
  replace (0 / 1) with 0 by field. apply atan_0.
Qed.

Lemma haversine_same lat lon :
  calculateHaversineDistance lat lon lat lon = 0.
Proof.
  unfold calculateHaversineDistance.
  replace ((lat - lat) * PI / 180 / 2) with 0 by field.
  replace ((lon - lon) * PI / 180 / 2) with 0 by field.
  rewrite sin_0.
  replace (0 * 0 + cos (lat * PI / 180) * cos (lat * PI / 180) * 0 * 0)
    with 0 by ring.
  rewrite Rminus_0_r, sqrt_0, sqrt_1, atan2_0_1. ring.
Qed.

Lemma within_sym lat1 lng1 lat2 lng2 radiusMeters :
  within lat1 lng1 lat2 lng2 radiusMeters =
  within lat2 lng2 lat1 lng1 radiusMeters.
Proof. unfold within. rewrite haversine_sym. reflexivity. Qed.

Lemma within_same lat lng :
  within lat lng lat lng CLUSTER_RADIUS_METERS = true.
Proof.
  unfold within. rewrite haversine_same.
  destruct (Rle_dec 0 (Q2R CLUSTER_RADIUS_METERS)) as [_|H]; [reflexivity|].
  exfalso. apply H. unfold CLUSTER_RADIUS_METERS, Q2R. simpl. lra.
Qed.


End HaversineFacts.

(** The two places of the worked examples are farther apart than the
    radius: a quarter of the equator. *)
Section QuarterTurn.
Import Haversine.
Local Open Scope R_scope.

Lemma quarter_turn_distance :
  calculateHaversineDistance 0 0 0 90 = 6371000 * (PI / 2).
Proof.
  unfold calculateHaversineDistance. cbv zeta.
  replace ((0 - 0) * PI / 180 / 2) with 0 by field.
  replace (0 * PI / 180) with 0 by field.
  replace ((90 - 0) * PI / 180 / 2) with (PI / 4) by field.
  rewrite sin_0, cos_0, sin_PI4.
  replace (0 * 0 + 1 * 1 * (1 / sqrt 2) * (1 / sqrt 2)) with (1 / 2).
  2:{ assert (H : sqrt 2 * sqrt 2 = 2) by (apply sqrt_sqrt; lra).
      assert (H0 : sqrt 2 <> 0).
      { intros E. rewrite E in H. lra. }
      field_simplify_eq; [|exact H0]. lra. }
  replace (1 - 1 / 2) with (1 / 2) by field.
  assert (Hs : 0 < sqrt (1 / 2)) by (apply sqrt_lt_R0; lra).
  unfold atan2. destruct (Rlt_dec 0 (sqrt (1 / 2))) as [_|Hn]; [|contradiction].
  replace (sqrt (1 / 2) / sqrt (1 / 2)) with 1 by (field; lra).
  rewrite atan_1. field.
Qed.

End QuarterTurn.

Lemma within_quarter_turn :
  Haversine.within 0 0 0 90 CLUSTER_RADIUS_METERS = false.
Proof.
  unfold Haversine.within.
  replace (Q2R 0) with 0%R by (unfold Q2R; simpl; lra).
  replace (Q2R 90) with 90%R by (unfold Q2R; simpl; lra).
  rewrite quarter_turn_distance.
  destruct (Rle_dec _ _) as [H|_]; [|reflexivity].
  exfalso. replace (Q2R CLUSTER_RADIUS_METERS) with 1000%R in H
    by (unfold Q2R, CLUSTER_RADIUS_METERS; simpl; lra).
  pose proof PI2_1. lra.
Qed.

(** ** Objects *)

Lemma obj_get_set_same {V} (o : obj V) (k : string) (v : V) :
  obj_get (obj_set o k v) k = Some v.
Proof.
  induction o as [|[k' v'] o IH]; simpl.
  - rewrite String.eqb_refl. reflexivity.
  - destruct (String.eqb k k') eqn:E; simpl; rewrite E; auto.
Qed.

Lemma obj_get_set_other {V} (o : obj V) (k k' : string) (v : V) :
  k <> k' -> obj_get (obj_set o k v) k' = obj_get o k'.
Proof.
  intros Hne. induction o as [|[k0 v0] o IH]; simpl.
  - apply String.eqb_neq in Hne. rewrite String.eqb_sym, Hne. reflexivity.
  - destruct (String.eqb k k0) eqn:E; simpl.
    + apply String.eqb_eq in E. subst k0.
      apply String.eqb_neq in Hne. rewrite String.eqb_sym, Hne. reflexivity.
    + rewrite IH. reflexivity.
Qed.

Lemma obj_get_Some_In {V} (o : obj V) (k : string) (v : V) :
  obj_get o k = Some v -> In (k, v) o.
Proof.
  induction o as [|[k' v'] o IH]; simpl; [discriminate|].
  destruct (String.eqb k k') eqn:E.
  - apply String.eqb_eq in E. intros [= ->]. subst. auto.
  - auto.
Qed.

Lemma obj_get_In_keys {V} (o : obj V) (k : string) :
  In k (map fst o) -> exists v, obj_get o k = Some v.
Proof.
  induction o as [|[k' v'] o IH]; simpl; [contradiction|].
  destruct (String.eqb k k') eqn:E; [eauto|].
  intros [H|H]; [|auto]. subst k'. rewrite String.eqb_refl in E. discriminate.
Qed.

(** ** Trip health *)

Lemma calculateTripHealth_run (bookings : list Booking) (trips : list Trip)
    (w : World) :
  calculateTripHealth bookings trips w =
  Some (fold_left (fun tripHealth trip =>
                     tripHealthOf (tick w (reads w)) bookings trip tripHealth)
                  trips [],
        mkWorld (tick w) (S (reads w))).
Proof. reflexivity. Qed.

(** C2, the failing input.  A trip whose only ping dates from one second
    before the epoch: the ping has a valid timestamp, so the
    specification's classifier answers INACTIVE with that last update, but
    [calculateTripHealth] answers NO_SIGNAL with no last update, because the
    running maximum starts at 0 and 0 doubles as "nothing found". *)
Theorem health_ping_before_epoch :
  let bookings :=
    [ping "T1" "R1" (TsInstant (-1000)) lagos_lat lagos_lng] in
  result (calculateTripHealth bookings [mkTrip "T1"] (clockAt sampleNow)) =
    Some [("T1", {| status := NO_SIGNAL; message := MsgNoValidTime;
                    lastUpdate := None |})] /\
  Spec.classify sampleNow bookings "T1" =
    (INACTIVE, Some (TsInstant (-1000))).
Proof. split; vm_compute; reflexivity. Qed.

Lemma obj_get_assign {V} (o : obj V) (k k' : string) (v : V) :
  obj_get (obj_assign o k v) k' =
  if String.eqb k k' && negb (String.eqb k "__proto__") then Some v
  else obj_get o k'.
Proof.
  unfold obj_assign. destruct (String.eqb k "__proto__"); cbn [negb].
  - rewrite andb_false_r. reflexivity.
  - rewrite andb_true_r. destruct (String.eqb k k') eqn:E.
    + apply String.eqb_eq in E. subst k'. apply obj_get_set_same.
    + apply String.eqb_neq in E. apply obj_get_set_other. exact E.
Qed.

Lemma tripHealthOf_entry (now : Z) (bookings : list Booking) (trip : Trip)
    (tripHealth : obj HealthStatus) :
  tripHealthOf now bookings trip tripHealth =
  obj_assign tripHealth (code trip) (healthEntry now bookings (code trip)).
Proof.
  unfold tripHealthOf, healthEntry.
  destruct (length _ =? 0); [reflexivity|].
  destruct (fold_left latestOf _ _) as [latest str].
  destruct ((latest =? 0)%Z || isNull str); [reflexivity|].
  destruct (Qle_bool _ 2); [reflexivity|].
  destruct (Qle_bool _ 10); reflexivity.
Qed.

Lemma health_lookup (now : Z) (bookings : list Booking) (trips : list Trip) :
  forall (tripHealth : obj HealthStatus) (k : string),
    obj_get (fold_left (fun th t => tripHealthOf now bookings t th)
                       trips tripHealth) k =
    if registered trips k
    then Some (healthEntry now bookings k)
    else obj_get tripHealth k.
Proof.
  unfold registered.
  induction trips as [|t trips IH]; intros tripHealth k; [reflexivity|].
  cbn [fold_left]. rewrite IH, tripHealthOf_entry, obj_get_assign.
  destruct (in_dec string_dec k (map code trips)) as [Hin|Hnot];
    destruct (in_dec string_dec k (map code (t :: trips))) as [Hin'|Hnot'];
    cbn [andb].
  - destruct (negb (String.eqb k "__proto__")) eqn:Ep; [reflexivity|].
    destruct (String.eqb (code t) k) eqn:E; [|reflexivity].
    apply String.eqb_eq in E. rewrite E. rewrite Ep. reflexivity.
  - exfalso. apply Hnot'. right. exact Hin.
  - destruct Hin' as [E|Hin']; [|contradiction].
    rewrite E, String.eqb_refl. cbn [andb].
    destruct (negb (String.eqb k "__proto__")); reflexivity.
  - destruct (String.eqb (code t) k) eqn:E; [|reflexivity].
    exfalso. apply Hnot'. left. apply String.eqb_eq. exact E.
Qed.

(** ** The clustering loop *)

Lemma Set_has_In (V : list nat) (x : nat) :
  Set_has Nat.eqb V x = true <-> In x V.
Proof.
  unfold Set_has. rewrite existsb_exists. split.
  - intros (y & Hy & E). apply Nat.eqb_eq in E. subst. exact Hy.
  - intros H. exists x. split; [exact H|apply Nat.eqb_refl].
Qed.

Lemma Set_has_not_In (V : list nat) (x : nat) :
  Set_has Nat.eqb V x = false <-> ~ In x V.
Proof.
  rewrite <- Set_has_In. destruct (Set_has Nat.eqb V x); split; intros;
    try discriminate; try reflexivity; try (intro; discriminate).
  exfalso. auto.
Qed.

Lemma Set_has_app (V W : list nat) (x : nat) :
  Set_has Nat.eqb (V ++ W) x = Set_has Nat.eqb V x || Set_has Nat.eqb W x.
Proof. apply existsb_app. Qed.

Lemma Set_add_new (V : list nat) (x : nat) :
  Set_has Nat.eqb V x = false -> Set_add Nat.eqb V x = V ++ [x].
Proof. intros H. unfold Set_add. rewrite H. reflexivity. Qed.

Section ClusteringFacts.

Variable d : Q -> Q -> Q -> Q -> Q -> bool.

Lemma neighborsFrom_range (a b : Q) (i : nat) (r : Q) (rest : list Point) :
  forall k j, In j (neighborsFrom d a b i r rest k) ->
              k <= j < k + length rest.
Proof.
  induction rest as [|o rest IH]; intros k j; simpl; [contradiction|].
  intros H.
  assert (Htail : In j (neighborsFrom d a b i r rest (S k)) ->
                  k <= j < k + S (length rest))
    by (intros H'; apply IH in H'; lia).
  destruct (k =? i); [auto|].
  destruct (coord (p_lat o)); [|auto].
  destruct (coord (p_lng o)); [|auto].
  destruct (d a b q q0 r); [|auto].
  destruct H as [<-|H]; [lia|auto].
Qed.

Lemma getNeighbors_lt (p : Point) (i : nat) (points : list Point) (r : Q)
    (j : nat) :
  In j (getNeighbors d p i points r) -> j < length points.
Proof.
  unfold getNeighbors.
  destruct (coord (p_lat p)); [|contradiction].
  destruct (coord (p_lng p)); [|contradiction].
  intros H. apply neighborsFrom_range in H. lia.
Qed.

(** The four cases of one turn of the loop. *)
Lemma expand_nil (points : list Point) (V : list nat) (C : list Point)
    (I : list nat) :
  expandCluster d points [] V C I = Some (V, C, I).
Proof. apply expandCluster_equation_1. Qed.

Lemma expand_visited (points : list Point) (x : nat) (q V : list nat)
    (C : list Point) (I : list nat) :
  Set_has Nat.eqb V x = true ->
  expandCluster d points (x :: q) V C I = expandCluster d points q V C I.
Proof.
  intros H. rewrite expandCluster_equation_2. unfold inspect.
  generalize (@eq_refl _ (Set_has Nat.eqb V x)).
  generalize (Set_has Nat.eqb V x) at 2 4.
  intros b e. destruct b; [|congruence]. simp expandCluster. reflexivity.
Qed.

Lemma expand_throw (points : list Point) (x : nat) (q V : list nat)
    (C : list Point) (I : list nat) :
  Set_has Nat.eqb V x = false -> nth_error points x = None ->
  expandCluster d points (x :: q) V C I = None.
Proof.
  intros H Hp. rewrite expandCluster_equation_2. unfold inspect.
  generalize (@eq_refl _ (Set_has Nat.eqb V x)).
  generalize (Set_has Nat.eqb V x) at 2 4.
  intros b e. destruct b; [congruence|]. simp expandCluster. unfold inspect.
  generalize (@eq_refl _ (nth_error points x)).
  generalize (nth_error points x) at 2 4.
  intros o e'. destruct o as [p'|]; [congruence|]. simp expandCluster.
  reflexivity.
Qed.

Lemma expand_visit (points : list Point) (x : nat) (q V : list nat)
    (C : list Point) (I : list nat) (p : Point) :
  Set_has Nat.eqb V x = false -> nth_error points x = Some p ->
  expandCluster d points (x :: q) V C I =
  expandCluster d points
    (if isCore (getNeighbors d p x points CLUSTER_RADIUS_METERS)
     then q ++ filter (fun idx => negb (Set_has Nat.eqb (V ++ [x]) idx))
                      (getNeighbors d p x points CLUSTER_RADIUS_METERS)
     else q)
    (V ++ [x]) (C ++ [p]) (Set_add Nat.eqb I x).
Proof.
  intros H Hp. rewrite expandCluster_equation_2. unfold inspect.
  generalize (@eq_refl _ (Set_has Nat.eqb V x)).
  generalize (Set_has Nat.eqb V x) at 2 4.
  intros b e. destruct b; [congruence|]. simp expandCluster. unfold inspect.
  generalize (@eq_refl _ (nth_error points x)).
  generalize (nth_error points x) at 2 4.
  intros o e'. destruct o as [p'|]; [|congruence]. simp expandCluster.
  assert (p' = p) by congruence. subst p'.
  rewrite (Set_add_new _ _ H). reflexivity.
Qed.

(** The loop ends without an exception when the queue holds indices of the
    array; it appends to [visited] the indices it visits, each new, and to
    the cluster the points at those indices. *)
Lemma expandCluster_inv (points : list Point) :
  forall u q V C I,
    unvisited (length points) V = u ->
    (forall j, In j q -> j < length points) ->
    exists added pts I',
      expandCluster d points q V C I = Some (V ++ added, C ++ pts, I') /\
      Forall2 (fun j p => nth_error points j = Some p) added pts /\
      (forall j, In j added -> ~ In j V) /\
      NoDup added.
Proof.
  induction u as [u IHu] using lt_wf_ind.
  induction q as [|x q IHq]; intros V C I Hu Hq.
  - exists [], [], I. rewrite expand_nil, !app_nil_r.
    repeat split; auto; constructor.
  - destruct (Set_has Nat.eqb V x) eqn:Hx.
    + rewrite expand_visited by exact Hx.
      apply IHq; [exact Hu|]. intros j Hj. apply Hq. right. exact Hj.
    + assert (Hlt : x < length points) by (apply Hq; left; reflexivity).
      destruct (nth_error points x) as [p|] eqn:Hp;
        [|apply nth_error_None in Hp; lia].
      rewrite expand_visit with (p := p) by assumption.
      set (q' := if isCore _ then _ else q).
      assert (Hq' : forall j, In j q' -> j < length points).
      { intros j Hj. unfold q' in Hj.
        destruct (isCore _).
        - apply in_app_or in Hj. destruct Hj as [Hj|Hj].
          + apply Hq. right. exact Hj.
          + apply filter_In in Hj. destruct Hj as [Hj _].
            apply getNeighbors_lt in Hj. exact Hj.
        - apply Hq. right. exact Hj. }
      assert (Hdec : unvisited (length points) (V ++ [x]) < u).
      { rewrite <- Hu, <- (Set_add_new _ _ Hx).
        apply unvisited_add; assumption. }
      destruct (IHu _ Hdec q' (V ++ [x]) (C ++ [p]) (Set_add Nat.eqb I x)
                  eq_refl Hq')
        as (added & pts & I' & E & HF & Hnew & Hnd).
      exists (x :: added), (p :: pts), I'.
      rewrite E, <- !app_assoc. split; [reflexivity|].
      split; [constructor; assumption|].
      split.
      * intros j [<-|Hj]; [apply Set_has_not_In; exact Hx|].
        intros Hin. apply (Hnew j Hj). apply in_or_app. left. exact Hin.
      * constructor; [|exact Hnd].
        intros Hin. apply (Hnew x Hin). apply in_or_app. right. left.
        reflexivity.
Qed.

Lemma NoDup_lt_length (V : list nat) (n : nat) :
  NoDup V -> (forall j, In j V -> j < n) -> length V <= n.
Proof.
  intros Hnd Hlt.
  assert (H : incl V (seq 0 n))
    by (intros j Hj; apply in_seq; specialize (Hlt j Hj); lia).
  apply (NoDup_incl_length Hnd) in H. rewrite length_seq in H. exact H.
Qed.

Lemma Forall2_nth_error_In (points : list Point) (added : list nat)
    (pts : list Point) :
  Forall2 (fun j p => nth_error points j = Some p) added pts ->
  length pts = length added /\
  (forall j, In j added -> j < length points) /\
  (forall p, In p pts -> In p points).
Proof.
  induction 1 as [|j p added pts Hjp _ (IH1 & IH2 & IH3)]; simpl.
  - repeat split; intros; contradiction.
  - split; [lia|]. split.
    + intros k [<-|Hk]; [|auto]. apply nth_error_Some. congruence.
    + intros q [<-|Hq]; [|auto]. apply nth_error_In with j. exact Hjp.
Qed.


Lemma scanPoint_inv (points : list Point) (index : nat) (point : Point)
    (V : list nat) (Cs : list (list Point)) :
  nth_error points index = Some point ->
  NoDup V -> (forall j, In j V -> j < length points) ->
  exists V' Cs',
    scanPoint d points index point (V, Cs) = Some (V', Cs ++ Cs') /\
    NoDup V' /\ (forall j, In j V' -> j < length points) /\
    Forall (wellFormedCluster points) Cs'.
Proof.
  intros Hp Hnd Hlt. unfold scanPoint.
  assert (Hi : index < length points) by (apply nth_error_Some; congruence).
  destruct (Set_has Nat.eqb V index) eqn:Hv.
  - exists V, []. rewrite app_nil_r. auto.
  - rewrite (Set_add_new _ _ Hv).
    assert (Hnd1 : NoDup (V ++ [index])).
    { apply NoDup_app; [exact Hnd|repeat constructor; intros []|].
      intros j Hj [<-|[]]. apply Set_has_not_In in Hv. contradiction. }
    assert (Hlt1 : forall j, In j (V ++ [index]) -> j < length points).
    { intros j Hj. apply in_app_or in Hj. destruct Hj as [Hj|[<-|[]]]; auto. }
    destruct (isCore _).
    + destruct (expandCluster_inv points _
                  (getNeighbors d point index points CLUSTER_RADIUS_METERS)
                  (V ++ [index]) [point] [index] eq_refl)
        as (added & pts & I' & E & HF & Hnew & Hnda).
      { intros j Hj. apply getNeighbors_lt in Hj. exact Hj. }
      rewrite E.
      destruct (Forall2_nth_error_In _ _ _ HF) as (Hlen & Hadded & Hpts).
      assert (Hnd2 : NoDup ((V ++ [index]) ++ added)).
      { apply NoDup_app; [exact Hnd1|exact Hnda|].
        intros j Hj Hj'. apply (Hnew j Hj'). exact Hj. }
      assert (Hlt2 : forall j, In j ((V ++ [index]) ++ added) ->
                               j < length points).
      { intros j Hj. apply in_app_or in Hj. destruct Hj; auto. }
      exists ((V ++ [index]) ++ added), [[point] ++ pts].
      split; [reflexivity|]. split; [exact Hnd2|]. split; [exact Hlt2|].
      constructor; [|constructor]. split.
      * pose proof (NoDup_lt_length _ _ Hnd2 Hlt2) as Hle.
        rewrite !length_app in Hle. simpl in *. lia.
      * intros q [<-|Hq]; [|auto]. apply nth_error_In with index. exact Hp.
    + exists (V ++ [index]), []. rewrite app_nil_r. auto.
Qed.

Lemma scanFrom_inv (points : list Point) :
  forall rest pre V Cs,
    points = pre ++ rest ->
    NoDup V -> (forall j, In j V -> j < length points) ->
    exists V' Cs',
      scanFrom d points (length pre) rest (V, Cs) = Some (V', Cs ++ Cs') /\
      Forall (wellFormedCluster points) Cs'.
Proof.
  induction rest as [|point rest IH]; intros pre V Cs Hsplit Hnd Hlt.
  - exists V, []. rewrite app_nil_r. split; [reflexivity|constructor].
  - cbn [scanFrom].
    assert (Hp : nth_error points (length pre) = Some point).
    { rewrite Hsplit, nth_error_app2, Nat.sub_diag by lia. reflexivity. }
    destruct (scanPoint_inv _ _ _ _ Cs Hp Hnd Hlt) as (V1 & Cs1 & E & Hnd1 & Hlt1 & HW1).
    rewrite E.
    destruct (IH (pre ++ [point]) V1 (Cs ++ Cs1)) as (V2 & Cs2 & E2 & HW2).
    { rewrite <- app_assoc. exact Hsplit. }
    { exact Hnd1. }
    { exact Hlt1. }
    rewrite length_app, Nat.add_1_r in E2. rewrite E2.
    exists V2, (Cs1 ++ Cs2). rewrite app_assoc. split; [reflexivity|].
    apply Forall_app. split; assumption.
Qed.

(** The scan of a trip's points never throws; every cluster it finds has
    between one point and all of them, and only points of the trip. *)
Lemma dbscan_total (points : list Point) :
  exists clusters,
    dbscan d points = Some clusters /\
    Forall (wellFormedCluster points) clusters.
Proof.
  destruct (scanFrom_inv points points [] [] [] eq_refl) as (V & Cs & E & HW).
  - constructor.
  - intros j [].
  - exists Cs. unfold dbscan. simpl in E. rewrite E. split; [reflexivity|exact HW].
Qed.

End ClusteringFacts.

(** ** The distance test only matters on the points of the trip *)

Section SameTest.

Variables d d' : Q -> Q -> Q -> Q -> Q -> bool.

Lemma neighborsFrom_same (p : Point) (la ln : Q) (i : nat)
    (rest : list Point) :
  coord (p_lat p) = Some la -> coord (p_lng p) = Some ln ->
  (forall q, In q rest -> Spec.near d p q = Spec.near d' p q) ->
  forall k,
    neighborsFrom d la ln i CLUSTER_RADIUS_METERS rest k =
    neighborsFrom d' la ln i CLUSTER_RADIUS_METERS rest k.
Proof.
  intros Hla Hln. induction rest as [|o rest IH]; intros H k; [reflexivity|].
  cbn [neighborsFrom]. rewrite IH by (intros q Hq; apply H; right; exact Hq).
  destruct (k =? i); [reflexivity|].
  specialize (H o (or_introl eq_refl)). unfold Spec.near in H.
  rewrite Hla, Hln in H.
  destruct (coord (p_lat o)); [|reflexivity].
  destruct (coord (p_lng o)); [|reflexivity].
  rewrite H. reflexivity.
Qed.

Lemma getNeighbors_same (points : list Point) (p : Point) (i : nat) :
  sameTest d d' points -> In p points ->
  getNeighbors d p i points CLUSTER_RADIUS_METERS =
  getNeighbors d' p i points CLUSTER_RADIUS_METERS.
Proof.
  intros H Hp. unfold getNeighbors.
  destruct (coord (p_lat p)) as [la|] eqn:Ela; [|reflexivity].
  destruct (coord (p_lng p)) as [ln|] eqn:Eln; [|reflexivity].
  apply (neighborsFrom_same p); [exact Ela|exact Eln|].
  intros q Hq. apply H; assumption.
Qed.

Lemma expandCluster_same (points : list Point) :
  sameTest d d' points ->
  forall u q V C I,
    unvisited (length points) V = u ->
    expandCluster d points q V C I = expandCluster d' points q V C I.
Proof.
  intros H. induction u as [u IHu] using lt_wf_ind.
  induction q as [|x q IHq]; intros V C I Hu.
  - rewrite !expand_nil. reflexivity.
  - destruct (Set_has Nat.eqb V x) eqn:Hx.
    + rewrite !expand_visited by exact Hx. apply IHq. exact Hu.
    + destruct (nth_error points x) as [pt|] eqn:Hp.
      * rewrite !expand_visit with (p := pt) by assumption.
        rewrite (getNeighbors_same points pt x H (nth_error_In _ _ Hp)).
        apply (IHu (unvisited (length points) (V ++ [x]))); [|reflexivity].
        rewrite <- Hu, <- (Set_add_new _ _ Hx).
        apply unvisited_add; [|exact Hx].
        apply nth_error_Some. congruence.
      * rewrite !expand_throw by assumption. reflexivity.
Qed.

Lemma scanFrom_same (points : list Point) :
  sameTest d d' points ->
  forall rest index st,
    (forall p, In p rest -> In p points) ->
    scanFrom d points index rest st = scanFrom d' points index rest st.
Proof.
  intros H. induction rest as [|point rest IH]; intros index st Hin;
    [reflexivity|].
  cbn [scanFrom].
  assert (E : scanPoint d points index point st
              = scanPoint d' points index point st).
  { unfold scanPoint. destruct st as [V Cs].
    rewrite (getNeighbors_same points point index H
               (Hin point (or_introl eq_refl))).
    rewrite (expandCluster_same points H _ _ _ _ _ eq_refl). reflexivity. }
  rewrite E. destruct (scanPoint d' points index point st); [|reflexivity].
  apply IH. intros p0 Hp. apply Hin. right. exact Hp.
Qed.

(** Two distance tests that agree on the points of a trip find the same
    clusters there. *)
Lemma dbscan_same (points : list Point) :
  sameTest d d' points -> dbscan d points = dbscan d' points.
Proof.
  intros H. unfold dbscan. rewrite (scanFrom_same points H); auto.
Qed.

End SameTest.

Lemma sameTest_incl (d d' : Q -> Q -> Q -> Q -> Q -> bool)
    (points points' : list Point) :
  incl points' points -> sameTest d d' points -> sameTest d d' points'.
Proof. intros Hi H p q Hp Hq. apply H; apply Hi; assumption. Qed.

Lemma within_twoPlaces :
  sameTest Haversine.within samePlace (map toPoint twoPlaces).
Proof.
  assert (Hplace : forall p, In p (map toPoint twoPlaces) ->
            p_lat p = JNum (Num 0) /\
            (p_lng p = JNum (Num 0) \/ p_lng p = JNum (Num 90))).
  { intros p Hp. vm_compute in Hp.
    repeat (destruct Hp as [<-|Hp]; [split; [reflexivity|auto]|]).
    contradiction. }
  intros p q Hp Hq.
  destruct (Hplace p Hp) as (Hpa & Hpn), (Hplace q Hq) as (Hqa & Hqn).
  unfold Spec.near. rewrite Hpa, Hqa.
  destruct Hpn as [-> | ->], Hqn as [-> | ->]; cbn [coord].
  - rewrite within_same. reflexivity.
  - rewrite within_quarter_turn. reflexivity.
  - rewrite within_sym, within_quarter_turn. reflexivity.
  - rewrite within_same. reflexivity.
Qed.

Lemma dbscan_one_point (d : Q -> Q -> Q -> Q -> Q -> bool) (p : Point) :
  dbscan d [p] = Some [].
Proof.
  unfold dbscan. cbn [scanFrom]. unfold scanPoint, getNeighbors.
  cbn [Set_has existsb]. cbv iota.
  destruct (coord (p_lat p)), (coord (p_lng p)); reflexivity.
Qed.

(** ** Grouping the bookings *)

Lemma addToTrip_get (b : Booking) (o : obj (list Booking)) (k : string) :
  obj_get (addToTrip o b) k =
  if String.eqb (tripCode b) k then
    Some (match obj_get o k with Some l => l | None => [] end ++ [b])
  else obj_get o k.
Proof.
  unfold addToTrip. destruct (String.eqb (tripCode b) k) eqn:E.
  - apply String.eqb_eq in E. subst k.
    destruct (obj_get o (tripCode b)); apply obj_get_set_same.
  - apply String.eqb_neq in E.
    destruct (obj_get o (tripCode b)); apply obj_get_set_other; exact E.
Qed.

Lemma bookingsByTrip_get (l : list Booking) :
  forall (o : obj (list Booking)) (k : string),
    obj_get (fold_left addToTrip l o) k =
    match filter (fun b => String.eqb (tripCode b) k) l with
    | [] => obj_get o k
    | l' => Some (match obj_get o k with Some l0 => l0 | None => [] end ++ l')
    end.
Proof.
  induction l as [|b l IH]; intros o k; [reflexivity|].
  cbn [fold_left filter]. rewrite IH, addToTrip_get.
  destruct (String.eqb (tripCode b) k).
  - destruct (filter _ l); cbn; rewrite <- ?app_assoc; reflexivity.
  - reflexivity.
Qed.

Lemma insertIndexKey_In (n : N) (k : string) (l : list (N * string))
    (x : N * string) :
  In x (insertIndexKey n k l) -> x = (n, k) \/ In x l.
Proof.
  induction l as [|[m k'] l IH]; simpl.
  - intros [<-|[]]. auto.
  - destruct (n <=? m)%N; simpl.
    + intros [<-|H]; auto.
    + intros [<-|H]; auto. destruct (IH H); auto.
Qed.

Lemma indexKeys_In (keys : list string) (k : string) :
  In k (map snd (indexKeys keys)) -> In k keys.
Proof.
  induction keys as [|k0 keys IH]; simpl; [auto|].
  destruct (arrayIndex k0) as [n|]; [|auto].
  intros H. apply in_map_iff in H. destruct H as ([m k'] & <- & H).
  apply insertIndexKey_In in H. destruct H as [[= -> ->]|H]; [auto|].
  right. apply IH. apply in_map_iff. exists (m, k'). auto.
Qed.

Lemma Object_keys_In {V} (o : obj V) (k : string) :
  In k (Object_keys o) -> exists v, obj_get o k = Some v.
Proof.
  intros H. apply obj_get_In_keys. unfold Object_keys in H.
  apply in_app_or in H. destruct H as [H|H].
  - apply indexKeys_In. exact H.
  - apply filter_In in H. apply H.
Qed.

(** ** One trip, and all of them *)

Section ResultFacts.

Variable d : Q -> Q -> Q -> Q -> Q -> bool.

Lemma reduceLargest_In (cs : list (list Point)) (largest : list Point) :
  reduceLargest cs = Some largest -> In largest cs.
Proof.
  destruct cs as [|first rest]; [discriminate|].
  destruct (fold_largerOf rest [] first []) as (b & a & Heq & _).
  - intros c [].
  - intros c [].
  - intros [= <-]. simpl in Heq. rewrite Heq. apply in_or_app. right. left.
    reflexivity.
Qed.

(** The callback either leaves the result object alone, or stores the
    record of the first largest cluster of the trip and reads the clock
    once.  It never throws on a key of [bookingsByTrip]. *)
Lemma processTrip_cases (bookingsByTrip : obj (list Booking))
    (totals : obj (list string)) (k : string) (recent : list Booking)
    (results : obj Cluster) (w : World) :
  obj_get bookingsByTrip k = Some recent ->
  processTrip d bookingsByTrip totals k results w = Some (results, w) \/
  exists cs largest center,
    MINIMUM_CLUSTER_SIZE <= length recent /\
    dbscan d (map toPoint recent) = Some cs /\
    reduceLargest cs = Some largest /\
    calculateWeightedCenter largest = Some center /\
    processTrip d bookingsByTrip totals k results w =
      Some (obj_set results k
              (clusterRecord totals k largest center (tick w (reads w))),
            mkWorld (tick w) (S (reads w))).
Proof.
  intros Hget. unfold processTrip. rewrite Hget.
  destruct (length recent <? MINIMUM_CLUSTER_SIZE) eqn:Hlen; [left; reflexivity|].
  apply Nat.ltb_ge in Hlen.
  destruct (dbscan_total d (map toPoint recent)) as (cs & Hcs & _).
  rewrite Hcs.
  destruct cs as [|first rest]; [left; reflexivity|].
  cbn [length Nat.ltb Nat.leb reduceLargest].
  destruct (calculateWeightedCenter (fold_left largerOf rest first))
    as [center|] eqn:Hc; [|left; reflexivity].
  right. exists (first :: rest), (fold_left largerOf rest first), center.
  repeat split; auto.
Qed.

End ResultFacts.

Section Examples.
Variable d : Q -> Q -> Q -> Q -> Q -> bool.
Hypothesis Hsame : forall a b, d a b a b CLUSTER_RADIUS_METERS = true.

Lemma dbscan_coincident_pair (la ln : Q) (r1 r2 : string) (t1 t2 : jsdate)
    (a1 a2 : jsnum) :
  let p := mkPoint (JNum (Num la)) (JNum (Num ln)) r1 t1 a1 in
  let q := mkPoint (JNum (Num la)) (JNum (Num ln)) r2 t2 a2 in
  dbscan d [p; q] = Some [[p; q]].
Proof.
  intros p q. unfold dbscan. cbn [scanFrom]. unfold scanPoint at 1.
  cbn [Set_has existsb Set_add app].
  assert (N0 : getNeighbors d p 0 [p; q] CLUSTER_RADIUS_METERS = [1]).
  { unfold getNeighbors. cbn. rewrite Hsame. reflexivity. }
  assert (N1 : getNeighbors d q 1 [p; q] CLUSTER_RADIUS_METERS = [0]).
  { unfold getNeighbors. cbn. rewrite Hsame. reflexivity. }
  rewrite N0. cbn [isCore MINIMUM_CLUSTER_SIZE length Nat.add Nat.leb].
  rewrite expand_visit with (p := q) by reflexivity.
  rewrite N1. cbn [isCore MINIMUM_CLUSTER_SIZE length Nat.add Nat.leb filter
    Set_has existsb Nat.eqb app negb orb].
  rewrite expand_nil. cbn. reflexivity.
Qed.

(** Evaluation of [calculateClusters] on two fresh pings of one trip at the
    same place: everything but the distance test computes. *)
Ltac evaluate_pair :=
  unfold calculateClusters, bind, result;
  cbn [Date_now clockAt tick reads];
  match goal with
  | |- context [groupByTrip ?l] =>
      let bt := eval vm_compute in (groupByTrip l) in
      replace (groupByTrip l) with bt by (vm_compute; reflexivity)
  end;
  match goal with
  | |- context [countRiders ?l] =>
      let t := eval vm_compute in (countRiders l) in
      replace (countRiders l) with t by (vm_compute; reflexivity)
  end;
  cbv iota;
  match goal with
  | |- context [Object_keys ?o] =>
      let ks := eval vm_compute in (Object_keys o) in
      replace (Object_keys o) with ks by (vm_compute; reflexivity)
  end;
  cbn [forEachIO bind ret]; unfold processTrip;
  cbn [obj_get String.eqb Ascii.eqb Bool.eqb length Nat.ltb Nat.leb
       MINIMUM_CLUSTER_SIZE map toPoint lat lng riderId timestamp accuracy];
  match goal with
  | |- context [dbscan d ?pts] =>
      let pts' := eval vm_compute in pts in
      replace pts with pts' by (vm_compute; reflexivity)
  end;
  rewrite dbscan_coincident_pair;
  vm_compute; reflexivity.

Lemma clusters_two_riders (trips : list Trip) :
  result (calculateClusters d
            [ping "T1" "R1" (TsInstant sampleNow) lagos_lat lagos_lng;
             ping "T1" "R2" (TsInstant sampleNow) lagos_lat lagos_lng]
            trips (clockAt sampleNow)) =
  Some [("T1",
         {| c_tripCode := "T1";
            center := mkCenter (1304880000000 # 200000000000) (675840000000 # 200000000000);
            strength := 1;
            riderCount := 2;
            totalRiders := 2;
            c_timestamp := sampleNow;
            riders := ["R1"; "R2"] |})].
Proof. evaluate_pair. Qed.

Lemma clusters_one_rider_twice (trips : list Trip) :
  result (calculateClusters d
            [ping "T1" "R1" (TsInstant sampleNow) lagos_lat lagos_lng;
             ping "T1" "R1" (TsInstant sampleNow) lagos_lat lagos_lng]
            trips (clockAt sampleNow)) =
  Some [("T1",
         {| c_tripCode := "T1";
            center := mkCenter (1304880000000 # 200000000000) (675840000000 # 200000000000);
            strength := 1;
            riderCount := 2;
            totalRiders := 1;
            c_timestamp := sampleNow;
            riders := ["R1"; "R1"] |})].
Proof. evaluate_pair. Qed.

Lemma clusters_two_riders_and_malformed (trips : list Trip) :
  result (calculateClusters d
            [ping "T1" "R1" (TsInstant sampleNow) lagos_lat lagos_lng;
             ping "T1" "R2" (TsInstant sampleNow) lagos_lat lagos_lng;
             mkBooking "T1" "R3" TsUndefined JOther JOther JOther]
            trips (clockAt sampleNow)) =
  Some [("T1",
         {| c_tripCode := "T1";
            center := mkCenter (1304880000000 # 200000000000)
                               (675840000000 # 200000000000);
            strength := 2 # 3;
            riderCount := 2;
            totalRiders := 3;
            c_timestamp := sampleNow;
            riders := ["R1"; "R2"] |})].
Proof. evaluate_pair. Qed.

End Examples.

Section RunFacts.

Variable d : Q -> Q -> Q -> Q -> Q -> bool.

Lemma forEachIO_processTrip (bookingsByTrip : obj (list Booking))
    (totals : obj (list string)) (keys : list string) :
  forall (results : obj Cluster) (w : World),
    (forall k, In k keys -> exists recent, obj_get bookingsByTrip k = Some recent) ->
    exists results' w',
      forEachIO keys (processTrip d bookingsByTrip totals) results w
        = Some (results', w') /\
      forall k c,
        obj_get results' k = Some c ->
        obj_get results k = Some c \/
        exists recent cs largest center t,
          obj_get bookingsByTrip k = Some recent /\
          MINIMUM_CLUSTER_SIZE <= length recent /\
          dbscan d (map toPoint recent) = Some cs /\
          reduceLargest cs = Some largest /\
          calculateWeightedCenter largest = Some center /\
          c = clusterRecord totals k largest center t.
Proof.
  induction keys as [|k0 keys IH]; intros results w Hkeys.
  - exists results, w. split; [reflexivity|]. auto.
  - destruct (Hkeys k0 (or_introl eq_refl)) as (recent & Hget).
    cbn [forEachIO]. unfold bind at 1.
    destruct (processTrip_cases d bookingsByTrip totals k0 recent results w Hget)
      as [E|(cs & largest & center & Hlen & Hcs & Hl & Hc & E)]; rewrite E.
    + apply IH. intros k Hk. apply Hkeys. right. exact Hk.
    + destruct (IH (obj_set results k0
                      (clusterRecord totals k0 largest center (tick w (reads w))))
                   (mkWorld (tick w) (S (reads w))))
        as (results' & w' & E' & Hres).
      { intros k Hk. apply Hkeys. right. exact Hk. }
      exists results', w'. split; [exact E'|].
      intros k c Hkc. destruct (Hres k c Hkc) as [Hold|Hnew]; [|auto].
      destruct (string_dec k0 k) as [->|Hne].
      * rewrite obj_get_set_same in Hold. injection Hold as <-.
        right. exists recent, cs, largest, center, (tick w (reads w)).
        repeat split; assumption.
      * rewrite obj_get_set_other in Hold by exact Hne. left. exact Hold.
Qed.

Lemma result_Some {A} (r : option (A * World)) (a : A) :
  result r = Some a -> exists w', r = Some (a, w').
Proof.
  destruct r as [[a' w']|]; [|discriminate].
  intros [= <-]. exists w'. reflexivity.
Qed.

(** Every record of the result of [calculateClusters] is the one emitted
    for its key. *)
Lemma calculateClusters_emitted (bookings : list Booking) (trips : list Trip)
    (w : World) (out : obj Cluster) (k : string) (c : Cluster) :
  result (calculateClusters d bookings trips w) = Some out ->
  obj_get out k = Some c ->
  emittedFor d (tick w (reads w)) bookings k c.
Proof.
  intros Hrun Hkc. apply result_Some in Hrun. destruct Hrun as (w' & Hrun).
  unfold calculateClusters, bind in Hrun. cbn [Date_now] in Hrun.
  set (now := tick w (reads w)) in *.
  set (recentBookings := filter _ bookings) in *.
  unfold groupByTrip, countRiders in Hrun.
  destruct (existsb _ recentBookings); [discriminate Hrun|].
  destruct (existsb _ bookings); [discriminate Hrun|].
  destruct (forEachIO_processTrip
              (fold_left addToTrip recentBookings [])
              (fold_left addRider bookings [])
              (Object_keys (fold_left addToTrip recentBookings []))
              [] (mkWorld (tick w) (S (reads w))))
    as (out' & w'' & E & Hout).
  { intros k' Hk'. apply Object_keys_In. exact Hk'. }
  rewrite E in Hrun. injection Hrun as <- <-.
  destruct (Hout k c Hkc) as [Hold|Hnew]; [discriminate|].
  destruct Hnew as (recent & cs & largest & center & t & Hget & Hlen & Hcs & Hl & Hc & ->).
  rewrite bookingsByTrip_get in Hget. cbn [obj_get app] in Hget.
  assert (Hrecent : recent = recentOf now bookings k).
  { change (recentOf now bookings k)
      with (filter (fun b => String.eqb (tripCode b) k) recentBookings).
    destruct (filter _ recentBookings); [discriminate|].
    injection Hget as <-. reflexivity. }
  subst recent. exists cs, largest, center, t. repeat split; assumption.
Qed.

Lemma existsb_none {A} (f g : A -> bool) (l : list A) :
  (forall x, In x l -> f x = false) -> existsb f l = false.
Proof.
  intros H. induction l as [|x l IH]; [reflexivity|].
  cbn [existsb]. rewrite (H x (or_introl eq_refl)). apply IH.
  intros y Hy. apply H. right. exact Hy.
Qed.

(** [calculateClusters] returns, without an exception, when no trip code
    among the bookings names a property of [Object.prototype]. *)
Lemma calculateClusters_returns (bookings : list Booking) (trips : list Trip)
    (w : World) :
  (forall b, In b bookings -> inheritedKey (tripCode b) = false) ->
  exists out, result (calculateClusters d bookings trips w) = Some out.
Proof.
  intros Hclean. unfold calculateClusters, bind. cbn [Date_now].
  set (recentBookings := filter _ bookings).
  unfold groupByTrip, countRiders.
  rewrite (existsb_none _ (fun _ => true) recentBookings).
  2:{ intros b Hb. apply filter_In in Hb. apply Hclean. apply Hb. }
  rewrite (existsb_none _ (fun _ => true) bookings).
  2:{ intros b Hb. rewrite (Hclean b Hb). apply andb_false_r. }
  destruct (forEachIO_processTrip
              (fold_left addToTrip recentBookings [])
              (fold_left addRider bookings [])
              (Object_keys (fold_left addToTrip recentBookings []))
              [] (mkWorld (tick w) (S (reads w))))
    as (out & w' & E & _).
  { intros k' Hk'. apply Object_keys_In. exact Hk'. }
  exists out. rewrite E. reflexivity.
Qed.

End RunFacts.

(** ** The same clusters by two distance tests *)

Lemma forEachIO_ext {A S} (f g : A -> S -> IO S) (l : list A) :
  (forall x s w, f x s w = g x s w) ->
  forall s w, forEachIO l f s w = forEachIO l g s w.
Proof.
  intros H. induction l as [|x l IH]; intros s w; [reflexivity|].
  cbn [forEachIO]. unfold bind. rewrite H.
  destruct (g x s w) as [[s' w']|]; [apply IH|reflexivity].
Qed.

(** Two distance tests that agree on the points of the bookings give the
    same run of [calculateClusters]. *)
Lemma calculateClusters_same (d d' : Q -> Q -> Q -> Q -> Q -> bool)
    (bookings : list Booking) (trips : list Trip) (w : World) :
  sameTest d d' (map toPoint bookings) ->
  calculateClusters d bookings trips w = calculateClusters d' bookings trips w.
Proof.
  intros H. unfold calculateClusters, bind. cbn [Date_now].
  set (recent := filter _ bookings).
  destruct (groupByTrip recent) as [bookingsByTrip|] eqn:Eg; [|reflexivity].
  destruct (countRiders bookings) as [totals|]; [|reflexivity].
  apply forEachIO_ext. intros k r w'. unfold processTrip.
  destruct (obj_get bookingsByTrip k) as [recentK|] eqn:Ek; [|reflexivity].
  destruct (length recentK <? MINIMUM_CLUSTER_SIZE); [reflexivity|].
  rewrite (dbscan_same d d'); [reflexivity|].
  apply sameTest_incl with (map toPoint bookings); [|exact H].
  unfold groupByTrip in Eg. destruct (existsb _ _); [discriminate Eg|].
  injection Eg as <-. rewrite bookingsByTrip_get in Ek. cbn [obj_get] in Ek.
  intros p Hp. apply in_map_iff in Hp. destruct Hp as (b & <- & Hb).
  apply in_map.
  assert (Hin : In b (filter (fun b => String.eqb (tripCode b) k) recent)).
  { destruct (filter _ recent); [discriminate Ek|].
    injection Ek as <-. exact Hb. }
  apply filter_In in Hin. destruct Hin as (Hin & _).
  apply filter_In in Hin. apply Hin.
Qed.

Lemma clusters_twoPlaces (trips : list Trip) (w : World) :
  calculateClusters Haversine.within twoPlaces trips w =
  calculateClusters samePlace twoPlaces trips w.
Proof. apply calculateClusters_same. exact within_twoPlaces. Qed.

(** The run on the two places, by the test [samePlace]. *)
Lemma twoPlaces_run :
  let w := clockOf [sampleNow; (sampleNow + 1)%Z; (sampleNow + 2)%Z] in
  exists out,
    calculateClusters samePlace twoPlaces [] w = Some (out, afterReads 3 w) /\
    map fst out = ["T1"; "T2"] /\
    map (fun e => c_timestamp (snd e)) out
      = [(sampleNow + 1)%Z; (sampleNow + 2)%Z].
Proof.
  eexists. split; [vm_compute; reflexivity|]. split; reflexivity.
Qed.


(** ** The clock *)

(** The keys that the loop over the trips visits are distinct, so every
    record it stores is a new entry of the result. *)
Lemma obj_set_keys {V} (o : obj V) (k : string) (v : V) :
  map fst (obj_set o k v) =
  if isNull (obj_get o k) then map fst o ++ [k] else map fst o.
Proof.
  induction o as [|[k' v'] o IH]; [reflexivity|].
  cbn [obj_set obj_get]. destruct (String.eqb k k') eqn:E; cbn [map fst isNull].
  - reflexivity.
  - rewrite IH. destruct (isNull (obj_get o k)); reflexivity.
Qed.

Lemma obj_get_None_keys {V} (o : obj V) (k : string) :
  obj_get o k = None -> ~ In k (map fst o).
Proof.
  intros H Hin. apply obj_get_In_keys in Hin. destruct Hin as (v & Hv).
  congruence.
Qed.

Lemma obj_set_NoDup {V} (o : obj V) (k : string) (v : V) :
  NoDup (map fst o) -> NoDup (map fst (obj_set o k v)).
Proof.
  intros H. rewrite obj_set_keys. destruct (obj_get o k) eqn:E; cbn [isNull];
    [exact H|].
  apply NoDup_app; [exact H|repeat constructor; intros []|].
  intros x Hx [Ex|[]]. subst x. apply (obj_get_None_keys o k E Hx).
Qed.

Lemma bookingsByTrip_NoDup (l : list Booking) :
  forall o : obj (list Booking),
    NoDup (map fst o) -> NoDup (map fst (fold_left addToTrip l o)).
Proof.
  induction l as [|b l IH]; intros o H; [exact H|].
  cbn [fold_left]. apply IH. unfold addToTrip.
  destruct (obj_get o (tripCode b)); apply obj_set_NoDup; exact H.
Qed.

Lemma insertIndexKey_perm (n : N) (k : string) (l : list (N * string)) :
  Permutation (insertIndexKey n k l) ((n, k) :: l).
Proof.
  induction l as [|[m k'] l IH]; cbn [insertIndexKey]; [reflexivity|].
  destruct (n <=? m)%N; [reflexivity|].
  rewrite IH. apply perm_swap.
Qed.

Lemma indexKeys_NoDup (keys : list string) :
  NoDup keys -> NoDup (map snd (indexKeys keys)).
Proof.
  induction keys as [|k keys IH]; intros H; [constructor|].
  inversion H as [|? ? Hk Hkeys]; subst. cbn [indexKeys].
  destruct (arrayIndex k) as [n|]; [|apply IH; exact Hkeys].
  apply (Permutation_NoDup
           (l := k :: map snd (indexKeys keys))).
  - symmetry. change (k :: map snd (indexKeys keys))
      with (map snd ((n, k) :: indexKeys keys)).
    apply Permutation_map. apply insertIndexKey_perm.
  - constructor; [|apply IH; exact Hkeys].
    intros Hin. apply Hk. apply indexKeys_In. exact Hin.
Qed.

Lemma indexKeys_index (keys : list string) (k : string) :
  In k (map snd (indexKeys keys)) -> arrayIndex k <> None.
Proof.
  induction keys as [|k0 keys IH]; cbn [indexKeys]; [intros []|].
  destruct (arrayIndex k0) as [n|] eqn:E; [|exact IH].
  intros H. apply in_map_iff in H. destruct H as ([m k'] & <- & H).
  apply insertIndexKey_In in H. destruct H as [[= -> ->]|H].
  - cbn [snd]. congruence.
  - apply IH. apply in_map_iff. exists (m, k'). auto.
Qed.

(** [Object.keys] lists every own key once. *)
Lemma Object_keys_NoDup {V} (o : obj V) :
  NoDup (map fst o) -> NoDup (Object_keys o).
Proof.
  intros H. unfold Object_keys. apply NoDup_app.
  - apply indexKeys_NoDup. exact H.
  - apply NoDup_filter. exact H.
  - intros k Hk Hk'. apply indexKeys_index in Hk.
    apply filter_In in Hk'. destruct Hk' as (_ & Hnull).
    destruct (arrayIndex k); [discriminate Hnull|congruence].
Qed.

Lemma obj_set_new {V} (o : obj V) (k : string) (v : V) :
  obj_get o k = None -> obj_set o k v = o ++ [(k, v)].
Proof.
  induction o as [|[k' v'] o IH]; [reflexivity|].
  cbn [obj_get obj_set app]. destruct (String.eqb k k'); [discriminate|].
  intros H. rewrite IH by exact H. reflexivity.
Qed.

(** The answers of the clock, one read after the other. *)
Lemma readings_S (w : World) (n : nat) :
  readings w (S n) =
  tick w (reads w) :: readings (mkWorld (tick w) (S (reads w))) n.
Proof.
  unfold readings. cbn [seq map tick reads]. rewrite Nat.add_0_r.
  f_equal. rewrite <- seq_shift, map_map. apply map_ext.
  intros i. f_equal. lia.
Qed.

Lemma afterReads_S (w : World) (n : nat) :
  afterReads n (mkWorld (tick w) (S (reads w))) = afterReads (S n) w.
Proof. unfold afterReads. cbn [tick reads]. f_equal. lia. Qed.

Lemma afterReads_0 (w : World) : afterReads 0 w = w.
Proof. unfold afterReads. destruct w. cbn. rewrite Nat.add_0_r. reflexivity. Qed.

Section ReadFacts.

Variable d : Q -> Q -> Q -> Q -> Q -> bool.

(** What the callback does is settled by the trip: it throws, or leaves the
    result alone without reading the clock, or reads the clock once and
    stores a record stamped with the answer. *)
Lemma processTrip_shape (bookingsByTrip : obj (list Booking))
    (totals : obj (list string)) (k : string) :
  (forall r w, processTrip d bookingsByTrip totals k r w = None) \/
  (forall r w, processTrip d bookingsByTrip totals k r w = Some (r, w)) \/
  (exists largest center',
     forall r w,
       processTrip d bookingsByTrip totals k r w =
       Some (obj_set r k (clusterRecord totals k largest center'
                            (tick w (reads w))),
             mkWorld (tick w) (S (reads w)))).
Proof.
  unfold processTrip.
  destruct (obj_get bookingsByTrip k) as [recent|]; [|left; reflexivity].
  destruct (length recent <? MINIMUM_CLUSTER_SIZE);
    [right; left; reflexivity|].
  destruct (dbscan d (map toPoint recent)) as [cs|]; [|left; reflexivity].
  destruct (0 <? length cs); [|right; left; reflexivity].
  destruct (reduceLargest cs) as [largest|]; [|left; reflexivity].
  destruct (calculateWeightedCenter largest) as [center'|];
    [|right; left; reflexivity].
  right. right. exists largest, center'. reflexivity.
Qed.

Lemma forEachIO_throws (bookingsByTrip : obj (list Booking))
    (totals : obj (list string)) (keys : list string) :
  forall (results : obj Cluster) (w : World),
    forEachIO keys (processTrip d bookingsByTrip totals) results w = None ->
    forall results2 w2,
      forEachIO keys (processTrip d bookingsByTrip totals) results2 w2 = None.
Proof.
  induction keys as [|k keys IH]; intros results w H results2 w2;
    [discriminate H|].
  cbn [forEachIO] in *. unfold bind in *.
  destruct (processTrip_shape bookingsByTrip totals k) as [Ht|[Hs|Hr]].
  - rewrite Ht. reflexivity.
  - rewrite Hs in *. apply (IH _ _ H).
  - destruct Hr as (largest & center' & Hr). rewrite Hr in *.
    apply (IH _ _ H).
Qed.

(** The loop over the trips reads the clock once for every record it
    stores, stamps the records with the answers in their order, and does
    the same in any world whose clock gives these answers. *)
Lemma forEachIO_reads (bookingsByTrip : obj (list Booking))
    (totals : obj (list string)) (keys : list string) :
  forall (results results' : obj Cluster) (w w' : World),
    NoDup keys ->
    (forall k, In k keys -> obj_get results k = None) ->
    forEachIO keys (processTrip d bookingsByTrip totals) results w
      = Some (results', w') ->
    exists added,
      results' = results ++ added /\
      w' = afterReads (length added) w /\
      map (fun e => c_timestamp (snd e)) added
        = readings w (length added) /\
      forall w2,
        readings w2 (length added) = readings w (length added) ->
        forEachIO keys (processTrip d bookingsByTrip totals) results w2
          = Some (results', afterReads (length added) w2).
Proof.
  induction keys as [|k keys IH]; intros results results' w w' Hnd Hnew Hrun.
  - cbn [forEachIO ret] in *. injection Hrun as <- <-.
    exists []. rewrite app_nil_r, afterReads_0.
    repeat split; try reflexivity.
    intros w2 _. rewrite afterReads_0. reflexivity.
  - inversion Hnd as [|? ? Hk Hkeys]; subst.
    cbn [forEachIO] in *. unfold bind in *.
    destruct (processTrip_shape bookingsByTrip totals k) as [Ht|[Hs|Hr]].
    + rewrite Ht in Hrun. discriminate Hrun.
    + rewrite Hs in Hrun.
      destruct (IH results results' w w' Hkeys
                  (fun k' Hk' => Hnew k' (or_intror Hk')) Hrun)
        as (added & E1 & E2 & E3 & E4).
      exists added. repeat split; try assumption.
      intros w2 Hw2. rewrite Hs. apply E4. exact Hw2.
    + destruct Hr as (largest & center' & Hr). rewrite Hr in Hrun.
      rewrite obj_set_new in Hrun by (apply Hnew; left; reflexivity).
      set (record := fun t => clusterRecord totals k largest center' t) in *.
      assert (Hnew' : forall t k', In k' keys ->
                obj_get (results ++ [(k, record t)]) k' = None).
      { intros t k' Hk'.
        rewrite <- (obj_set_new results k (record t))
          by (apply Hnew; left; reflexivity).
        rewrite obj_get_set_other by (intros ->; contradiction).
        apply Hnew. right. exact Hk'. }
      destruct (IH _ results' _ w' Hkeys (Hnew' _) Hrun)
        as (added & E1 & E2 & E3 & E4).
      exists ((k, record (tick w (reads w))) :: added).
      cbn [length map snd]. rewrite readings_S, <- afterReads_S.
      split; [rewrite E1, <- app_assoc; reflexivity|].
      split; [exact E2|].
      split; [unfold record at 1; cbn [clusterRecord c_timestamp]; f_equal;
              exact E3|].
      intros w2 Hw2. rewrite Hr.
      rewrite obj_set_new by (apply Hnew; left; reflexivity).
      rewrite !readings_S in Hw2. injection Hw2 as Hnow Hrest.
      rewrite Hnow. rewrite <- afterReads_S.
      apply E4. exact Hrest.
Qed.

(** [calculateClusters] reads the clock once for the cutoff and once for
    every record of its result. *)
Lemma calculateClusters_reads (bookings : list Booking) (trips : list Trip)
    (w : World) :
  match calculateClusters d bookings trips w with
  | Some (out, w') =>
      w' = afterReads (1 + length out) w /\
      map (fun e => c_timestamp (snd e)) out
        = readings (afterReads 1 w) (length out) /\
      forall w2,
        readings w2 (1 + length out) = readings w (1 + length out) ->
        calculateClusters d bookings trips w2
          = Some (out, afterReads (1 + length out) w2)
  | None =>
      forall w2,
        readings w2 1 = readings w 1 ->
        calculateClusters d bookings trips w2 = None
  end.
Proof.
  assert (Hfirst : forall w2 n,
            readings w2 (S n) = readings w (S n) ->
            tick w2 (reads w2) = tick w (reads w) /\
            readings (mkWorld (tick w2) (S (reads w2))) n
              = readings (mkWorld (tick w) (S (reads w))) n).
  { intros w2 n H. rewrite !readings_S in H. injection H as H1 H2. auto. }
  unfold calculateClusters, bind. cbn [Date_now].
  destruct (groupByTrip _) as [bookingsByTrip|] eqn:Eg.
  2:{ intros w2 Hw2. apply Hfirst in Hw2. destruct Hw2 as (-> & _).
      rewrite Eg. reflexivity. }
  destruct (countRiders bookings) as [totals|] eqn:Ec.
  2:{ intros w2 Hw2. apply Hfirst in Hw2. destruct Hw2 as (-> & _).
      rewrite Eg. reflexivity. }
  assert (Hnd : NoDup (Object_keys bookingsByTrip)).
  { apply Object_keys_NoDup. unfold groupByTrip in Eg.
    destruct (existsb _ _); [discriminate Eg|]. injection Eg as <-.
    apply bookingsByTrip_NoDup. constructor. }
  match goal with
  | |- match ?run with _ => _ end =>
      destruct run as [[out w']|] eqn:Erun
  end.
  - destruct (forEachIO_reads _ _ _ [] out _ w' Hnd (fun _ _ => eq_refl) Erun)
      as (added & E1 & E2 & E3 & E4).
    cbn [app] in E1. subst added.
    replace (afterReads 1 w) with (mkWorld (tick w) (S (reads w)))
      by (unfold afterReads; rewrite Nat.add_1_r; reflexivity).
    split; [rewrite E2; apply afterReads_S|]. split; [exact E3|].
    intros w2 Hw2. apply Hfirst in Hw2. destruct Hw2 as (-> & Hrest).
    rewrite Eg. cbn [Nat.add]. rewrite <- afterReads_S. apply E4. exact Hrest.
  - intros w2 Hw2. apply Hfirst in Hw2. destruct Hw2 as (-> & _).
    rewrite Eg. apply (forEachIO_throws _ _ _ _ _ Erun).
Qed.

End ReadFacts.

(** C8, as amended.  Neither function takes the time as an argument: each
    reads the system clock.  [calculateTripHealth] reads it once;
    [calculateClusters] reads it once for the cutoff and once more for
    every record of its result, which is stamped with the answer.  The
    outcome is determined by the bookings, the trips and the answers to
    these reads: in any world whose clock gives the same answers, the same
    result is returned (or the same exception thrown) after the same number
    of reads. *)
Theorem output_determined_by_clock_readings
    (d : Q -> Q -> Q -> Q -> Q -> bool) (bookings : list Booking)
    (trips : list Trip) (w : World) :
  (exists health,
     calculateTripHealth bookings trips w = Some (health, afterReads 1 w) /\
     forall w2,
       readings w2 1 = readings w 1 ->
       calculateTripHealth bookings trips w2
         = Some (health, afterReads 1 w2)) /\
  match calculateClusters d bookings trips w with
  | Some (out, w') =>
      w' = afterReads (1 + length out) w /\
      map (fun e => c_timestamp (snd e)) out
        = readings (afterReads 1 w) (length out) /\
      forall w2,
        readings w2 (1 + length out) = readings w (1 + length out) ->
        calculateClusters d bookings trips w2
          = Some (out, afterReads (1 + length out) w2)
  | None =>
      forall w2,
        readings w2 1 = readings w 1 ->
        calculateClusters d bookings trips w2 = None
  end.
Proof.
  split; [|apply calculateClusters_reads].
  assert (Hone : forall w0, afterReads 1 w0 = mkWorld (tick w0) (S (reads w0))).
  { intros w0. unfold afterReads. rewrite Nat.add_1_r. reflexivity. }
  eexists. rewrite calculateTripHealth_run, Hone. split; [reflexivity|].
  intros w2 Hw2. rewrite calculateTripHealth_run, Hone.
  rewrite !readings_S in Hw2. injection Hw2 as ->. reflexivity.
Qed.

(** On the two places, with a clock that answers [sampleNow] and the two
    milliseconds after it: three reads, the two records stamped with the
    second and the third answer; and the same outcome by a clock that has
    been read twice before, gives the same three answers and differs at
    the fourth. *)
Lemma output_determined_by_clock_readings_witness :
  let w := clockOf [sampleNow; (sampleNow + 1)%Z; (sampleNow + 2)%Z] in
  let w2 :=
    mkWorld (fun n => nth n [0; 0; sampleNow; sampleNow + 1; sampleNow + 2; 7]%Z
                          0%Z) 2 in
  exists out,
    calculateClusters Haversine.within twoPlaces [] w
      = Some (out, afterReads 3 w) /\
    map fst out = ["T1"; "T2"] /\
    map (fun e => c_timestamp (snd e)) out
      = [(sampleNow + 1)%Z; (sampleNow + 2)%Z] /\
    calculateClusters Haversine.within twoPlaces [] w2
      = Some (out, afterReads 3 w2) /\
    readings w2 4 <> readings w 4.
Proof.
  intros w w2.
  destruct twoPlaces_run as (out & Hrun & Hkeys & Hstamps). fold w in Hrun.
  rewrite <- clusters_twoPlaces in Hrun.
  assert (Hlen : length out = 2) by (rewrite <- (length_map fst), Hkeys; reflexivity).
  pose proof (output_determined_by_clock_readings Haversine.within twoPlaces
                [] w) as (_ & H).
  rewrite Hrun in H. destruct H as (_ & _ & Hsame).
  rewrite Hlen in Hsame.
  exists out. split; [exact Hrun|]. split; [exact Hkeys|].
  split; [exact Hstamps|]. split; [|discriminate].
  apply (Hsame w2). reflexivity.
Defined.

(** C8, the counterexample.  One ping, one trip, and two runs an hour
    apart: the arguments are identical and the results differ (ACTIVE at the
    time of the ping, INACTIVE an hour later). *)
Lemma same_arguments_different_health :
  ~ (forall bookings trips w1 w2,
       result (calculateTripHealth bookings trips w1) =
       result (calculateTripHealth bookings trips w2)).
Proof.
  intros H.
  specialize (H [ping "T1" "R1" (TsInstant sampleNow) lagos_lat lagos_lng]
                [mkTrip "T1"] (clockAt sampleNow)
                (clockAt (sampleNow + 3600000))).
  vm_compute in H. discriminate H.
Qed.

(** ** Empty input *)



(** ** The trip registry *)

(** C10. [calculateClusters] returns the same result whatever the trip
    list; so a cluster is emitted for a trip code that no trip list
    registers: two fresh pings at one place under the code T1 give a cluster
    for T1 with every trip list, the empty one included. *)
Theorem clusters_ignore_trip_registry :
  (forall d bookings trips1 trips2 w,
     calculateClusters d bookings trips1 w =
     calculateClusters d bookings trips2 w) /\
  (exists c,
     forall trips,
       result (calculateClusters Haversine.within
                 [ping "T1" "R1" (TsInstant sampleNow) lagos_lat lagos_lng;
                  ping "T1" "R2" (TsInstant sampleNow) lagos_lat lagos_lng]
                 trips (clockAt sampleNow)) = Some [("T1", c)]).
Proof.
  split.
  - reflexivity.
  - eexists. intros trips.
    apply (clusters_two_riders Haversine.within within_same trips).
Qed.

(** ** Rider counts and strength *)

Lemma addRider_get (b : Booking) (o : obj (list string)) (k : string) :
  obj_get (addRider o b) k =
  if truthy (tripCode b) && truthy (riderId b) && String.eqb (tripCode b) k
  then Some (Set_add String.eqb
               (match obj_get o k with Some s => s | None => [] end)
               (riderId b))
  else obj_get o k.
Proof.
  unfold addRider.
  destruct (truthy (tripCode b) && truthy (riderId b)); [|reflexivity].
  cbn [andb]. destruct (String.eqb (tripCode b) k) eqn:E.
  - apply String.eqb_eq in E. subst k.
    destruct (obj_get o (tripCode b)); apply obj_get_set_same.
  - apply String.eqb_neq in E.
    destruct (obj_get o (tripCode b)); apply obj_get_set_other; exact E.
Qed.

Lemma totalRiders_get (l : list Booking) :
  forall (o : obj (list string)) (k : string),
    obj_get (fold_left addRider l o) k =
    match ridersCounted k l with
    | [] => obj_get o k
    | rs => Some (fold_left (Set_add String.eqb) rs
                    (match obj_get o k with Some s => s | None => [] end))
    end.
Proof.
  induction l as [|b l IH]; intros o k; [reflexivity|].
  cbn [fold_left]. rewrite IH, addRider_get. unfold ridersCounted.
  cbn [filter].
  destruct (truthy (tripCode b) && truthy (riderId b)
            && String.eqb (tripCode b) k); cbn [map fold_left].
  - destruct (map riderId _); reflexivity.
  - reflexivity.
Qed.

Lemma Set_has_string_In (s : list string) (x : string) :
  Set_has String.eqb s x = true <-> In x s.
Proof.
  unfold Set_has. rewrite existsb_exists. split.
  - intros (y & Hy & E). apply String.eqb_eq in E. subst. exact Hy.
  - intros H. exists x. split; [exact H|apply String.eqb_refl].
Qed.

Lemma Set_add_string (s : list string) (x : string) :
  NoDup s ->
  NoDup (Set_add String.eqb s x) /\
  forall y, In y (Set_add String.eqb s x) <-> In y s \/ y = x.
Proof.
  intros Hnd. unfold Set_add.
  destruct (Set_has String.eqb s x) eqn:E.
  - apply Set_has_string_In in E. split; [exact Hnd|].
    intros y. split; [auto|]. intros [H| ->]; assumption.
  - assert (Hx : ~ In x s).
    { intros H. apply Set_has_string_In in H. congruence. }
    split.
    + apply NoDup_app; [exact Hnd|repeat constructor; intros []|].
      intros y Hy [<-|[]]. contradiction.
    + intros y. rewrite in_app_iff. simpl. intuition.
Qed.

Lemma Set_of_list (rs : list string) :
  forall s, NoDup s ->
    NoDup (fold_left (Set_add String.eqb) rs s) /\
    forall y, In y (fold_left (Set_add String.eqb) rs s) <-> In y s \/ In y rs.
Proof.
  induction rs as [|r rs IH]; intros s Hnd; cbn [fold_left].
  - split; [exact Hnd|]. intros y. simpl. intuition.
  - destruct (Set_add_string s r Hnd) as (Hnd' & Hin).
    destruct (IH _ Hnd') as (Hnd'' & Hin'). split; [exact Hnd''|].
    intros y. rewrite Hin', Hin. simpl. intuition.
Qed.

Lemma Set_size (rs : list string) :
  length (fold_left (Set_add String.eqb) rs []) =
  length (nodup string_dec rs).
Proof.
  destruct (Set_of_list rs [] (NoDup_nil _)) as (Hnd & Hin).
  apply Nat.le_antisymm; apply NoDup_incl_length;
    try assumption; try apply NoDup_nodup.
  - intros y Hy. apply nodup_In. apply Hin in Hy. destruct Hy as [[]|Hy].
    exact Hy.
  - intros y Hy. apply Hin. right. apply nodup_In in Hy. exact Hy.
Qed.

(** Line 328 in terms of the rider ids counted for the trip. *)
Lemma totalRidersForThisTrip_counted (bookings : list Booking) (k : string)
    (count : nat) :
  totalRidersForThisTrip (fold_left addRider bookings []) k count =
  if length (nodup string_dec (ridersCounted k bookings)) =? 0
  then count
  else length (nodup string_dec (ridersCounted k bookings)).
Proof.
  unfold totalRidersForThisTrip. rewrite totalRiders_get. cbn [obj_get].
  destruct (ridersCounted k bookings) as [|r rs] eqn:E; [reflexivity|].
  rewrite Set_size. reflexivity.
Qed.

Lemma inject_nat_pos (n : nat) : 0 < n -> (0 < inject_Z (Z.of_nat n))%Q.
Proof.
  intros H. unfold Qlt. simpl. lia.
Qed.


Lemma strength_exact (count total : nat) :
  0 < total -> count <= total ->
  (Qmin 1 (strengthOf count total) ==
   inject_Z (Z.of_nat count) / inject_Z (Z.of_nat total))%Q.
Proof.
  intros Hpos Hle. unfold strengthOf.
  apply Nat.ltb_lt in Hpos as E. rewrite E.
  apply Q.min_r.
  apply Qle_shift_div_r; [apply inject_nat_pos; exact Hpos|].
  rewrite Qmult_1_l. rewrite <- Zle_Qle. lia.
Qed.

Lemma filter_filter_length {A} (f g : A -> bool) (l : list A) :
  length (filter f (filter g l)) <= length (filter f l).
Proof.
  induction l as [|x l IH]; [reflexivity|].
  cbn [filter]. destruct (g x); cbn [filter]; destruct (f x);
    cbn [length]; lia.
Qed.

Lemma ridersCounted_all (k : string) (bookings : list Booking) :
  truthy k = true ->
  (forall b, In b bookings -> tripCode b = k -> truthy (riderId b) = true) ->
  ridersCounted k bookings =
  map riderId (filter (fun b => String.eqb (tripCode b) k) bookings).
Proof.
  intros Hk Hr. unfold ridersCounted. f_equal. apply filter_ext_in.
  intros b Hb. destruct (String.eqb (tripCode b) k) eqn:E.
  - apply String.eqb_eq in E. rewrite (Hr b Hb E), E, Hk. reflexivity.
  - apply andb_false_r.
Qed.


Section StrengthFacts.

Variable d : Q -> Q -> Q -> Q -> Q -> bool.

Lemma emitted_size (now : Z) (bookings : list Booking) (k : string)
    (c : Cluster) :
  emittedFor d now bookings k c ->
  exists largest center t,
    c = clusterRecord (fold_left addRider bookings []) k largest center t /\
    1 <= length largest <= length (recentOf now bookings k) /\
    (forall p, In p largest -> In p (map toPoint (recentOf now bookings k))).
Proof.
  intros (cs & largest & center & t & Hlen & Hcs & Hl & Hc & ->).
  exists largest, center, t. split; [reflexivity|].
  destruct (dbscan_total d (map toPoint (recentOf now bookings k)))
    as (cs' & Hcs' & HW).
  rewrite Hcs in Hcs'. injection Hcs' as <-.
  apply reduceLargest_In in Hl.
  rewrite Forall_forall in HW. destruct (HW largest Hl) as (Hsize & Hin).
  rewrite length_map in Hsize. split; assumption.
Qed.


End StrengthFacts.




(** The first hypothesis is needed: riderCount counts the points of the
    cluster, not its riders.  Two fresh pings of the rider R1 at one place,
    both under the trip T1, which the store would have merged into one,
    give a cluster with riderCount 2 and totalRiders 1. *)
Lemma one_rider_counted_twice :
  ~ (forall bookings trips w out k c,
       result (calculateClusters Haversine.within bookings trips w) = Some out ->
       obj_get out k = Some c ->
       (0 <= strength c <= 1)%Q /\
       riderCount c <= totalRiders c /\
       (strength c ==
        Qmin 1 (inject_Z (Z.of_nat (riderCount c))
                / inject_Z (Z.of_nat (length (Spec.ridersEverSeen k bookings)))))%Q).
Proof.
  intros H.
  pose proof (clusters_one_rider_twice Haversine.within within_same []) as Hrun.
  destruct (H _ _ _ _ "T1" _ Hrun eq_refl) as (_ & Hle & _).
  cbn [riderCount totalRiders] in Hle. lia.
Qed.

(** ** Malformed pings *)

Lemma mapValues_obj_set {V W} (f : V -> W) (o : obj V) (k : string) (v : V) :
  mapValues f (obj_set o k v) = obj_set (mapValues f o) k (f v).
Proof.
  induction o as [|[k' v'] o IH]; [reflexivity|].
  cbn [obj_set mapValues map]. destruct (String.eqb k k'); cbn [map].
  - reflexivity.
  - f_equal. exact IH.
Qed.

Lemma isRecent_malformed (cutoff : Z) (p : Booking) :
  malformed p -> isRecent cutoff p = false.
Proof.
  unfold malformed, isRecent. intros [H|[H|H]].
  - destruct (isUndefined _ || _ || _); [reflexivity|]. rewrite H. reflexivity.
  - rewrite H. cbn [negb]. rewrite orb_true_r. reflexivity.
  - rewrite H. cbn [negb]. rewrite orb_true_r. reflexivity.
Qed.

Lemma filter_without {A} (f : A -> bool) (before after : list A) (p : A) :
  f p = false -> filter f (before ++ p :: after) = filter f (before ++ after).
Proof.
  intros H. rewrite !filter_app. cbn [filter]. rewrite H. reflexivity.
Qed.

Section MalformedFacts.

Variable d : Q -> Q -> Q -> Q -> Q -> bool.


Lemma processTrip_membership (bookingsByTrip : obj (list Booking))
    (totals1 totals2 : obj (list string)) (k : string)
    (results1 results2 : obj Cluster) (w : World) :
  mapValues membership results1 = mapValues membership results2 ->
  sameMembership (processTrip d bookingsByTrip totals1 k results1 w)
                 (processTrip d bookingsByTrip totals2 k results2 w).
Proof.
  intros Hres. unfold processTrip.
  destruct (obj_get bookingsByTrip k) as [recent|]; [|exact I].
  destruct (length recent <? MINIMUM_CLUSTER_SIZE); [split; auto|].
  destruct (dbscan d (map toPoint recent)) as [cs|]; [|exact I].
  destruct (0 <? length cs); [|split; auto].
  destruct (reduceLargest cs) as [largest|]; [|exact I].
  destruct (calculateWeightedCenter largest) as [center|]; [|split; auto].
  unfold bind, Date_now, ret, sameMembership. split; [|reflexivity].
  rewrite !mapValues_obj_set, Hres. reflexivity.
Qed.

Lemma forEachIO_membership (bookingsByTrip : obj (list Booking))
    (totals1 totals2 : obj (list string)) (keys : list string) :
  forall (results1 results2 : obj Cluster) (w : World),
    mapValues membership results1 = mapValues membership results2 ->
    sameMembership
      (forEachIO keys (processTrip d bookingsByTrip totals1) results1 w)
      (forEachIO keys (processTrip d bookingsByTrip totals2) results2 w).
Proof.
  induction keys as [|k keys IH]; intros results1 results2 w Hres.
  - split; auto.
  - cbn [forEachIO]. unfold bind.
    pose proof (processTrip_membership bookingsByTrip totals1 totals2 k
                  results1 results2 w Hres) as Hstep.
    destruct (processTrip d bookingsByTrip totals1 k results1 w) as [[r1 w1]|],
             (processTrip d bookingsByTrip totals2 k results2 w) as [[r2 w2]|];
      try contradiction; [|exact I].
    destruct Hstep as (Hr & <-). apply IH. exact Hr.
Qed.

Lemma existsb_without {A} (f : A -> bool) (before after : list A) (p : A) :
  f p = false -> existsb f (before ++ p :: after) = existsb f (before ++ after).
Proof.
  intros H. rewrite !existsb_app. cbn [existsb]. rewrite H. reflexivity.
Qed.

Lemma clusters_without_malformed (p : Booking) (before after : list Booking)
    (trips : list Trip) (w : World) :
  malformed p ->
  inheritedKey (tripCode p) = false ->
  option_map (mapValues membership)
    (result (calculateClusters d (before ++ p :: after) trips w)) =
  option_map (mapValues membership)
    (result (calculateClusters d (before ++ after) trips w)).
Proof.
  intros Hp Hkey. unfold calculateClusters, bind. cbn [Date_now].
  rewrite (filter_without _ before after p (isRecent_malformed _ p Hp)).
  destruct (groupByTrip _) as [bt|]; [|reflexivity].
  unfold countRiders.
  rewrite (existsb_without _ before after p)
    by (rewrite Hkey; apply andb_false_r).
  destruct (existsb _ (before ++ after)); [reflexivity|].
  match goal with
  | |- option_map _ (result (forEachIO ?ks (processTrip d ?bt ?t1) [] ?a)) =
       option_map _ (result (forEachIO ?ks (processTrip d ?bt ?t2) [] ?a)) =>
      pose proof (forEachIO_membership bt t1 t2 ks [] [] a eq_refl) as H;
      destruct (forEachIO ks (processTrip d bt t1) [] a) as [[r1 w1]|],
               (forEachIO ks (processTrip d bt t2) [] a) as [[r2 w2]|];
      try contradiction; [|reflexivity]
  end.
  destruct H as (H & _). cbn [result option_map fst]. rewrite H. reflexivity.
Qed.

(** Every rider listed in a cluster is the rider of a recent ping of the
    trip. *)
Lemma riders_are_recent (bookings : list Booking) (trips : list Trip)
    (w : World) (out : obj Cluster) (k : string) (c : Cluster) (r : string) :
  result (calculateClusters d bookings trips w) = Some out ->
  obj_get out k = Some c ->
  In r (riders c) ->
  exists b,
    In b bookings /\ isRecent (cutoffAt (tick w (reads w))) b = true /\
    tripCode b = k /\ riderId b = r.
Proof.
  intros Hrun Hget Hr.
  destruct (emitted_size d _ _ _ _
              (calculateClusters_emitted d bookings trips w out k c Hrun Hget))
    as (largest & center & t & -> & _ & Hin).
  cbn [clusterRecord riders] in Hr. apply in_map_iff in Hr.
  destruct Hr as (pt & <- & Hpt). apply Hin in Hpt.
  apply in_map_iff in Hpt. destruct Hpt as (b & <- & Hb).
  unfold recentOf in Hb. apply filter_In in Hb. destruct Hb as (Hb & Hk).
  apply filter_In in Hb. destruct Hb as (Hb & Hrecent).
  exists b. apply String.eqb_eq in Hk. auto.
Qed.

End MalformedFacts.

Lemma latestOf_badTimestamp (latest : Z * option jsdate) (p : Booking) :
  badTimestamp p -> latestOf latest p = latest.
Proof.
  unfold badTimestamp, latestOf. intros H. destruct latest as [m s].
  destruct (isUndefined (timestamp p)); [reflexivity|]. rewrite H. reflexivity.
Qed.

Lemma healthEntry_without (now : Z) (p : Booking) (before after : list Booking)
    (k : string) :
  badTimestamp p ->
  tierOf (healthEntry now (before ++ p :: after) k) =
  tierOf (healthEntry now (before ++ after) k).
Proof.
  intros Hp. unfold healthEntry. rewrite !filter_app. cbn [filter].
  destruct (String.eqb (tripCode p) k); [|reflexivity].
  set (tb := filter _ before). set (ta := filter _ after).
  assert (Hfold : fold_left latestOf (tb ++ p :: ta) (0%Z, None) =
                  fold_left latestOf (tb ++ ta) (0%Z, None)).
  { rewrite !fold_left_app. cbn [fold_left].
    rewrite latestOf_badTimestamp by exact Hp. reflexivity. }
  rewrite Hfold.
  replace (length (tb ++ p :: ta) =? 0) with false
    by (rewrite length_app; cbn [length]; symmetry; apply Nat.eqb_neq; lia).
  destruct (tb ++ ta) as [|b l] eqn:E; [reflexivity|].
  reflexivity.
Qed.

Lemma health_fold_tiers (now : Z) (b1 b2 : list Booking) (trips : list Trip) :
  (forall k, tierOf (healthEntry now b1 k) = tierOf (healthEntry now b2 k)) ->
  forall o1 o2 : obj HealthStatus,
    mapValues tierOf o1 = mapValues tierOf o2 ->
    mapValues tierOf
      (fold_left (fun th t => tripHealthOf now b1 t th) trips o1) =
    mapValues tierOf
      (fold_left (fun th t => tripHealthOf now b2 t th) trips o2).
Proof.
  intros Hentry. induction trips as [|t trips IH]; intros o1 o2 Ho;
    [exact Ho|].
  cbn [fold_left]. apply IH. rewrite !tripHealthOf_entry.
  unfold obj_assign. destruct (String.eqb (code t) "__proto__"); [exact Ho|].
  rewrite !mapValues_obj_set, Ho, Hentry. reflexivity.
Qed.

Lemma health_without_badTimestamp (p : Booking) (before after : list Booking)
    (trips : list Trip) (w : World) :
  badTimestamp p ->
  option_map (mapValues tierOf)
    (result (calculateTripHealth (before ++ p :: after) trips w)) =
  option_map (mapValues tierOf)
    (result (calculateTripHealth (before ++ after) trips w)).
Proof.
  intros Hp. rewrite !calculateTripHealth_run.
  cbn [result option_map fst]. f_equal.
  apply health_fold_tiers; [|reflexivity].
  intros k. apply healthEntry_without. exact Hp.
Qed.

(** C6, as amended.  A ping that the recency filter rejects for its form
    (no timestamp, a timestamp that is not a date, a latitude or longitude
    that is not a number), and whose trip code is not the name of a property
    of [Object.prototype], is never a member of a cluster: with it and
    without it [calculateClusters] stores records for the same trips with
    the same centre, riderCount, riders and time stamp, or throws in both
    cases, and every rider listed is the rider of another, recent, ping of
    the trip.  (The ping still counts in totalRiders, hence in strength.)
    When its timestamp is the bad part, the tier and the last update of
    every trip are the same with it and without it, and
    [calculateTripHealth] does not throw. *)
Theorem malformed_ping_excluded (d : Q -> Q -> Q -> Q -> Q -> bool)
    (p : Booking) (before after : list Booking) (trips : list Trip)
    (w : World) :
  malformed p ->
  inheritedKey (tripCode p) = false ->
  option_map (mapValues membership)
    (result (calculateClusters d (before ++ p :: after) trips w)) =
  option_map (mapValues membership)
    (result (calculateClusters d (before ++ after) trips w)) /\
  (forall out k c r,
     result (calculateClusters d (before ++ p :: after) trips w) = Some out ->
     obj_get out k = Some c ->
     In r (riders c) ->
     exists b,
       In b (before ++ after) /\
       isRecent (cutoffAt (tick w (reads w))) b = true /\
       tripCode b = k /\ riderId b = r) /\
  (badTimestamp p ->
   option_map (mapValues tierOf)
     (result (calculateTripHealth (before ++ p :: after) trips w)) =
   option_map (mapValues tierOf)
     (result (calculateTripHealth (before ++ after) trips w))) /\
  (exists out,
     result (calculateTripHealth (before ++ p :: after) trips w) = Some out).
Proof.
  intros Hp Hkey. split; [apply clusters_without_malformed; assumption|].
  split.
  { intros out k c r Hrun Hget Hr.
    destruct (riders_are_recent d _ _ _ _ _ _ _ Hrun Hget Hr)
      as (b & Hb & Hrecent & Hk & Hrider).
    exists b. repeat split; try assumption.
    apply in_app_or in Hb. apply in_or_app.
    destruct Hb as [Hb|[<-|Hb]]; auto.
    rewrite (isRecent_malformed _ p Hp) in Hrecent. discriminate. }
  split; [apply health_without_badTimestamp|].
  rewrite calculateTripHealth_run. eexists. reflexivity.
Qed.

Lemma malformed_ping_excluded_witness :
  let p := mkBooking "T1" "R3" TsUndefined JOther JOther JOther in
  let before :=
    [ping "T1" "R1" (TsInstant sampleNow) lagos_lat lagos_lng;
     ping "T1" "R2" (TsInstant sampleNow) lagos_lat lagos_lng] in
  malformed p /\
  inheritedKey (tripCode p) = false /\
  option_map (mapValues membership)
    (result (calculateClusters Haversine.within (before ++ [p]) []
               (clockAt sampleNow))) =
  option_map (mapValues membership)
    (result (calculateClusters Haversine.within (before ++ []) []
               (clockAt sampleNow))).
Proof.
  intros p before.
  assert (Hp : malformed p) by (left; reflexivity).
  assert (Hkey : inheritedKey (tripCode p) = false) by reflexivity.
  split; [exact Hp|]. split; [exact Hkey|].
  apply (malformed_ping_excluded Haversine.within p before [] []
           (clockAt sampleNow) Hp Hkey).
Defined.

(** C6, the counterexample.  The trip T1 is registered and its only ping
    has a valid, current timestamp but no coordinates.  The ping is
    malformed, yet with it the health of T1 is ACTIVE and without it
    NO_SIGNAL. *)
Lemma bad_coordinates_ping_changes_health :
  ~ (forall p before after trips w,
       malformed p ->
       result (calculateClusters Haversine.within (before ++ p :: after)
                 trips w) =
       result (calculateClusters Haversine.within (before ++ after) trips w) /\
       result (calculateTripHealth (before ++ p :: after) trips w) =
       result (calculateTripHealth (before ++ after) trips w)).
Proof.
  intros H.
  destruct (H (mkBooking "T1" "R1" (TsInstant sampleNow) JOther JOther
                 (JNum (Num 10)))
              [] [] [mkTrip "T1"] (clockAt sampleNow))
    as (_ & Hhealth).
  - right. left. reflexivity.
  - vm_compute in Hhealth. discriminate Hhealth.
Qed.

(** ** The clustering procedure *)

Lemma filter_filter_implied {A} (f g : A -> bool) (l : list A) :
  (forall x, In x l -> f x = true -> g x = true) ->
  filter f (filter g l) = filter f l.
Proof.
  intros H. induction l as [|x l IH]; [reflexivity|].
  cbn [filter]. destruct (g x) eqn:Eg; cbn [filter].
  - rewrite IH by (intros y Hy; apply H; right; exact Hy). reflexivity.
  - destruct (f x) eqn:Ef.
    + rewrite (H x (or_introl eq_refl) Ef) in Eg. discriminate.
    + apply IH. intros y Hy. apply H. right. exact Hy.
Qed.

Lemma filter_none {A} (f : A -> bool) (l : list A) :
  (forall x, In x l -> f x = false) -> filter f l = [].
Proof.
  intros H. induction l as [|x l IH]; [reflexivity|].
  cbn [filter]. rewrite (H x (or_introl eq_refl)).
  apply IH. intros y Hy. apply H. right. exact Hy.
Qed.

Section ProcedureFacts.

Variable d : Q -> Q -> Q -> Q -> Q -> bool.

(** The four cases of one turn of the specification's expansion. *)
Lemma absorb_nil (points : list Point) (A : list nat) (C : list Point) :
  Spec.absorb d points [] A C = (A, C).
Proof. apply Spec.absorb_equation_1. Qed.

Lemma absorb_assigned (points : list Point) (x : nat) (q A : list nat)
    (C : list Point) :
  Set_has Nat.eqb A x = true ->
  Spec.absorb d points (x :: q) A C = Spec.absorb d points q A C.
Proof.
  intros H. rewrite Spec.absorb_equation_2. unfold inspect.
  generalize (@eq_refl _ (Set_has Nat.eqb A x)).
  generalize (Set_has Nat.eqb A x) at 2 4.
  intros b e. destruct b; [|congruence]. simp absorb. reflexivity.
Qed.

Lemma absorb_missing (points : list Point) (x : nat) (q A : list nat)
    (C : list Point) :
  Set_has Nat.eqb A x = false -> nth_error points x = None ->
  Spec.absorb d points (x :: q) A C = Spec.absorb d points q A C.
Proof.
  intros H Hp. rewrite Spec.absorb_equation_2. unfold inspect.
  generalize (@eq_refl _ (Set_has Nat.eqb A x)).
  generalize (Set_has Nat.eqb A x) at 2 4.
  intros b e. destruct b; [congruence|]. simp absorb. unfold inspect.
  generalize (@eq_refl _ (nth_error points x)).
  generalize (nth_error points x) at 2 4.
  intros o e'. destruct o as [p'|]; [congruence|]. simp absorb.
  reflexivity.
Qed.

Lemma absorb_visit (points : list Point) (x : nat) (q A : list nat)
    (C : list Point) (p : Point) :
  Set_has Nat.eqb A x = false -> nth_error points x = Some p ->
  Spec.absorb d points (x :: q) A C =
  Spec.absorb d points
    (if Spec.core d points x
     then q ++ Spec.unassigned (A ++ [x]) (Spec.neighbors d points x)
     else q)
    (A ++ [x]) (C ++ [p]).
Proof.
  intros H Hp. rewrite Spec.absorb_equation_2. unfold inspect.
  generalize (@eq_refl _ (Set_has Nat.eqb A x)).
  generalize (Set_has Nat.eqb A x) at 2 4.
  intros b e. destruct b; [congruence|]. simp absorb. unfold inspect.
  generalize (@eq_refl _ (nth_error points x)).
  generalize (nth_error points x) at 2 4.
  intros o e'. destruct o as [p'|]; [|congruence]. simp absorb.
  assert (p' = p) by congruence. subst p'. reflexivity.
Qed.

(** The loop of [getNeighbors] computes the neighbours of the
    specification. *)
Lemma neighborsFrom_filter (a b : Q) (i : nat) (rest : list Point) :
  forall k,
    neighborsFrom d a b i CLUSTER_RADIUS_METERS rest k =
    filter (fun j =>
              negb (j =? i) &&
              match nth_error rest (j - k) with
              | Some q =>
                  match coord (p_lat q), coord (p_lng q) with
                  | Some lat2, Some lng2 =>
                      d a b lat2 lng2 CLUSTER_RADIUS_METERS
                  | _, _ => false
                  end
              | None => false
              end)
           (seq k (length rest)).
Proof.
  induction rest as [|o rest IH]; intros k; [reflexivity|].
  cbn [neighborsFrom length seq filter]. rewrite Nat.sub_diag.
  cbn [nth_error]. rewrite IH.
  assert (Htail :
    filter (fun j => negb (j =? i) &&
              match nth_error rest (j - S k) with
              | Some q =>
                  match coord (p_lat q), coord (p_lng q) with
                  | Some lat2, Some lng2 => d a b lat2 lng2 CLUSTER_RADIUS_METERS
                  | _, _ => false
                  end
              | None => false
              end) (seq (S k) (length rest)) =
    filter (fun j => negb (j =? i) &&
              match nth_error (o :: rest) (j - k) with
              | Some q =>
                  match coord (p_lat q), coord (p_lng q) with
                  | Some lat2, Some lng2 => d a b lat2 lng2 CLUSTER_RADIUS_METERS
                  | _, _ => false
                  end
              | None => false
              end) (seq (S k) (length rest))).
  { apply filter_ext_in. intros j Hj. apply in_seq in Hj.
    replace (j - k) with (S (j - S k)) by lia. reflexivity. }
  rewrite Htail.
  destruct (k =? i); cbn [negb andb]; [reflexivity|].
  destruct (coord (p_lat o)); [|reflexivity].
  destruct (coord (p_lng o)); [|reflexivity].
  destruct (d a b q q0 CLUSTER_RADIUS_METERS); reflexivity.
Qed.

Lemma getNeighbors_spec (points : list Point) (i : nat) (p : Point) :
  nth_error points i = Some p ->
  getNeighbors d p i points CLUSTER_RADIUS_METERS = Spec.neighbors d points i.
Proof.
  intros Hp. unfold getNeighbors, Spec.neighbors. rewrite Hp.
  destruct (coord (p_lat p)) as [a|] eqn:Ea.
  - destruct (coord (p_lng p)) as [b|] eqn:Eb.
    + rewrite neighborsFrom_filter. apply filter_ext. intros j.
      rewrite Nat.sub_0_r. unfold Spec.near. rewrite Ea, Eb. reflexivity.
    + symmetry. apply filter_none. intros j _. unfold Spec.near.
      rewrite Ea, Eb.
      destruct (nth_error points j); rewrite ?andb_false_r; reflexivity.
  - symmetry. apply filter_none. intros j _. unfold Spec.near. rewrite Ea.
    destruct (nth_error points j); rewrite ?andb_false_r; reflexivity.
Qed.

(** From here on the distance test is symmetric in its two points, as the
    Haversine distance is. *)
Hypothesis Hsym :
  forall a b c e r, d a b c e r = d c e a b r.

Lemma near_sym (p q : Point) : Spec.near d p q = Spec.near d q p.
Proof.
  unfold Spec.near.
  destruct (coord (p_lat p)), (coord (p_lng p)),
           (coord (p_lat q)), (coord (p_lng q)); try reflexivity.
  apply Hsym.
Qed.

Lemma neighbors_In (points : list Point) (i j : nat) :
  In j (Spec.neighbors d points i) <->
  i <> j /\
  exists p q, nth_error points i = Some p /\ nth_error points j = Some q /\
              Spec.near d p q = true.
Proof.
  unfold Spec.neighbors. destruct (nth_error points i) as [p|] eqn:Hp.
  - rewrite filter_In, in_seq, andb_true_iff, negb_true_iff, Nat.eqb_neq.
    split.
    + intros (_ & Hne & Hq). split; [auto|].
      destruct (nth_error points j) as [q|] eqn:Hj; [|discriminate].
      exists p, q. auto.
    + intros (Hne & p' & q & [= <-] & Hj & Hnear).
      split; [|split; [auto|rewrite Hj; exact Hnear]].
      assert (j < length points) by (apply nth_error_Some; congruence). lia.
  - split; [contradiction|]. intros (_ & p & q & H & _). discriminate.
Qed.

Lemma neighbors_sym (points : list Point) (i j : nat) :
  In j (Spec.neighbors d points i) -> In i (Spec.neighbors d points j).
Proof.
  rewrite !neighbors_In. intros (Hne & p & q & Hp & Hq & Hnear).
  split; [auto|]. exists q, p. rewrite near_sym. auto.
Qed.


Lemma neighbor_linked (points : list Point) (i j : nat) :
  In j (Spec.neighbors d points i) -> linked d points j.
Proof.
  intros H. apply neighbors_sym in H. unfold linked.
  destruct (Spec.neighbors d points j); [contradiction|discriminate].
Qed.

Lemma linked_point (points : list Point) (j : nat) :
  linked d points j -> exists p, nth_error points j = Some p.
Proof.
  unfold linked, Spec.neighbors.
  destruct (nth_error points j) as [p|]; [eauto|congruence].
Qed.

Lemma isCore_linked (points : list Point) (j : nat) :
  isCore (Spec.neighbors d points j) = true <-> linked d points j.
Proof.
  unfold isCore, linked, MINIMUM_CLUSTER_SIZE.
  destruct (Spec.neighbors d points j) as [|n l]; split; intros H.
  - discriminate H.
  - congruence.
  - discriminate.
  - apply Nat.leb_le. cbn [length]. lia.
Qed.


Lemma agree_add (points : list Point) (V A : list nat) (x : nat) :
  agree d points V A -> agree d points (V ++ [x]) (A ++ [x]).
Proof.
  intros H j Hj. rewrite !Set_has_app, (H j Hj). reflexivity.
Qed.

Lemma agree_noise (points : list Point) (V A : list nat) (x : nat) :
  ~ linked d points x -> agree d points V A -> agree d points (V ++ [x]) A.
Proof.
  intros Hx H j Hj. rewrite Set_has_app, (H j Hj).
  cbn [Set_has existsb]. destruct (Nat.eqb_spec j x) as [->|_];
    [contradiction|]. rewrite !orb_false_r. reflexivity.
Qed.

Lemma unassigned_agree (points : list Point) (V A : list nat) (i : nat) :
  agree d points V A ->
  filter (fun idx => negb (Set_has Nat.eqb V idx)) (Spec.neighbors d points i)
  = Spec.unassigned A (Spec.neighbors d points i).
Proof.
  intros H. apply filter_ext_in. intros j Hj.
  rewrite (H j (neighbor_linked points i j Hj)). reflexivity.
Qed.

(** Entries of the queue that are already assigned make no difference. *)
Lemma absorb_unassigned (points : list Point) :
  forall u q A C,
    unvisited (length points) A = u ->
    Spec.absorb d points q A C =
    Spec.absorb d points (Spec.unassigned A q) A C.
Proof.
  induction u as [u IHu] using lt_wf_ind.
  induction q as [|x q IHq]; intros A C Hu; [reflexivity|].
  unfold Spec.unassigned. cbn [filter].
  destruct (Set_has Nat.eqb A x) eqn:Hx; cbn [negb].
  - rewrite absorb_assigned by exact Hx. apply IHq. exact Hu.
  - destruct (nth_error points x) as [p|] eqn:Hp.
    + rewrite !absorb_visit with (p := p) by assumption.
      assert (Hdec : unvisited (length points) (A ++ [x]) < u).
      { rewrite <- Hu, <- (Set_add_new _ _ Hx).
        apply unvisited_add; [|exact Hx]. apply nth_error_Some. congruence. }
      rewrite (IHu _ Hdec _ (A ++ [x]) (C ++ [p]) eq_refl).
      rewrite (IHu _ Hdec (if Spec.core d points x then _ else _)
                 (A ++ [x]) (C ++ [p]) eq_refl).
      f_equal.
      assert (Hff : Spec.unassigned (A ++ [x]) (Spec.unassigned A q) =
                    Spec.unassigned (A ++ [x]) q).
      { apply filter_filter_implied. intros j _.
        rewrite Set_has_app, !negb_true_iff.
        intros H. apply orb_false_iff in H. apply H. }
      fold (Spec.unassigned A q).
      assert (Happ : forall l1 l2,
                Spec.unassigned (A ++ [x]) (l1 ++ l2) =
                Spec.unassigned (A ++ [x]) l1 ++ Spec.unassigned (A ++ [x]) l2)
        by (intros; apply filter_app).
      destruct (Spec.core d points x); rewrite ?Happ, Hff; reflexivity.
    + rewrite !absorb_missing by assumption. apply IHq. exact Hu.
Qed.

(** The loop of the code and the expansion of the specification run in
    step. *)
Lemma expand_absorb (points : list Point) :
  forall u q V A C I,
    unvisited (length points) V = u ->
    (forall j, In j q -> linked d points j) ->
    agree d points V A ->
    exists V' A' C' I',
      expandCluster d points q V C I = Some (V', C', I') /\
      Spec.absorb d points q A C = (A', C') /\
      agree d points V' A'.
Proof.
  induction u as [u IHu] using lt_wf_ind.
  induction q as [|x q IHq]; intros V A C I Hu Hq Hag.
  - exists V, A, C, I. rewrite expand_nil, absorb_nil. auto.
  - assert (Hlx : linked d points x) by (apply Hq; left; reflexivity).
    assert (Hq' : forall j, In j q -> linked d points j)
      by (intros j Hj; apply Hq; right; exact Hj).
    pose proof (Hag x Hlx) as Hx.
    destruct (Set_has Nat.eqb V x) eqn:HVx.
    + rewrite expand_visited by exact HVx.
      rewrite absorb_assigned by (symmetry; exact Hx).
      apply IHq; assumption.
    + destruct (linked_point points x Hlx) as (p & Hp).
      rewrite expand_visit with (p := p) by assumption.
      rewrite absorb_visit with (p := p) by (auto; symmetry; exact Hx).
      rewrite (getNeighbors_spec points x p Hp).
      rewrite (unassigned_agree points (V ++ [x]) (A ++ [x]) x
                 (agree_add points V A x Hag)).
      change (isCore (Spec.neighbors d points x))
        with (Spec.core d points x).
      assert (Hdec : unvisited (length points) (V ++ [x]) < u).
      { rewrite <- Hu, <- (Set_add_new _ _ HVx).
        apply unvisited_add; [|exact HVx]. apply nth_error_Some. congruence. }
      apply (IHu _ Hdec); [reflexivity| |apply agree_add; exact Hag].
      intros j Hj. destruct (Spec.core d points x); [|auto].
      apply in_app_or in Hj. destruct Hj as [Hj|Hj]; [auto|].
      apply filter_In in Hj. destruct Hj as [Hj _].
      apply neighbor_linked with x. exact Hj.
Qed.

Lemma scan_refines (points : list Point) :
  forall rest pre V A Cs,
    points = pre ++ rest ->
    agree d points V A ->
    exists V',
      scanFrom d points (length pre) rest (V, Cs) =
      Some (V', Spec.scan d points (length pre) rest A Cs).
Proof.
  induction rest as [|point rest IH]; intros pre V A Cs Hsplit Hag.
  - exists V. reflexivity.
  - assert (Hp : nth_error points (length pre) = Some point).
    { rewrite Hsplit, nth_error_app2, Nat.sub_diag by lia. reflexivity. }
    assert (Hnext : points = (pre ++ [point]) ++ rest)
      by (rewrite <- app_assoc; exact Hsplit).
    assert (Hlen : length (pre ++ [point]) = S (length pre))
      by (rewrite length_app, Nat.add_1_r; reflexivity).
    cbn [scanFrom Spec.scan]. unfold scanPoint.
    rewrite (getNeighbors_spec points _ point Hp).
    change (isCore (Spec.neighbors d points (length pre)))
      with (Spec.core d points (length pre)).
    destruct (Spec.core d points (length pre)) eqn:Hcore.
    + assert (Hl : linked d points (length pre))
        by (apply isCore_linked; exact Hcore).
      rewrite <- (Hag _ Hl).
      destruct (Set_has Nat.eqb V (length pre)) eqn:HV.
      * rewrite <- Hlen. apply IH; assumption.
      * rewrite (Set_add_new _ _ HV).
        rewrite <- (absorb_unassigned points _ _ _ _ eq_refl).
        destruct (expand_absorb points _
                    (Spec.neighbors d points (length pre))
                    (V ++ [length pre]) (A ++ [length pre]) [point]
                    [length pre] eq_refl)
          as (V' & A' & C' & I' & E & E' & Hag').
        { intros j Hj. apply neighbor_linked with (length pre). exact Hj. }
        { apply agree_add. exact Hag. }
        rewrite E, E'. rewrite <- Hlen. apply IH; assumption.
    + assert (Hl : ~ linked d points (length pre)).
      { intros H. apply isCore_linked in H.
        change (isCore (Spec.neighbors d points (length pre)))
          with (Spec.core d points (length pre)) in H. congruence. }
      destruct (Set_has Nat.eqb V (length pre)) eqn:HV;
        destruct (Set_has Nat.eqb A (length pre)) eqn:HA;
        rewrite <- Hlen; apply IH; try assumption;
        rewrite (Set_add_new _ _ HV); apply agree_noise; assumption.
Qed.

Lemma dbscan_refines (points : list Point) :
  dbscan d points = Some (Spec.clusters d points).
Proof.
  destruct (scan_refines points points [] [] [] [] eq_refl) as (V' & E).
  - intros j _. reflexivity.
  - unfold dbscan, Spec.clusters. cbn [length] in E. rewrite E. reflexivity.
Qed.

End ProcedureFacts.

(** C1. The clusters that the code finds among the recent pings of a trip
    are those of the specification's procedure (scan in input order, skip
    assigned points, core point iff neighbours plus itself >= M, FIFO
    expansion from the unvisited neighbours, core neighbours enqueue their
    own unvisited neighbours, the rest is noise), for the cluster size M = 2
    of line 22 and a distance test that is symmetric; [getNeighbors]
    computes the neighbours of the procedure, and the core test is the
    same. *)
Theorem dbscan_follows_procedure (d : Q -> Q -> Q -> Q -> Q -> bool)
    (points : list Point) :
  (forall a b c e r, d a b c e r = d c e a b r) ->
  dbscan d points = Some (Spec.clusters d points) /\
  (forall i p,
     nth_error points i = Some p ->
     getNeighbors d p i points CLUSTER_RADIUS_METERS
       = Spec.neighbors d points i /\
     isCore (getNeighbors d p i points CLUSTER_RADIUS_METERS)
       = Spec.core d points i).
Proof.
  intros Hsym. split.
  - apply dbscan_refines. exact Hsym.
  - intros i p Hp. rewrite (getNeighbors_spec d points i p Hp).
    split; reflexivity.
Qed.

Lemma dbscan_follows_procedure_witness :
  let points :=
    map toPoint
      [ping "T1" "R1" (TsInstant sampleNow) lagos_lat lagos_lng;
       ping "T1" "R2" (TsInstant sampleNow) lagos_lat lagos_lng;
       ping "T1" "R3" (TsInstant sampleNow) (JNum (Num 7)) (JNum (Num 4))] in
  (forall a b c e r,
     Haversine.within a b c e r = Haversine.within c e a b r) /\
  dbscan Haversine.within points
    = Some (Spec.clusters Haversine.within points).
Proof.
  intros points. split; [exact within_sym|].
  apply (dbscan_follows_procedure Haversine.within points within_sym).
Defined.

(** The symmetry of the distance test is needed: the code marks a point
    that is not a core point as visited when the scan reaches it, and the
    procedure leaves it for a later cluster.  With a test by which the first
    point sees nobody and the second sees the first, the code leaves the
    first point out of the cluster that the procedure puts it in. *)
Example dbscan_one_sided_distance :
  let d := fun (lat1 lng1 lat2 lng2 r : Q) => Qle_bool lat2 lat1 in
  let points :=
    map toPoint
      [ping "T1" "R1" (TsInstant sampleNow) (JNum (Num 0)) (JNum (Num 0));
       ping "T1" "R2" (TsInstant sampleNow) (JNum (Num 1)) (JNum (Num 0));
       ping "T1" "R3" (TsInstant sampleNow) (JNum (Num 1)) (JNum (Num 1))] in
  option_map (map (map p_riderId)) (dbscan d points)
    = Some [["R2"; "R3"]] /\
  map (map p_riderId) (Spec.clusters d points) = [["R2"; "R1"; "R3"]].
Proof.
  split; vm_compute; reflexivity.
Qed.

(** ** The health tiers, for timestamps after the epoch *)

(** The instants of the bookings that have a valid timestamp. *)
Lemma validTimes_filter (k : string) (bookings : list Booking) :
  Spec.validTimes k bookings =
  flat_map (fun b => match timestamp b with
                     | TsInstant ms => [ms]
                     | _ => []
                     end)
           (filter (fun b => String.eqb (tripCode b) k) bookings).
Proof.
  unfold Spec.validTimes. induction bookings as [|b l IH]; [reflexivity|].
  cbn [flat_map filter]. destruct (String.eqb (tripCode b) k);
    cbn [flat_map app]; rewrite IH; reflexivity.
Qed.

Lemma max_swap (l : list Z) :
  forall a b : Z,
    Z.max a (fold_right Z.max b l) = Z.max b (fold_right Z.max a l).
Proof.
  induction l as [|x l IH]; intros a b; cbn [fold_right]; [lia|].
  specialize (IH a b). lia.
Qed.

Lemma max_ge_seed (l : list Z) (a : Z) : (a <= fold_right Z.max a l)%Z.
Proof. induction l as [|x l IH]; cbn [fold_right]; lia. Qed.

Lemma latestOf_fold (l : list Booking) :
  forall (m : Z) (s : option jsdate),
    (m = 0%Z /\ s = None \/ (0 < m)%Z /\ s = Some (TsInstant m)) ->
    (forall t, In t (flat_map (fun b => match timestamp b with
                                        | TsInstant ms => [ms]
                                        | _ => []
                                        end) l) -> (0 < t)%Z) ->
    let instants := flat_map (fun b => match timestamp b with
                                       | TsInstant ms => [ms]
                                       | _ => []
                                       end) l in
    fold_left latestOf l (m, s) =
    (fold_right Z.max m instants,
     match instants with
     | [] => s
     | _ => Some (TsInstant (fold_right Z.max m instants))
     end).
Proof.
  induction l as [|b l IH]; intros m s Hinv Hpos; [reflexivity|].
  cbn [fold_left flat_map]. unfold latestOf at 2.
  destruct (timestamp b) as [|raw|t] eqn:Ets; cbn [isUndefined getTime app].
  - apply IH; [exact Hinv|]. intros t Ht. apply Hpos. cbn [flat_map].
    rewrite Ets. exact Ht.
  - apply IH; [exact Hinv|]. intros t Ht. apply Hpos. cbn [flat_map].
    rewrite Ets. exact Ht.
  - assert (Ht : (0 < t)%Z).
    { apply Hpos. cbn [flat_map]. rewrite Ets. left. reflexivity. }
    assert (Hrest : forall t', In t' (flat_map (fun b => match timestamp b with
                                        | TsInstant ms => [ms]
                                        | _ => []
                                        end) l) -> (0 < t')%Z).
    { intros t' Ht'. apply Hpos. cbn [flat_map]. rewrite Ets. right. exact Ht'. }
    set (il := flat_map _ l) in *.
    cbn [fold_right].
    assert (Hmax : forall m', m' = Z.max m t ->
              fold_right Z.max m' il = Z.max t (fold_right Z.max m il)).
    { intros m' ->. pose proof (max_swap il m t).
      pose proof (max_swap il (Z.max m t) m).
      pose proof (max_ge_seed il m). pose proof (max_ge_seed il (Z.max m t)).
      pose proof (max_swap il (Z.max m t) t).
      pose proof (max_ge_seed il t). lia. }
    destruct (m <? t)%Z eqn:E.
    + apply Z.ltb_lt in E.
      rewrite (IH t (Some (TsInstant t))); [|right; auto|exact Hrest].
      fold il. rewrite (Hmax t) by lia.
      destruct il; [|reflexivity]. cbn [fold_right].
      replace (Z.max t m) with t by lia. reflexivity.
    + apply Z.ltb_ge in E.
      assert (Hs : (0 < m)%Z /\ s = Some (TsInstant m)).
      { destruct Hinv as [[-> _]|H]; [lia|exact H]. }
      rewrite (IH m s); [|right; exact Hs|exact Hrest].
      fold il.
      replace (Z.max t (fold_right Z.max m il)) with (fold_right Z.max m il)
        by (pose proof (max_ge_seed il m); lia).
      destruct il; [|reflexivity]. cbn [fold_right].
      destruct Hs as (_ & ->). reflexivity.
Qed.

Lemma minutes_le (a k : Z) :
  Qle_bool (inject_Z a / inject_Z (60 * 1000)) (inject_Z k) =
  (a <=? k * 60000)%Z.
Proof.
  unfold Qle_bool, Qdiv, Qmult, Qinv, inject_Z. cbn.
  rewrite !Z.mul_1_r. reflexivity.
Qed.

Lemma healthEntry_classify (now : Z) (bookings : list Booking) (k : string) :
  (forall t, In t (Spec.validTimes k bookings) -> (0 < t)%Z) ->
  tierOf (healthEntry now bookings k) = Spec.classify now bookings k.
Proof.
  intros Hpos. unfold healthEntry, Spec.classify.
  rewrite validTimes_filter in *.
  set (tb := filter _ bookings) in *.
  rewrite (latestOf_fold tb 0%Z None (or_introl (conj eq_refl eq_refl)) Hpos).
  destruct (flat_map _ tb) as [|t ts] eqn:Einst.
  - cbn [fold_right Z.eqb orb isNull].
    destruct (length tb =? 0); reflexivity.
  - assert (Htb : (length tb =? 0) = false).
    { destruct tb; [discriminate Einst|reflexivity]. }
    rewrite Htb.
    assert (Hlatest : fold_right Z.max 0%Z (t :: ts) = fold_right Z.max t ts).
    { cbn [fold_right]. pose proof (max_swap ts t 0%Z).
      pose proof (max_ge_seed ts t).
      assert (0 < t)%Z by (apply Hpos; left; reflexivity). lia. }
    rewrite Hlatest. set (latest := fold_right Z.max t ts).
    assert (Hl : (0 < latest)%Z).
    { pose proof (max_ge_seed ts t).
      assert (0 < t)%Z by (apply Hpos; left; reflexivity).
      unfold latest. lia. }
    replace (latest =? 0)%Z with false by (symmetry; apply Z.eqb_neq; lia).
    cbn [orb isNull].
    change 2%Q with (inject_Z 2). change 10%Q with (inject_Z 10).
    rewrite !minutes_le.
    change (2 * 60000)%Z with (2 * 60 * 1000)%Z.
    change (10 * 60000)%Z with (10 * 60 * 1000)%Z.
    destruct (now - latest <=? 2 * 60 * 1000)%Z; [reflexivity|].
    destruct (now - latest <=? 10 * 60 * 1000)%Z; reflexivity.
Qed.

(** Apart from the failing input of C2 the classifier is the specified
    one: for a registered trip whose valid timestamps all lie after the
    epoch (and whose code is not "__proto__", which no assignment stores),
    the tier and the last update are those of the specification. *)
Lemma health_classifier_after_epoch (bookings : list Booking)
    (trips : list Trip) (w : World) (k : string) :
  registered trips k = true ->
  (forall t, In t (Spec.validTimes k bookings) -> (0 < t)%Z) ->
  exists out h,
    result (calculateTripHealth bookings trips w) = Some out /\
    obj_get out k = Some h /\
    tierOf h = Spec.classify (tick w (reads w)) bookings k.
Proof.
  intros Hk Hpos. rewrite calculateTripHealth_run.
  cbn [result option_map fst].
  eexists. exists (healthEntry (tick w (reads w)) bookings k).
  split; [reflexivity|]. split.
  - rewrite health_lookup, Hk. reflexivity.
  - apply healthEntry_classify. exact Hpos.
Qed.

(** ** A malformed ping and the rider count *)

(** A malformed ping still counts among the riders of its trip: with the
    third ping, which has no timestamp and no coordinates, the same cluster
    has totalRiders 3 and strength 2/3. *)
Lemma malformed_ping_counts_as_rider :
  result (calculateClusters Haversine.within
            [ping "T1" "R1" (TsInstant sampleNow) lagos_lat lagos_lng;
             ping "T1" "R2" (TsInstant sampleNow) lagos_lat lagos_lng;
             mkBooking "T1" "R3" TsUndefined JOther JOther JOther]
            [] (clockAt sampleNow)) =
  Some [("T1",
         {| c_tripCode := "T1";
            center := mkCenter (1304880000000 # 200000000000)
                               (675840000000 # 200000000000);
            strength := 2 # 3;
            riderCount := 2;
            totalRiders := 3;
            c_timestamp := sampleNow;
            riders := ["R1"; "R2"] |})].
Proof.
  apply (clusters_two_riders_and_malformed Haversine.within within_same []).
Qed.

(** ** Trip codes that name a property of Object.prototype *)

(** One booking under the trip code "constructor", malformed or not, makes
    [calculateClusters] throw: [totalRidersPerTrip["constructor"]] is the
    inherited function, no Set is created, and [.add] is not a function.
    (The store upper-cases trip codes, so it never writes such a code.) *)
Lemma booking_named_constructor_throws (d : Q -> Q -> Q -> Q -> Q -> bool)
    (trips : list Trip) (w : World) :
  result (calculateClusters d
            [mkBooking "constructor" "R1" TsUndefined JOther JOther JOther]
            trips w) = None.
Proof. reflexivity. Qed.

(** A trip registered under the code "__proto__" gets no health entry: the
    assignment changes the prototype of the result object. *)
Lemma trip_named_proto_has_no_entry (bookings : list Booking) (w : World) :
  result (calculateTripHealth bookings [mkTrip "__proto__"] w) = Some [].
Proof.
  rewrite calculateTripHealth_run. cbn [result option_map fst fold_left].
  rewrite tripHealthOf_entry. reflexivity.
Qed.

(** * The handlers and the store *)

Import Server.

(** ** Trip codes *)

Lemma isWhiteSpace_upperChar (c : ascii) :
  isWhiteSpace (upperChar c) = isWhiteSpace c.
Proof. destruct c as [[] [] [] [] [] [] [] []]; reflexivity. Qed.

Lemma upperChar_idem (c : ascii) : upperChar (upperChar c) = upperChar c.
Proof. destruct c as [[] [] [] [] [] [] [] []]; reflexivity. Qed.

Lemma toUpperCase_idem (s : string) :
  toUpperCase (toUpperCase s) = toUpperCase s.
Proof.
  induction s as [|c s IH]; [reflexivity|].
  cbn [toUpperCase]. rewrite upperChar_idem, IH. reflexivity.
Qed.

Lemma trimStart_toUpperCase (s : string) :
  trimStart (toUpperCase s) = toUpperCase (trimStart s).
Proof.
  induction s as [|c s IH]; [reflexivity|].
  cbn [toUpperCase trimStart]. rewrite isWhiteSpace_upperChar.
  destruct (isWhiteSpace c); [exact IH|reflexivity].
Qed.

Lemma trimEnd_toUpperCase (s : string) :
  trimEnd (toUpperCase s) = toUpperCase (trimEnd s).
Proof.
  induction s as [|c s IH]; [reflexivity|].
  cbn [toUpperCase trimEnd]. rewrite IH, isWhiteSpace_upperChar.
  destruct (trimEnd s); cbn [toUpperCase]; [|reflexivity].
  destruct (isWhiteSpace c); reflexivity.
Qed.

Lemma trim_toUpperCase (s : string) :
  trim (toUpperCase s) = toUpperCase (trim s).
Proof.
  unfold trim. rewrite trimStart_toUpperCase. apply trimEnd_toUpperCase.
Qed.

Lemma trimEnd_cons (c : ascii) (s : string) :
  trimEnd (String c s) =
  match trimEnd s with
  | EmptyString => if isWhiteSpace c then EmptyString else String c EmptyString
  | rest => String c rest
  end.
Proof. reflexivity. Qed.

Lemma trimEnd_idem (s : string) : trimEnd (trimEnd s) = trimEnd s.
Proof.
  induction s as [|c s IH]; [reflexivity|].
  rewrite trimEnd_cons. destruct (trimEnd s) as [|c' r] eqn:E.
  - destruct (isWhiteSpace c) eqn:Ew; [reflexivity|].
    rewrite trimEnd_cons, Ew. reflexivity.
  - rewrite trimEnd_cons, IH. reflexivity.
Qed.

Lemma trimStart_clean (s : string) : cleanStart (trimStart s).
Proof.
  induction s as [|c s IH]; [exact I|].
  cbn [trimStart]. destruct (isWhiteSpace c) eqn:E; [exact IH|exact E].
Qed.

Lemma trimStart_fixed (s : string) : cleanStart s -> trimStart s = s.
Proof.
  destruct s as [|c s]; [reflexivity|]. cbn. intros ->. reflexivity.
Qed.

Lemma trimEnd_clean (s : string) : cleanStart s -> cleanStart (trimEnd s).
Proof.
  destruct s as [|c s]; [intros _; exact I|].
  cbn [cleanStart trimEnd]. intros E.
  destruct (trimEnd s); [rewrite E|]; exact E.
Qed.

Lemma trim_idem (s : string) : trim (trim s) = trim s.
Proof.
  unfold trim.
  rewrite (trimStart_fixed (trimEnd (trimStart s))).
  - apply trimEnd_idem.
  - apply trimEnd_clean, trimStart_clean.
Qed.

Lemma toUpperCase_truthy (s : string) : truthy (toUpperCase s) = truthy s.
Proof. destruct s; reflexivity. Qed.

Lemma blank_trim (s : string) : blank s = false -> truthy (trim s) = true.
Proof.
  unfold blank. intros H. apply orb_false_iff in H. destruct H as (_ & H).
  destruct (trim s); [discriminate H|reflexivity].
Qed.

Lemma standard_code (s : string) :
  blank s = false -> standard (toUpperCase (trim s)).
Proof.
  intros H. split.
  - rewrite toUpperCase_truthy. apply blank_trim. exact H.
  - rewrite trim_toUpperCase, trim_idem, toUpperCase_idem. reflexivity.
Qed.

Lemma standard_not_blank (c : string) : standard c -> blank c = false.
Proof.
  intros (Ht & Hc). unfold blank. rewrite Ht. cbn [negb orb].
  destruct (trim c) eqn:E; [|reflexivity].
  cbn in Hc. subst c. discriminate Ht.
Qed.

Lemma upperChar_not_lower (c : ascii) :
  let n := nat_of_ascii (upperChar c) in (97 <=? n) && (n <=? 122) = false.
Proof. destruct c as [[] [] [] [] [] [] [] []]; reflexivity. Qed.

Lemma toUpperCase_no_lower (s : string) : hasLowerCase (toUpperCase s) = false.
Proof.
  induction s as [|c s IH]; [reflexivity|].
  cbn [toUpperCase hasLowerCase]. rewrite IH.
  pose proof (upperChar_not_lower c) as H. cbv zeta in H. rewrite H.
  reflexivity.
Qed.

Lemma inheritedKey_lower (k : string) :
  inheritedKey k = true -> hasLowerCase k = true.
Proof.
  unfold inheritedKey. cbn [existsb]. intros H.
  repeat (apply orb_true_iff in H; destruct H as [H|H];
          [apply String.eqb_eq in H; subst k; reflexivity|]).
  discriminate H.
Qed.

(** No name of [Object.prototype] is in upper case. *)
Lemma standard_not_inherited (c : string) :
  standard c -> inheritedKey c = false.
Proof.
  intros (_ & Hc). destruct (inheritedKey c) eqn:E; [|reflexivity].
  apply inheritedKey_lower in E. rewrite <- Hc in E.
  rewrite toUpperCase_no_lower in E. discriminate E.
Qed.

(** * Properties of the handlers *)

Lemma consistent_initial : consistent initialData.
Proof.
  split; cbn; try (intros ? []); constructor.
Qed.

Lemma readData_consistent (disk : Disk) (data : Data) :
  consistentDisk disk -> readData disk = Some data -> consistent data.
Proof.
  unfold consistentDisk, readData. intros H E.
  destruct (file disk); try discriminate E; injection E as <-;
    try exact consistent_initial; exact H.
Qed.

Lemma writeData_consistent (data : Data) (disk disk' : Disk) :
  consistent data -> writeData data disk = Some disk' -> consistentDisk disk'.
Proof.
  unfold writeData. intros H E. destruct (readOnly disk); [discriminate E|].
  injection E as <-. unfold consistentDisk. cbn [file].
  destruct (file disk); try exact H. exact I.
Qed.

Lemma existsb_code (registry : list TripRecord) (c : string) :
  existsb (fun trip => String.eqb (code (asTrip trip)) c) registry = true
  <-> In c (codes registry).
Proof.
  unfold codes. rewrite existsb_exists, in_map_iff. split.
  - intros (t & Ht & E). apply String.eqb_eq in E. exists t. auto.
  - intros (t & E & Ht). exists t. split; [exact Ht|].
    apply String.eqb_eq. exact E.
Qed.

Lemma existsb_code_false (registry : list TripRecord) (c : string) :
  existsb (fun trip => String.eqb (code (asTrip trip)) c) registry = false
  <-> ~ In c (codes registry).
Proof.
  rewrite <- existsb_code. destruct (existsb _ registry); split; intros H;
    try reflexivity; try discriminate; try congruence.
Qed.

Lemma NoDup_snoc {A} (l : list A) (x : A) :
  NoDup l -> ~ In x l -> NoDup (l ++ [x]).
Proof.
  intros Hl Hx. induction Hl as [|y l Hy Hl IH]; cbn.
  - constructor; [intros []|constructor].
  - constructor.
    + rewrite in_app_iff. intros [H|[H|[]]]; [contradiction|].
      subst y. apply Hx. left. reflexivity.
    + apply IH. intros H. apply Hx. right. exact H.
Qed.

Lemma codes_app (l1 l2 : list TripRecord) : codes (l1 ++ l2) = codes l1 ++ codes l2.
Proof. apply map_app. Qed.

(** ** createTrip *)

Lemma createTrip_consistent (tripCode' : option string) (disk : Disk)
    (w : World) :
  consistentDisk disk -> consistentDisk (snd (createTrip tripCode' disk w)).
Proof.
  intros Hd. unfold createTrip.
  destruct tripCode' as [s|]; [|exact Hd].
  destruct (blank s) eqn:Eb; [exact Hd|].
  destruct (readData disk) as [data|] eqn:Er; [|exact Hd].
  pose proof (readData_consistent _ _ Hd Er) as Hc.
  destruct (existsb _ (trips data)) eqn:Ee; [exact Hd|].
  destruct (writeData _ disk) as [disk'|] eqn:Ew; [|exact Hd].
  cbn [snd]. refine (writeData_consistent _ _ _ _ Ew).
  apply existsb_code_false in Ee.
  destruct Hc as [H1 H2 H3 H4 H5 H6].
  split; cbn [trips bookings]; try assumption.
  - rewrite codes_app. apply NoDup_snoc; assumption.
  - intros c. rewrite codes_app, in_app_iff. intros [H|[<-|[]]].
    + apply H2. exact H.
    + apply standard_code. exact Eb.
  - intros b Hb. rewrite codes_app, in_app_iff. left. apply H4. exact Hb.
Qed.

(** ** logBooking *)

Lemma findIndex_Some {A} (f : A -> bool) (l : list A) :
  forall i, findIndex f l = Some i ->
  exists pre x post,
    l = pre ++ x :: post /\ length pre = i /\ f x = true /\
    (forall y, In y pre -> f y = false) /\
    forall new, assignAt l i new = pre ++ new :: post.
Proof.
  induction l as [|y l IH]; intros i E; [discriminate E|].
  cbn [findIndex] in E. destruct (f y) eqn:Ey.
  - injection E as <-. exists [], y, l. repeat split; auto.
    intros ? [].
  - destruct (findIndex f l) as [j|] eqn:Ej; [|discriminate E].
    injection E as <-.
    destruct (IH j eq_refl) as (pre & x & post & -> & Hlen & Hx & Hpre & Hassign).
    exists (y :: pre), x, post. repeat split; cbn; auto.
    + intros z [<-|Hz]; auto.
    + intros new. rewrite Hassign. reflexivity.
Qed.

Lemma findIndex_None {A} (f : A -> bool) (l : list A) :
  findIndex f l = None -> forall y, In y l -> f y = false.
Proof.
  induction l as [|x l IH]; intros E y Hy; [contradiction|].
  cbn [findIndex] in E. destruct (f x) eqn:Ex; [discriminate E|].
  destruct (findIndex f l); [discriminate E|].
  destruct Hy as [<-|Hy]; [exact Ex|apply IH; auto].
Qed.

Lemma sameRider_key (c r : string) (b : Booking) :
  String.eqb (tripCode b) c && String.eqb (riderId b) r = true <->
  riderKey b = (c, r).
Proof.
  unfold riderKey. rewrite andb_true_iff, !String.eqb_eq. split.
  - intros (-> & ->). reflexivity.
  - intros E. injection E as -> ->. auto.
Qed.

Lemma upserted_keys (old : list Booking) (new : Booking) :
  (In (riderKey new) (map riderKey old) /\
   map riderKey (upserted old new) = map riderKey old) \/
  (~ In (riderKey new) (map riderKey old) /\
   upserted old new = old ++ [new]).
Proof.
  unfold upserted.
  destruct (findIndex _ old) as [i|] eqn:E.
  - destruct (findIndex_Some _ _ _ E)
      as (pre & x & post & -> & _ & Hx & _ & Hassign).
    rewrite Hassign. apply sameRider_key in Hx. left. split.
    + rewrite map_app, in_app_iff. right. left. exact Hx.
    + rewrite !map_app. cbn [map]. rewrite Hx. reflexivity.
  - pose proof (findIndex_None _ _ E) as Hnone. right.
    split; [|reflexivity].
    intros Hin. apply in_map_iff in Hin. destruct Hin as (y & Hy & Hin).
    specialize (Hnone y Hin). cbv beta in Hnone.
    change (riderKey new) with (tripCode new, riderId new) in Hy.
    apply sameRider_key in Hy. rewrite Hy in Hnone. discriminate Hnone.
Qed.

Lemma upserted_In (old : list Booking) (new b : Booking) :
  In b (upserted old new) -> b = new \/ In b old.
Proof.
  unfold upserted. destruct (findIndex _ old) as [i|] eqn:E.
  - destruct (findIndex_Some _ _ _ E)
      as (pre & x & post & -> & _ & _ & _ & Hassign).
    rewrite Hassign, !in_app_iff. cbn [In]. intuition.
  - rewrite in_app_iff. cbn [In]. intuition.
Qed.

Lemma upserted_consistent (data : Data) (new : Booking) :
  consistent data ->
  In (tripCode new) (codes (trips data)) ->
  truthy (riderId new) = true -> trim (riderId new) = riderId new ->
  (exists ms, timestamp new = TsInstant ms) ->
  consistent {| bookings := upserted (bookings data) new;
                trips := trips data |}.
Proof.
  intros [H1 H2 H3 H4 H5 H6] Hreg Hname Htrim Htime.
  split; cbn [trips bookings]; try assumption.
  - destruct (upserted_keys (bookings data) new) as [(_ & ->)|(Hnot & ->)];
      [exact H3|].
    rewrite map_app. apply NoDup_snoc; assumption.
  - intros b Hb. apply upserted_In in Hb. destruct Hb as [->|Hb]; auto.
  - intros b Hb. apply upserted_In in Hb. destruct Hb as [->|Hb]; auto.
  - intros b Hb. apply upserted_In in Hb. destruct Hb as [->|Hb]; auto.
Qed.

Lemma logBooking_consistent (req : LogBody) (disk : Disk) (w : World) :
  consistentDisk disk -> consistentDisk (snd (logBooking req disk w)).
Proof.
  intros Hd. unfold logBooking.
  destruct (body_code req) as [c|]; [|exact Hd].
  destruct (blank c) eqn:Ec; [exact Hd|].
  destruct (body_riderId req) as [r|]; [|exact Hd].
  destruct (blank r) eqn:Er; [exact Hd|].
  destruct (isNaN (body_lat req) || isNaN (body_lng req)); [exact Hd|].
  destruct (readData disk) as [data|] eqn:Eread; [|exact Hd].
  pose proof (readData_consistent _ _ Hd Eread) as Hc.
  destruct (existsb _ (trips data)) eqn:Ee; cbn [negb]; [|exact Hd].
  destruct (writeData _ disk) as [disk'|] eqn:Ew; [|exact Hd].
  cbn [snd]. refine (writeData_consistent _ _ _ _ Ew).
  apply existsb_code in Ee.
  match goal with
  | |- consistent {| bookings := match _ with
                                 | Some index => assignAt _ index ?new
                                 | None => _
                                 end;
                     trips := _ |} =>
      apply (upserted_consistent data new Hc)
  end; cbn [tripCode riderId timestamp].
  - exact Ee.
  - apply blank_trim. exact Er.
  - apply trim_idem.
  - eexists. reflexivity.
Qed.

(** ** deleteTrip and resetData *)

Lemma NoDup_map_filter {A B} (f : A -> B) (g : A -> bool) (l : list A) :
  NoDup (map f l) -> NoDup (map f (filter g l)).
Proof.
  induction l as [|x l IH]; cbn [map filter]; intros H; [constructor|].
  inversion H as [|? ? Hx Hl]; subst.
  destruct (g x); cbn [map]; [|apply IH; exact Hl].
  constructor; [|apply IH; exact Hl].
  intros Hin. apply Hx. apply in_map_iff in Hin.
  destruct Hin as (y & Hy & Hin). apply filter_In in Hin.
  apply in_map_iff. exists y. tauto.
Qed.

Lemma deleteTrip_consistent (tripCode' : option string) (disk : Disk) :
  consistentDisk disk -> consistentDisk (snd (deleteTrip tripCode' disk)).
Proof.
  intros Hd. unfold deleteTrip.
  destruct tripCode' as [s|]; [|exact Hd].
  destruct (blank s) eqn:Eb; [exact Hd|].
  destruct (readData disk) as [data|] eqn:Er; [|exact Hd].
  pose proof (readData_consistent _ _ Hd Er) as Hc.
  destruct (writeData _ disk) as [disk'|] eqn:Ew; [|exact Hd].
  assert (Hd' : consistentDisk disk').
  { refine (writeData_consistent _ _ _ _ Ew).
    destruct Hc as [H1 H2 H3 H4 H5 H6].
    split; cbn [trips bookings].
    - apply NoDup_map_filter. exact H1.
    - intros c Hin. apply H2. unfold codes in *. apply in_map_iff in Hin.
      destruct Hin as (t & Ht & Hin). apply filter_In in Hin.
      apply in_map_iff. exists t. tauto.
    - apply NoDup_map_filter. exact H3.
    - intros b Hb. apply filter_In in Hb. destruct Hb as (Hb & Hne).
      specialize (H4 b Hb). unfold codes in *. apply in_map_iff in H4.
      destruct H4 as (t & Ht & Hin). apply in_map_iff. exists t.
      split; [exact Ht|]. apply filter_In. split; [exact Hin|].
      rewrite Ht. exact Hne.
    - intros b Hb. apply filter_In in Hb. apply H5. apply Hb.
    - intros b Hb. apply filter_In in Hb. apply H6. apply Hb. }
  destruct (_ <? _); exact Hd'.
Qed.

Lemma resetData_consistent (disk : Disk) :
  consistentDisk disk -> consistentDisk (snd (resetData disk)).
Proof.
  intros Hd. unfold resetData.
  destruct (writeData _ disk) as [disk'|] eqn:Ew; [|exact Hd].
  cbn [snd]. refine (writeData_consistent _ _ _ _ Ew).
  exact consistent_initial.
Qed.

(** ** initData *)

Lemma ensureTrip_codes (t : SampleTrip) (registry : list TripRecord)
    (w : World) :
  codes (fst (ensureTrip (registry, w) t)) =
  if existsb (fun trip => String.eqb (code (asTrip trip)) (s_code t)) registry
  then codes registry
  else codes registry ++ [s_code t].
Proof.
  unfold ensureTrip. destruct (existsb _ registry); [reflexivity|].
  cbn [fst]. rewrite codes_app. reflexivity.
Qed.

Lemma ensureTrips_codes (samples : list SampleTrip) :
  forall (registry : list TripRecord) (w : World),
    NoDup (codes registry) ->
    let registry' := fst (fold_left ensureTrip samples (registry, w)) in
    NoDup (codes registry') /\
    (forall c, In c (codes registry') <->
               In c (codes registry) \/ In c (map s_code samples)).
Proof.
  induction samples as [|t samples IH]; intros registry w Hnd.
  - cbn. split; [exact Hnd|]. intros c. tauto.
  - cbn [fold_left].
    pose proof (ensureTrip_codes t registry w) as Ht.
    destruct (ensureTrip (registry, w) t) as [registry1 w1]. cbn [fst] in Ht.
    assert (Hnd1 : NoDup (codes registry1)).
    { rewrite Ht. destruct (existsb _ registry) eqn:E; [exact Hnd|].
      apply NoDup_snoc; [exact Hnd|]. apply existsb_code_false. exact E. }
    destruct (IH registry1 w1 Hnd1) as (Hnd' & Hin').
    cbv zeta. split; [exact Hnd'|].
    intros c. rewrite Hin', Ht. cbn [map In].
    destruct (existsb _ registry) eqn:E.
    + apply existsb_code in E. split; [tauto|].
      intros [H|[<-|H]]; tauto.
    + rewrite in_app_iff. cbn [In]. tauto.
Qed.

Lemma sampleBooking_adds (t : SampleTrip) (i : nat)
    (st : list Booking * World * Chance) :
  exists b,
    fst (fst (sampleBooking t i st)) = fst (fst st) ++ [b] /\
    riderKey b = (s_code t, sampleRider t i) /\
    exists ms, timestamp b = TsInstant ms.
Proof.
  destruct st as [[bs w] c]. unfold sampleBooking. cbn [fst].
  eexists. split; [reflexivity|]. split; [reflexivity|].
  eexists. reflexivity.
Qed.

Lemma sampleBookings_add (t : SampleTrip) (indices : list nat) :
  forall st : list Booking * World * Chance,
  exists generated,
    fst (fst (fold_left (fun st' i => sampleBooking t i st') indices st))
      = fst (fst st) ++ generated /\
    map riderKey generated = map (fun i => (s_code t, sampleRider t i)) indices /\
    Forall (fun b => exists ms, timestamp b = TsInstant ms) generated.
Proof.
  induction indices as [|i indices IH]; intros st.
  - exists []. cbn. rewrite app_nil_r. auto.
  - cbn [fold_left].
    destruct (sampleBooking_adds t i st) as (b & Hb & Hkey & Htime).
    destruct (IH (sampleBooking t i st)) as (generated & Hg & Hkeys & Htimes).
    exists (b :: generated). rewrite Hg, Hb, <- app_assoc. cbn [app map].
    rewrite Hkey, Hkeys. auto.
Qed.

Lemma sampleTrips_add (samples : list SampleTrip) :
  forall st : list Booking * World * Chance,
  exists generated,
    fst (fst (fold_left sampleBookings samples st)) = fst (fst st) ++ generated /\
    map riderKey generated = sampleKeys samples /\
    Forall (fun b => exists ms, timestamp b = TsInstant ms) generated.
Proof.
  induction samples as [|t samples IH]; intros st.
  - exists []. cbn. rewrite app_nil_r. auto.
  - cbn [fold_left]. unfold sampleBookings at 2.
    destruct (sampleBookings_add t (seq 1 10) st) as (g1 & Hg1 & Hk1 & Ht1).
    destruct (IH (fold_left (fun st' i => sampleBooking t i st') (seq 1 10) st))
      as (g2 & Hg2 & Hk2 & Ht2).
    exists (g1 ++ g2). rewrite Hg2, Hg1, <- app_assoc.
    split; [reflexivity|]. split.
    + rewrite map_app, Hk1, Hk2. reflexivity.
    + apply Forall_app. auto.
Qed.

Lemma sampleKeys_facts :
  NoDup (sampleKeys sampleTrips) /\
  Forall (fun key => In (fst key) (map s_code sampleTrips) /\
                     truthy (snd key) = true /\ trim (snd key) = snd key)
         (sampleKeys sampleTrips) /\
  Forall standard (map s_code sampleTrips).
Proof.
  split; [|split].
  - vm_compute. repeat constructor; cbn; intuition discriminate.
  - apply Forall_forall. intros key Hin. vm_compute in Hin.
    repeat (destruct Hin as [<-|Hin]; [vm_compute; auto|]).
    contradiction.
  - repeat constructor.
Qed.

Lemma initData_consistent (disk : Disk) (w : World) (c : Chance) :
  consistentDisk disk -> consistentDisk (snd (initData disk w c)).
Proof.
  intros Hd. unfold initData.
  destruct (readData disk) as [data|] eqn:Er; [|exact Hd].
  pose proof (readData_consistent _ _ Hd Er) as [H1 H2 H3 H4 H5 H6].
  destruct (ensureTrips_codes sampleTrips (trips data) w H1) as (Hnd & Hcodes).
  destruct (fold_left ensureTrip sampleTrips (trips data, w))
    as [registry' w'] eqn:Et. cbn [fst] in Hnd, Hcodes.
  set (kept := filter _ (bookings data)).
  destruct (sampleTrips_add sampleTrips (kept, w', c))
    as (generated & Hg & Hkeys & Htimes).
  destruct (fold_left sampleBookings sampleTrips (kept, w', c))
    as [[bookings' w''] c''] eqn:Eb. cbn [fst] in Hg. subst bookings'.
  destruct (writeData _ disk) as [disk'|] eqn:Ew; [|exact Hd].
  cbn [snd]. refine (writeData_consistent _ _ _ _ Ew).
  destruct sampleKeys_facts as (Hknd & Hkfacts & Hstd).
  rewrite Forall_forall in Hkfacts, Htimes, Hstd.
  assert (Hkept : forall b, In b kept ->
                  In b (bookings data) /\ ~ In (tripCode b) (map s_code sampleTrips)).
  { intros b Hb. apply filter_In in Hb. destruct Hb as (Hb & Hno).
    split; [exact Hb|]. intros Hin. apply negb_true_iff in Hno.
    cbn in Hno, Hin.
    destruct Hin as [E|[E|[]]]; rewrite <- E in Hno; cbn in Hno;
      discriminate Hno. }
  assert (Hgen : forall b, In b generated -> In (riderKey b) (sampleKeys sampleTrips)).
  { intros b Hb. rewrite <- Hkeys. apply in_map. exact Hb. }
  split; cbn [trips bookings].
  - exact Hnd.
  - intros k Hk. apply Hcodes in Hk. destruct Hk as [Hk|Hk]; auto.
  - rewrite map_app, Hkeys. apply NoDup_app.
    + apply NoDup_map_filter. exact H3.
    + exact Hknd.
    + intros key Hin Hin'. apply in_map_iff in Hin.
      destruct Hin as (b & <- & Hb). apply Hkept in Hb.
      apply Hkfacts in Hin'. apply Hb. apply Hin'.
  - intros b Hb. apply in_app_iff in Hb. apply Hcodes.
    destruct Hb as [Hb|Hb].
    + left. apply H4. apply Hkept. exact Hb.
    + right. apply Hgen in Hb. apply Hkfacts in Hb. apply Hb.
  - intros b Hb. apply in_app_iff in Hb. destruct Hb as [Hb|Hb].
    + apply H5. apply Hkept. exact Hb.
    + apply Hgen in Hb. apply Hkfacts in Hb. apply Hb.
  - intros b Hb. apply in_app_iff in Hb. destruct Hb as [Hb|Hb].
    + apply H6. apply Hkept. exact Hb.
    + apply Htimes. exact Hb.
Qed.

(** ** Every route *)

Lemma serve_consistent (d : Q -> Q -> Q -> Q -> Q -> bool) (request : Request)
    (disk : Disk) (w : World) (c : Chance) :
  consistentDisk disk -> consistentDisk (snd (serve d request disk w c)).
Proof.
  intros Hd. destruct request; cbn [serve].
  - unfold checkDataAvailability. destruct (readData disk); exact Hd.
  - unfold fetchData. destruct (readData disk); exact Hd.
  - unfold getTrips. destruct (readData disk); exact Hd.
  - apply createTrip_consistent. exact Hd.
  - unfold getClusters. destruct (readData disk); [|exact Hd].
    destruct (calculateClusters _ _ _ _) as [[? ?]|]; exact Hd.
  - unfold getTripHealth. destruct (readData disk); [|exact Hd].
    destruct (calculateTripHealth _ _ _) as [[? ?]|]; exact Hd.
  - apply initData_consistent. exact Hd.
  - apply logBooking_consistent. exact Hd.
  - unfold fetchNewBookings. destruct (_ <? _)%Z; [exact Hd|].
    destruct (readData disk); exact Hd.
  - apply deleteTrip_consistent. exact Hd.
  - apply resetData_consistent. exact Hd.
Qed.

Lemma serveAll_consistent (d : Q -> Q -> Q -> Q -> Q -> bool)
    (requests : list (Request * World * Chance)) :
  forall disk, consistentDisk disk -> consistentDisk (serveAll d requests disk).
Proof.
  induction requests as [|[[request w] c] rest IH]; intros disk Hd;
    [exact Hd|].
  cbn [serveAll]. apply IH. apply serve_consistent. exact Hd.
Qed.

Section ComponentFacts.

Variable d : Q -> Q -> Q -> Q -> Q -> bool.
Hypothesis Hsym : forall a b c e r, d a b c e r = d c e a b r.

Lemma chained_incl (points : list Point) (g g' : list nat) (i j : nat) :
  incl g g' -> chained d points g i j -> chained d points g' i j.
Proof.
  intros Hincl H. induction H as [Hi|j k _ IH Hk Hn].
  - apply chained_start. apply Hincl. exact Hi.
  - apply chained_step with j; auto.
Qed.

Lemma expandCluster_component (points : list Point) (s : nat) :
  forall u q V C I,
    unvisited (length points) V = u ->
    incl I V ->
    (forall j, In j q -> exists i, In i I /\ In j (Spec.neighbors d points i)) ->
    (forall i j, In i I -> In j (Spec.neighbors d points i) ->
                 In j V \/ In j q) ->
    (forall i, In i I -> chained d points I s i) ->
    exists added pts,
      expandCluster d points q V C I
        = Some (V ++ added, C ++ pts, I ++ added) /\
      pointsAt points added pts /\
      (forall j, In j added -> ~ In j V) /\
      NoDup added /\
      (forall i j, In i (I ++ added) -> In j (Spec.neighbors d points i) ->
                   In j (V ++ added)) /\
      (forall i, In i (I ++ added) -> chained d points (I ++ added) s i).
Proof.
  induction u as [u IHu] using lt_wf_ind.
  induction q as [|x q IHq]; intros V C I Hu HIV Hsrc Hpend Hchain.
  - exists [], []. rewrite expand_nil, !app_nil_r.
    repeat split; auto; try constructor.
    intros i j Hi Hj. destruct (Hpend i j Hi Hj) as [H|[]]. exact H.
  - destruct (Set_has Nat.eqb V x) eqn:Hx.
    + rewrite expand_visited by exact Hx.
      apply IHq; auto.
      * intros j Hj. apply Hsrc. right. exact Hj.
      * intros i j Hi Hj. destruct (Hpend i j Hi Hj) as [H|[<-|H]]; auto.
        left. apply Set_has_In. exact Hx.
    + destruct (Hsrc x (or_introl eq_refl)) as (i0 & Hi0 & Hxi0).
      pose proof (neighbors_sym d Hsym points i0 x Hxi0) as Hi0x.
      assert (Hp : exists p, nth_error points x = Some p).
      { apply (linked_point d). unfold linked. intros E.
        rewrite E in Hi0x. contradiction. }
      destruct Hp as (p & Hp).
      rewrite expand_visit with (p := p) by assumption.
      rewrite (getNeighbors_spec d points x p Hp).
      assert (Hcore : isCore (Spec.neighbors d points x) = true).
      { apply isCore_linked. unfold linked. intros E.
        rewrite E in Hi0x. contradiction. }
      rewrite Hcore.
      assert (HxI : Set_has Nat.eqb I x = false).
      { apply Set_has_not_In. intros HI. apply HIV in HI.
        apply Set_has_not_In in Hx. contradiction. }
      rewrite (Set_add_new _ _ HxI).
      assert (Hlt : x < length points) by (apply nth_error_Some; congruence).
      assert (Hdec : unvisited (length points) (V ++ [x]) < u).
      { rewrite <- Hu, <- (Set_add_new _ _ Hx).
        apply unvisited_add; assumption. }
      set (q' := q ++ filter (fun idx => negb (Set_has Nat.eqb (V ++ [x]) idx))
                             (Spec.neighbors d points x)).
      assert (H1 : incl (I ++ [x]) (V ++ [x])).
      { intros i Hi. apply in_app_iff in Hi. apply in_app_iff.
        destruct Hi as [Hi|Hi]; [left; apply HIV; exact Hi|right; exact Hi]. }
      assert (H2 : forall j, In j q' ->
                 exists i, In i (I ++ [x]) /\ In j (Spec.neighbors d points i)).
      { intros j Hj. apply in_app_iff in Hj. destruct Hj as [Hj|Hj].
        - destruct (Hsrc j (or_intror Hj)) as (i & Hi & Hji).
          exists i. split; [apply in_app_iff; left; exact Hi|exact Hji].
        - apply filter_In in Hj. exists x.
          split; [apply in_app_iff; right; left; reflexivity|apply Hj]. }
      assert (H3 : forall i j, In i (I ++ [x]) ->
                 In j (Spec.neighbors d points i) ->
                 In j (V ++ [x]) \/ In j q').
      { intros i j Hi Hj. apply in_app_iff in Hi. destruct Hi as [Hi|[<-|[]]].
        - destruct (Hpend i j Hi Hj) as [H|[<-|H]].
          + left. apply in_app_iff. left. exact H.
          + left. apply in_app_iff. right. left. reflexivity.
          + right. apply in_app_iff. left. exact H.
        - destruct (Set_has Nat.eqb (V ++ [x]) j) eqn:Ej.
          + left. apply Set_has_In. exact Ej.
          + right. apply in_app_iff. right. apply filter_In.
            split; [exact Hj|]. rewrite Ej. reflexivity. }
      assert (H4 : forall i, In i (I ++ [x]) -> chained d points (I ++ [x]) s i).
      { intros i Hi. apply in_app_iff in Hi. destruct Hi as [Hi|[<-|[]]].
        - apply chained_incl with I; [|apply Hchain; exact Hi].
          intros k Hk. apply in_app_iff. left. exact Hk.
        - apply chained_step with i0.
          + apply chained_incl with I; [|apply Hchain; exact Hi0].
            intros k Hk. apply in_app_iff. left. exact Hk.
          + apply in_app_iff. right. left. reflexivity.
          + exact Hxi0. }
      destruct (IHu _ Hdec q' (V ++ [x]) (C ++ [p]) (I ++ [x]) eq_refl
                  H1 H2 H3 H4)
        as (added & pts & E & HF & Hnew & Hnd & Hclosed & Hch).
      exists (x :: added), (p :: pts).
      rewrite E, <- !app_assoc. cbn [app]. split; [reflexivity|].
      split; [constructor; assumption|]. split; [|split; [|split]].
      * intros j [<-|Hj]; [apply Set_has_not_In; exact Hx|].
        intros Hin. apply (Hnew j Hj). apply in_or_app. left. exact Hin.
      * constructor; [|exact Hnd].
        intros Hin. apply (Hnew x Hin). apply in_or_app. right. left.
        reflexivity.
      * intros i j Hi Hj. rewrite <- !app_assoc in Hclosed.
        apply (Hclosed i j); assumption.
      * intros i Hi. rewrite <- !app_assoc in Hch. apply Hch. exact Hi.
Qed.

Lemma chained_linked (points : list Point) (g : list nat) (s i : nat) :
  chained d points g s i -> linked d points s -> linked d points i.
Proof.
  intros H Hs. destruct H as [_|j k _ _ Hk]; [exact Hs|].
  apply (neighbor_linked d Hsym points j k Hk).
Qed.

Lemma pointsAt_lt (points : list Point) (g : list nat) (c : list Point) :
  pointsAt points g c -> forall j, In j g -> j < length points.
Proof.
  intros H. apply (Forall2_nth_error_In points g c H).
Qed.

Lemma scanPoint_component (points : list Point) (index : nat) (point : Point)
    (V : list nat) (groups : list (list nat)) (Cs : list (list Point)) :
  nth_error points index = Some point ->
  scanned d points index V groups Cs ->
  exists V' groups' Cs',
    scanPoint d points index point (V, Cs) = Some (V', Cs') /\
    scanned d points (S index) V' groups' Cs'.
Proof.
  intros Hp (HF & Hlt & Hall & Hnd & Hin & Hout & Hclosed & Hgroups).
  assert (Hi : index < length points) by (apply nth_error_Some; congruence).
  unfold scanPoint. destruct (Set_has Nat.eqb V index) eqn:Hv.
  { exists V, groups, Cs. split; [reflexivity|].
    repeat split; auto.
    - intros j Hj. destruct (Nat.eq_dec j index) as [->|Hne].
      + apply Set_has_In. exact Hv.
      + apply Hall. lia.
    - apply Hin. assumption.
    - apply Hin. assumption. }
  rewrite (Set_add_new _ _ Hv).
  rewrite (getNeighbors_spec d points index point Hp).
  assert (HnV : ~ In index V) by (apply Set_has_not_In; exact Hv).
  destruct (isCore (Spec.neighbors d points index)) eqn:Hcore.
  - apply (isCore_linked d) in Hcore.
    destruct (expandCluster_component points index
                (unvisited (length points) (V ++ [index]))
                (Spec.neighbors d points index) (V ++ [index]) [point] [index]
                eq_refl)
      as (added & pts & E & Hpts & Hnew & Hnda & Hcl & Hch).
    + intros i [<-|[]]. apply in_app_iff. right. left. reflexivity.
    + intros j Hj. exists index. split; [left; reflexivity|exact Hj].
    + intros i j [<-|[]] Hj. right. exact Hj.
    + intros i [<-|[]]. apply chained_start. left. reflexivity.
    + rewrite E. cbn [app] in *.
      exists ((V ++ [index]) ++ added), (groups ++ [index :: added]),
             (Cs ++ [point :: pts]).
      split; [reflexivity|].
      assert (Hg_notV : forall i, In i (index :: added) -> ~ In i V).
      { intros i [<-|Hi']; [exact HnV|]. intros HiV.
        apply (Hnew i Hi'). apply in_app_iff. left. exact HiV. }
      assert (Hg_linked : forall i, In i (index :: added) -> linked d points i).
      { intros i Hi'. apply chained_linked with (index :: added) index;
          [apply Hch; exact Hi'|exact Hcore]. }
      assert (Hg_closed : closed d points (index :: added)).
      { intros i j Hi' Hj.
        specialize (Hcl i j Hi' Hj).
        rewrite <- app_assoc in Hcl. cbn [app] in Hcl.
        apply in_app_iff in Hcl. destruct Hcl as [HjV|Hjg]; [|exact Hjg].
        exfalso. apply (Hg_notV i Hi').
        apply (Hclosed j i HjV).
        apply (neighbors_sym d Hsym points i j Hj). }
      repeat split.
      * apply Forall2_app; [exact HF|].
        constructor; [|constructor]. constructor; assumption.
      * intros j Hj. rewrite <- app_assoc in Hj. cbn [app] in Hj.
        apply in_app_iff in Hj. destruct Hj as [Hj|[<-|Hj]]; auto.
        apply (pointsAt_lt points added pts Hpts). exact Hj.
      * intros j Hj. rewrite <- app_assoc. cbn [app]. apply in_app_iff.
        destruct (Nat.eq_dec j index) as [->|Hne].
        -- right. left. reflexivity.
        -- left. apply Hall. lia.
      * rewrite concat_app. cbn [concat]. rewrite app_nil_r.
        apply NoDup_app; [exact Hnd| |].
        -- constructor; [|exact Hnda].
           intros Hia. apply (Hnew index Hia). apply in_app_iff. right.
           left. reflexivity.
        -- intros i Hi1 Hi2. apply (Hg_notV i Hi2). apply Hin. exact Hi1.
      * rewrite concat_app in H. cbn [concat] in H. rewrite app_nil_r in H.
        rewrite <- app_assoc. cbn [app].
        apply in_app_iff in H. apply in_app_iff.
        destruct H as [H|H]; [left; apply Hin; exact H|right; exact H].
      * rewrite concat_app in H. cbn [concat] in H. rewrite app_nil_r in H.
        apply in_app_iff in H.
        destruct H as [H|H]; [apply Hin; exact H|apply Hg_linked; exact H].
      * intros i Hi'. rewrite concat_app. cbn [concat]. rewrite app_nil_r.
        rewrite <- app_assoc in Hi'. cbn [app] in Hi'.
        apply in_app_iff in Hi'. destruct Hi' as [Hi'|Hi'].
        -- destruct (Hout i Hi') as [H|H]; [|right; exact H].
           left. apply in_app_iff. left. exact H.
        -- left. apply in_app_iff. right. exact Hi'.
      * intros i j Hi' Hj. rewrite <- app_assoc in *. cbn [app] in *.
        apply in_app_iff in Hi'. destruct Hi' as [Hi'|Hi'].
        -- apply in_app_iff. left. apply (Hclosed i j Hi' Hj).
        -- apply in_app_iff. right. apply (Hg_closed i j Hi' Hj).
      * apply Forall_app. split; [exact Hgroups|].
        constructor; [|constructor].
        split; [discriminate|]. split; [exact Hg_closed|].
        cbn [hd]. exact Hch.
  - assert (Hnl : ~ linked d points index).
    { intros Hl. apply (isCore_linked d) in Hl. congruence. }
    exists (V ++ [index]), groups, Cs. split; [reflexivity|].
    repeat split; auto.
    + intros j Hj. apply in_app_iff in Hj. destruct Hj as [Hj|[<-|[]]]; auto.
    + intros j Hj. apply in_app_iff.
      destruct (Nat.eq_dec j index) as [->|Hne].
      * right. left. reflexivity.
      * left. apply Hall. lia.
    + apply in_app_iff. left. apply Hin. assumption.
    + apply Hin. assumption.
    + intros i Hi'. apply in_app_iff in Hi'.
      destruct Hi' as [Hi'|[<-|[]]]; [apply Hout; exact Hi'|right; exact Hnl].
    + intros i j Hi' Hj. apply in_app_iff in Hi'. apply in_app_iff.
      destruct Hi' as [Hi'|[<-|[]]].
      * left. apply (Hclosed i j Hi' Hj).
      * exfalso. apply Hnl. unfold linked. intros E. rewrite E in Hj.
        contradiction.
Qed.

Lemma scanFrom_component (points : list Point) :
  forall rest pre V groups Cs,
    points = pre ++ rest ->
    scanned d points (length pre) V groups Cs ->
    exists V' groups' Cs',
      scanFrom d points (length pre) rest (V, Cs) = Some (V', Cs') /\
      scanned d points (length points) V' groups' Cs'.
Proof.
  induction rest as [|point rest IH]; intros pre V groups Cs Hsplit Hinv.
  - exists V, groups, Cs. split; [reflexivity|].
    rewrite app_nil_r in Hsplit. subst pre. exact Hinv.
  - cbn [scanFrom].
    assert (Hp : nth_error points (length pre) = Some point).
    { rewrite Hsplit, nth_error_app2, Nat.sub_diag by lia. reflexivity. }
    destruct (scanPoint_component _ _ _ _ _ _ Hp Hinv)
      as (V1 & groups1 & Cs1 & E & Hinv1).
    rewrite E.
    destruct (IH (pre ++ [point]) V1 groups1 Cs1) as (V2 & g2 & Cs2 & E2 & Hinv2).
    { rewrite <- app_assoc. exact Hsplit. }
    { rewrite length_app, Nat.add_1_r. exact Hinv1. }
    rewrite length_app, Nat.add_1_r in E2.
    exists V2, g2, Cs2. split; assumption.
Qed.

(** The clusters of a trip's points, as groups of indices. *)
Lemma dbscan_groups (points : list Point) :
  exists groups clusters,
    dbscan d points = Some clusters /\
    Forall2 (pointsAt points) groups clusters /\
    NoDup (concat groups) /\
    (forall i, In i (concat groups) <-> linked d points i) /\
    Forall (fun g => g <> [] /\ closed d points g /\
                     forall i, In i g -> chained d points g (hd 0 g) i)
           groups.
Proof.
  destruct (scanFrom_component points points [] [] [] [] eq_refl)
    as (V & groups & Cs & E & HF & Hlt & Hall & Hnd & Hin & Hout & _ & Hg).
  { unfold scanned. split; [constructor|]. split; [intros j []|].
    split; [intros j Hj; cbn in Hj; lia|]. split; [constructor|].
    split; [intros i []|]. split; [intros i []|].
    split; [intros i j []|constructor]. }
  exists groups, Cs. unfold dbscan. cbn [length] in E. rewrite E.
  split; [reflexivity|]. split; [exact HF|]. split; [exact Hnd|].
  split; [|exact Hg].
  intros i. split; [apply Hin|].
  intros Hl. destruct (linked_point d points i Hl) as (p & Hp).
  assert (Hi : i < length points) by (apply nth_error_Some; congruence).
  destruct (Hout i (Hall i Hi)) as [H|H]; [exact H|contradiction].
Qed.

End ComponentFacts.

(** ** Which trips get a cluster *)

Lemma insertIndexKey_keeps (n : N) (k : string) (l : list (N * string))
    (x : N * string) :
  x = (n, k) \/ In x l -> In x (insertIndexKey n k l).
Proof.
  induction l as [|[m k'] l IH]; cbn [insertIndexKey].
  - intros [->|[]]. left. reflexivity.
  - destruct (n <=? m)%N; cbn [In].
    + intros [->|H]; auto.
    + intros [->|[H|H]]; auto.
Qed.

Lemma indexKeys_has (keys : list string) (k : string) (n : N) :
  In k keys -> arrayIndex k = Some n -> In k (map snd (indexKeys keys)).
Proof.
  intros Hin Hn. induction keys as [|k0 keys IH]; [contradiction|].
  cbn [indexKeys]. destruct Hin as [->|Hin].
  - rewrite Hn. apply in_map_iff. exists (n, k). split; [reflexivity|].
    apply insertIndexKey_keeps. left. reflexivity.
  - specialize (IH Hin). destruct (arrayIndex k0) as [m|]; [|exact IH].
    apply in_map_iff in IH. destruct IH as (x & Hx & Hin').
    apply in_map_iff. exists x. split; [exact Hx|].
    apply insertIndexKey_keeps. right. exact Hin'.
Qed.

(** Every own key of an object is among its [Object.keys]. *)
Lemma Object_keys_has {V} (o : obj V) (k : string) (v : V) :
  obj_get o k = Some v -> In k (Object_keys o).
Proof.
  intros H. apply obj_get_Some_In in H.
  assert (Hk : In k (map fst o)) by (apply in_map_iff; exists (k, v); auto).
  unfold Object_keys. apply in_app_iff.
  destruct (arrayIndex k) as [n|] eqn:E.
  - left. apply indexKeys_has with n; assumption.
  - right. apply filter_In. split; [exact Hk|]. rewrite E. reflexivity.
Qed.

Section EntryFacts.

Variable d : Q -> Q -> Q -> Q -> Q -> bool.

(** The callback stores a record when the trip has two recent pings or
    more, a cluster among them, and a centre for the largest. *)
Lemma processTrip_emits (bookingsByTrip : obj (list Booking))
    (totals : obj (list string)) (k : string) (recent : list Booking)
    (cs : list (list Point)) (largest : list Point) (center' : Center)
    (results : obj Cluster) (w : World) :
  obj_get bookingsByTrip k = Some recent ->
  MINIMUM_CLUSTER_SIZE <= length recent ->
  dbscan d (map toPoint recent) = Some cs ->
  reduceLargest cs = Some largest ->
  calculateWeightedCenter largest = Some center' ->
  processTrip d bookingsByTrip totals k results w =
    Some (obj_set results k
            (clusterRecord totals k largest center' (tick w (reads w))),
          mkWorld (tick w) (S (reads w))).
Proof.
  intros Hget Hlen Hcs Hl Hc. unfold processTrip. rewrite Hget.
  apply Nat.ltb_ge in Hlen. rewrite Hlen, Hcs.
  destruct cs as [|first rest]; [discriminate Hl|].
  cbn [length Nat.ltb Nat.leb]. rewrite Hl, Hc. reflexivity.
Qed.

Lemma obj_set_keeps {V} (o : obj V) (k k' : string) (v : V) :
  (exists c, obj_get o k' = Some c) ->
  exists c, obj_get (obj_set o k v) k' = Some c.
Proof.
  intros (c & Hc). destruct (string_dec k k') as [->|Hne].
  - exists v. apply obj_get_set_same.
  - exists c. rewrite obj_get_set_other by exact Hne. exact Hc.
Qed.

(** The loop over the trips never drops a record, and stores one for every
    key that has a cluster with a centre. *)
Lemma forEachIO_entries (bookingsByTrip : obj (list Booking))
    (totals : obj (list string)) (keys : list string) :
  forall (results results' : obj Cluster) (w w' : World) (k : string),
    forEachIO keys (processTrip d bookingsByTrip totals) results w
      = Some (results', w') ->
    (exists c, obj_get results k = Some c) \/
    (In k keys /\
     exists recent cs largest center',
       obj_get bookingsByTrip k = Some recent /\
       MINIMUM_CLUSTER_SIZE <= length recent /\
       dbscan d (map toPoint recent) = Some cs /\
       reduceLargest cs = Some largest /\
       calculateWeightedCenter largest = Some center') ->
    exists c, obj_get results' k = Some c.
Proof.
  induction keys as [|k0 keys IH]; intros results results' w w' k Hrun Hk.
  - cbn in Hrun. injection Hrun as <- <-.
    destruct Hk as [Hk|([] & _)]. exact Hk.
  - cbn [forEachIO] in Hrun. unfold bind at 1 in Hrun.
    destruct (processTrip d bookingsByTrip totals k0 results w)
      as [[results1 w1]|] eqn:E1; [|discriminate Hrun].
    apply (IH results1 results' w1 w' k Hrun).
    assert (Hkeep : (exists c, obj_get results k = Some c) ->
                    exists c, obj_get results1 k = Some c).
    { intros Hc. unfold processTrip in E1.
      destruct (obj_get bookingsByTrip k0); [|discriminate E1].
      destruct (_ <? _); [injection E1 as <- <-; exact Hc|].
      destruct (dbscan _ _); [|discriminate E1].
      destruct (0 <? _); [|injection E1 as <- <-; exact Hc].
      destruct (reduceLargest _); [|discriminate E1].
      destruct (calculateWeightedCenter _);
        [|injection E1 as <- <-; exact Hc].
      cbn in E1. injection E1 as <- <-. apply obj_set_keeps. exact Hc. }
    destruct Hk as [Hk|([<-|Hin] & Hemit)].
    + left. apply Hkeep. exact Hk.
    + left.
      destruct Hemit as (recent & cs & largest & center' & H1 & H2 & H3 & H4 & H5).
      rewrite (processTrip_emits _ _ _ _ _ _ _ _ _ H1 H2 H3 H4 H5) in E1.
      injection E1 as <- <-. eexists. apply obj_get_set_same.
    + right. split; assumption.
Qed.

End EntryFacts.

Section PairFacts.

Variable d : Q -> Q -> Q -> Q -> Q -> bool.
Hypothesis Hsym : forall a b c e r, d a b c e r = d c e a b r.

Lemma linked_pair (recent : list Booking) (i : nat) :
  linked d (map toPoint recent) i <->
  exists j p q,
    i <> j /\ nth_error recent i = Some p /\ nth_error recent j = Some q /\
    Spec.near d (toPoint p) (toPoint q) = true.
Proof.
  unfold linked. split.
  - intros H. destruct (Spec.neighbors d (map toPoint recent) i) as [|j l] eqn:E;
      [congruence|].
    assert (Hj : In j (Spec.neighbors d (map toPoint recent) i))
      by (rewrite E; left; reflexivity).
    apply neighbors_In in Hj. destruct Hj as (Hne & p' & q' & Hp & Hq & Hnear).
    rewrite nth_error_map in Hp, Hq.
    destruct (nth_error recent i) as [p|] eqn:Ep; [|discriminate Hp].
    destruct (nth_error recent j) as [q|] eqn:Eq; [|discriminate Hq].
    injection Hp as <-. injection Hq as <-.
    exists j, p, q. auto.
  - intros (j & p & q & Hne & Hp & Hq & Hnear) E.
    assert (Hj : In j (Spec.neighbors d (map toPoint recent) i)).
    { apply neighbors_In. split; [exact Hne|].
      exists (toPoint p), (toPoint q). rewrite !nth_error_map, Hp, Hq. auto. }
    rewrite E in Hj. contradiction.
Qed.

Lemma near_located (p q : Point) (rest : list Point) :
  Spec.near d p q = true -> Spec.located (p :: rest) <> [].
Proof.
  unfold Spec.near, Spec.located. cbn [flat_map].
  destruct (coord (p_lat p)); [|discriminate].
  destruct (coord (p_lng p)); [|discriminate].
  intros _. discriminate.
Qed.

(** The largest cluster of a trip's points has a centre. *)
Lemma largest_has_center (points : list Point) (cs : list (list Point))
    (largest : list Point) :
  dbscan d points = Some cs -> reduceLargest cs = Some largest ->
  exists center', calculateWeightedCenter largest = Some center'.
Proof.
  intros Hcs Hl.
  destruct (dbscan_groups d Hsym points)
    as (groups & cs' & Hcs' & HF & _ & Hlinked & Hg).
  rewrite Hcs in Hcs'. injection Hcs' as <-.
  apply reduceLargest_In in Hl.
  assert (Hgl : exists g, In g groups /\ pointsAt points g largest).
  { clear - HF Hl. induction HF as [|g c gs cs Hgc _ IH]; [contradiction|].
    destruct Hl as [->|Hl].
    - exists g. split; [left; reflexivity|exact Hgc].
    - destruct (IH Hl) as (g' & Hg' & Hp). exists g'. split; [right|]; auto. }
  destruct Hgl as (g & Hgin & Hpts).
  rewrite Forall_forall in Hg. destruct (Hg g Hgin) as (Hne & _ & _).
  destruct Hpts as [|s p g' largest' Hsp _]; [congruence|].
  assert (Hs : linked d points s).
  { apply Hlinked. apply in_concat. exists (s :: g').
    split; [exact Hgin|left; reflexivity]. }
  unfold linked in Hs.
  destruct (Spec.neighbors d points s) as [|j l] eqn:E; [congruence|].
  assert (Hj : In j (Spec.neighbors d points s)) by (rewrite E; left; reflexivity).
  apply neighbors_In in Hj. destruct Hj as (_ & p' & q & Hp' & _ & Hnear).
  rewrite Hsp in Hp'. injection Hp' as <-.
  destruct (calculateWeightedCenter (p :: largest')) as [c|] eqn:Ec; [eauto|].
  apply weighted_center_none in Ec.
  exfalso. apply (near_located p q largest' Hnear). exact Ec.
Qed.

Lemma calculateClusters_run (bookings : list Booking) (trips : list Trip)
    (w : World) :
  (forall b, In b bookings -> inheritedKey (tripCode b) = false) ->
  let recentBookings :=
    filter (isRecent (cutoffAt (tick w (reads w)))) bookings in
  let bookingsByTrip := fold_left addToTrip recentBookings [] in
  calculateClusters d bookings trips w =
  forEachIO (Object_keys bookingsByTrip)
    (processTrip d bookingsByTrip (fold_left addRider bookings []))
    [] (mkWorld (tick w) (S (reads w))).
Proof.
  intros Hclean. cbv zeta. unfold calculateClusters, bind. cbn [Date_now].
  fold (cutoffAt (tick w (reads w))).
  set (recentBookings := filter _ bookings).
  unfold groupByTrip, countRiders.
  rewrite (existsb_none _ (fun _ => true) recentBookings).
  2:{ intros b Hb. apply filter_In in Hb. apply Hclean. apply Hb. }
  rewrite (existsb_none _ (fun _ => true) bookings).
  2:{ intros b Hb. rewrite (Hclean b Hb). apply andb_false_r. }
  reflexivity.
Qed.

Lemma recent_group (now : Z) (bookings : list Booking) (k : string) :
  recentOf now bookings k <> [] ->
  obj_get (fold_left addToTrip (filter (isRecent (cutoffAt now)) bookings) [])
          k = Some (recentOf now bookings k).
Proof.
  intros H. rewrite bookingsByTrip_get. unfold recentOf in *.
  destruct (filter _ (filter _ bookings)); [congruence|reflexivity].
Qed.

Lemma clusters_entries (bookings : list Booking) (trips : list Trip)
    (w : World) :
  (forall b, In b bookings -> inheritedKey (tripCode b) = false) ->
  exists out,
    result (calculateClusters d bookings trips w) = Some out /\
    forall k,
      (exists c, obj_get out k = Some c) <->
      closePair d (tick w (reads w)) bookings k.
Proof.
  intros Hclean.
  destruct (calculateClusters_returns d bookings trips w Hclean) as (out & Hout).
  exists out. split; [exact Hout|]. intros k.
  set (now := tick w (reads w)). split.
  - intros (c & Hc).
    destruct (calculateClusters_emitted d bookings trips w out k c Hout Hc)
      as (cs & largest & center' & t & _ & Hcs & Hl & _ & _).
    fold now in Hcs.
    destruct (dbscan_groups d Hsym (map toPoint (recentOf now bookings k)))
      as (groups & cs' & Hcs' & HF & _ & Hlinked & Hg).
    rewrite Hcs in Hcs'. injection Hcs' as <-.
    destruct cs as [|c0 cs]; [discriminate Hl|].
    inversion HF as [|g ? gs ? Hgc _]; subst.
    rewrite Forall_forall in Hg.
    destruct (Hg g (or_introl eq_refl)) as (Hne & _ & _).
    destruct g as [|s g]; [congruence|].
    assert (Hs : linked d (map toPoint (recentOf now bookings k)) s).
    { apply Hlinked. cbn [concat]. left. reflexivity. }
    apply linked_pair in Hs. destruct Hs as (j & p & q & H).
    exists s, j, p, q. exact H.
  - intros (i & j & p & q & Hne & Hp & Hq & Hnear).
    apply result_Some in Hout. destruct Hout as (w' & Hrun).
    rewrite calculateClusters_run in Hrun by exact Hclean.
    fold now in Hrun.
    apply (forEachIO_entries d _ _ _ _ _ _ _ k Hrun).
    right.
    assert (Hnonempty : recentOf now bookings k <> []).
    { intros E. rewrite E in Hp. destruct i; discriminate Hp. }
    pose proof (recent_group now bookings k Hnonempty) as Hget.
    split; [apply Object_keys_has with (recentOf now bookings k); exact Hget|].
    destruct (dbscan_groups d Hsym (map toPoint (recentOf now bookings k)))
      as (groups & cs & Hcs & HF & _ & Hlinked & _).
    assert (Hi : linked d (map toPoint (recentOf now bookings k)) i).
    { apply linked_pair. exists j, p, q. auto. }
    apply Hlinked in Hi.
    assert (Hcs_ne : cs <> []).
    { destruct HF; [contradiction|discriminate]. }
    destruct cs as [|first rest]; [congruence|].
    destruct (largest_has_center _ _ (fold_left largerOf rest first) Hcs eq_refl)
      as (center' & Hc).
    exists (recentOf now bookings k), (first :: rest),
           (fold_left largerOf rest first), center'.
    repeat split; auto.
    assert (Hi' : i < length (recentOf now bookings k))
      by (apply nth_error_Some; congruence).
    assert (Hj' : j < length (recentOf now bookings k))
      by (apply nth_error_Some; congruence).
    unfold MINIMUM_CLUSTER_SIZE.
    destruct (recentOf now bookings k) as [|a [|b l]]; cbn [length] in *; lia.
Qed.

End PairFacts.

(** ** The emitted cluster *)

(** C3. When the recent pings of a trip yield clusters, whatever their
    number, [calculateClusters] returns a result with a record for the trip,
    and the record is that of the first cluster of maximum size in discovery
    order: every cluster found before it is strictly smaller, none found
    after it is larger.  The distance test is symmetric and no trip code
    names a property of [Object.prototype]. *)
Theorem emitted_cluster_is_first_largest
    (d : Q -> Q -> Q -> Q -> Q -> bool) (bookings : list Booking)
    (trips : list Trip) (w : World) (k : string)
    (clusters : list (list Point)) :
  (forall a b c e r, d a b c e r = d c e a b r) ->
  (forall b, In b bookings -> inheritedKey (tripCode b) = false) ->
  dbscan d (map toPoint (recentOf (tick w (reads w)) bookings k))
    = Some clusters ->
  clusters <> [] ->
  exists out c before largest after,
    result (calculateClusters d bookings trips w) = Some out /\
    obj_get out k = Some c /\
    clusters = before ++ largest :: after /\
    (forall x, In x before -> length x < length largest) /\
    (forall x, In x after -> length x <= length largest) /\
    riderCount c = length largest /\
    riders c = map p_riderId largest.
Proof.
  intros Hsym Hclean Hcs Hne.
  set (now := tick w (reads w)) in *.
  destruct clusters as [|first rest]; [congruence|]. clear Hne.
  destruct (largest_has_center d Hsym _ _ (fold_left largerOf rest first)
              Hcs eq_refl) as (center' & Hcenter).
  assert (Hsize : MINIMUM_CLUSTER_SIZE <= length (recentOf now bookings k)).
  { unfold MINIMUM_CLUSTER_SIZE.
    destruct (recentOf now bookings k) as [|a [|b l]]; cbn [length]; try lia.
    - discriminate Hcs.
    - cbn [map] in Hcs. rewrite dbscan_one_point in Hcs. discriminate Hcs. }
  assert (Hrecent : recentOf now bookings k <> []).
  { intros E. rewrite E in Hsize. unfold MINIMUM_CLUSTER_SIZE in Hsize.
    cbn in Hsize. lia. }
  pose proof (recent_group now bookings k Hrecent) as Hget.
  destruct (calculateClusters_returns d bookings trips w Hclean)
    as (out & Hout).
  assert (Hc : exists c, obj_get out k = Some c).
  { pose proof Hout as Hrun. apply result_Some in Hrun.
    destruct Hrun as (w' & Hrun).
    rewrite (calculateClusters_run d) in Hrun by exact Hclean.
    fold now in Hrun.
    apply (forEachIO_entries d _ _ _ _ _ _ _ k Hrun). right.
    split; [apply Object_keys_has with (recentOf now bookings k); exact Hget|].
    exists (recentOf now bookings k), (first :: rest),
           (fold_left largerOf rest first), center'.
    repeat split; assumption. }
  destruct Hc as (c & Hc).
  destruct (calculateClusters_emitted d bookings trips w out k c Hout Hc)
    as (cs & largest & center'' & t & _ & Hcs' & Hl & _ & ->).
  fold now in Hcs'. rewrite Hcs in Hcs'. injection Hcs' as <-.
  injection Hl as <-.
  destruct (reduceLargest_first_maximum first rest)
    as (before & after & Heq & Hb & Ha).
  exists out, (clusterRecord (fold_left addRider bookings []) k
                 (fold_left largerOf rest first) center'' t),
         before, (fold_left largerOf rest first), after.
  repeat split; assumption.
Qed.

(** On the two places: trip T1 has two clusters of two riders, and the
    first is emitted; trip T2 has a cluster of two and then one of three,
    and the second is emitted. *)
Lemma emitted_cluster_is_first_largest_witness :
  (forall a b c e r,
     Haversine.within a b c e r = Haversine.within c e a b r) /\
  (forall b, In b twoPlaces -> inheritedKey (tripCode b) = false) /\
  option_map (map (map p_riderId))
    (dbscan Haversine.within (map toPoint (recentOf sampleNow twoPlaces "T1")))
    = Some [["R1"; "R3"]; ["R2"; "R4"]] /\
  option_map (map (map p_riderId))
    (dbscan Haversine.within (map toPoint (recentOf sampleNow twoPlaces "T2")))
    = Some [["R5"; "R8"]; ["R6"; "R7"; "R9"]] /\
  exists out c1 c2,
    result (calculateClusters Haversine.within twoPlaces [] (clockAt sampleNow))
      = Some out /\
    obj_get out "T1" = Some c1 /\ riders c1 = ["R1"; "R3"] /\
    obj_get out "T2" = Some c2 /\ riders c2 = ["R6"; "R7"; "R9"].
Proof.
  assert (Hclean : forall b, In b twoPlaces -> inheritedKey (tripCode b) = false).
  { intros b Hb. vm_compute in Hb.
    repeat (destruct Hb as [<-|Hb]; [reflexivity|]). contradiction. }
  assert (Hsame : forall k,
            dbscan Haversine.within (map toPoint (recentOf sampleNow twoPlaces k))
            = dbscan samePlace (map toPoint (recentOf sampleNow twoPlaces k))).
  { intros k. apply dbscan_same.
    apply sameTest_incl with (map toPoint twoPlaces); [|exact within_twoPlaces].
    intros p Hp. apply in_map_iff in Hp. destruct Hp as (b & <- & Hb).
    apply in_map. unfold recentOf in Hb. apply filter_In in Hb.
    destruct Hb as (Hb & _). apply filter_In in Hb. apply Hb. }
  assert (H1 : dbscan Haversine.within
                 (map toPoint (recentOf sampleNow twoPlaces "T1"))
               = Some [map toPoint [atOrigin "T1" "R1"; atOrigin "T1" "R3"];
                       map toPoint [atQuarter "T1" "R2"; atQuarter "T1" "R4"]]).
  { rewrite Hsame. vm_compute. reflexivity. }
  assert (H2 : dbscan Haversine.within
                 (map toPoint (recentOf sampleNow twoPlaces "T2"))
               = Some [map toPoint [atOrigin "T2" "R5"; atOrigin "T2" "R8"];
                       map toPoint [atQuarter "T2" "R6"; atQuarter "T2" "R7";
                                    atQuarter "T2" "R9"]]).
  { rewrite Hsame. vm_compute. reflexivity. }
  split; [exact within_sym|]. split; [exact Hclean|].
  split; [rewrite H1; reflexivity|]. split; [rewrite H2; reflexivity|].
  destruct (emitted_cluster_is_first_largest Haversine.within twoPlaces []
              (clockAt sampleNow) "T1" _ within_sym Hclean H1)
    as (out & c1 & before1 & largest1 & after1 & Hout & Hc1 & Heq1 & Hb1 & Ha1
        & _ & Hr1); [discriminate|].
  destruct (emitted_cluster_is_first_largest Haversine.within twoPlaces []
              (clockAt sampleNow) "T2" _ within_sym Hclean H2)
    as (out' & c2 & before2 & largest2 & after2 & Hout' & Hc2 & Heq2 & Hb2 & Ha2
        & _ & Hr2); [discriminate|].
  rewrite Hout in Hout'. injection Hout' as <-.
  exists out, c1, c2. split; [exact Hout|]. split; [exact Hc1|].
  split; [|split; [exact Hc2|]].
  - rewrite Hr1. destruct before1 as [|x [|y before1]].
    + injection Heq1 as <- _. reflexivity.
    + injection Heq1 as <- <- _.
      specialize (Hb1 _ (or_introl eq_refl)). cbn in Hb1. lia.
    + destruct before1; discriminate Heq1.
  - rewrite Hr2. destruct before2 as [|x [|y before2]].
    + injection Heq2 as <- <-.
      specialize (Ha2 _ (or_introl eq_refl)). cbn in Ha2. lia.
    + injection Heq2 as <- <- _. reflexivity.
    + destruct before2; discriminate Heq2.
Defined.

(** ** The health of a trip, for any timestamps *)

Lemma latestOf_afterEpoch (l : list Booking) :
  forall (m : Z) (s : option jsdate),
    (0 <= m)%Z ->
    fold_left latestOf l (m, s) = fold_left latestOf (filter afterEpoch l) (m, s).
Proof.
  induction l as [|b l IH]; intros m s Hm; [reflexivity|].
  cbn [fold_left filter]. unfold afterEpoch at 1.
  destruct (timestamp b) as [|raw|t] eqn:Et.
  - cbn [fold_left]. unfold latestOf at 2 4. rewrite Et. cbn. apply IH. exact Hm.
  - cbn [fold_left]. unfold latestOf at 2 4. rewrite Et. cbn. apply IH. exact Hm.
  - destruct (0 <? t)%Z eqn:Ept.
    + cbn [fold_left]. unfold latestOf at 2 4. rewrite Et. cbn.
      apply Z.ltb_lt in Ept.
      destruct (m <? t)%Z; apply IH; lia.
    + unfold latestOf at 2. rewrite Et. cbn.
      apply Z.ltb_ge in Ept.
      replace (m <? t)%Z with false by (symmetry; apply Z.ltb_ge; lia).
      apply IH. exact Hm.
Qed.

Lemma filter_comm {A} (f g : A -> bool) (l : list A) :
  filter f (filter g l) = filter g (filter f l).
Proof.
  induction l as [|x l IH]; [reflexivity|].
  cbn [filter]. destruct (f x) eqn:Ef, (g x) eqn:Eg; cbn [filter];
    rewrite ?Ef, ?Eg, IH; reflexivity.
Qed.

Lemma healthEntry_afterEpoch (now : Z) (bookings : list Booking) (k : string) :
  tierOf (healthEntry now bookings k)
  = tierOf (healthEntry now (filter afterEpoch bookings) k).
Proof.
  unfold healthEntry. rewrite (filter_comm _ afterEpoch).
  set (tb := filter _ bookings).
  rewrite (latestOf_afterEpoch tb 0 None) by lia.
  destruct (length tb =? 0) eqn:E.
  - apply Nat.eqb_eq in E. destruct tb; [|discriminate E]. reflexivity.
  - destruct (length (filter afterEpoch tb) =? 0) eqn:E'; [|reflexivity].
    apply Nat.eqb_eq in E'. destruct (filter afterEpoch tb); [|discriminate E'].
    reflexivity.
Qed.

Lemma validTimes_afterEpoch (bookings : list Booking) (k : string) (t : Z) :
  In t (Spec.validTimes k (filter afterEpoch bookings)) -> (0 < t)%Z.
Proof.
  unfold Spec.validTimes. rewrite in_flat_map. intros (b & Hb & Ht).
  apply filter_In in Hb. destruct Hb as (_ & Hb). unfold afterEpoch in Hb.
  destruct (String.eqb (tripCode b) k); [|contradiction].
  destruct (timestamp b) as [| |ms]; try contradiction.
  destruct Ht as [<-|[]]. apply Z.ltb_lt. exact Hb.
Qed.

Lemma health_tiers (bookings : list Booking) (trips : list Trip) (w : World) :
  exists out,
    result (calculateTripHealth bookings trips w) = Some out /\
    forall k,
      option_map tierOf (obj_get out k) =
      if registered trips k
      then Some (Spec.classify (tick w (reads w))
                               (filter afterEpoch bookings) k)
      else None.
Proof.
  rewrite calculateTripHealth_run. cbn [result option_map fst].
  eexists. split; [reflexivity|]. intros k.
  rewrite health_lookup. destruct (registered trips k); [|reflexivity].
  cbn [option_map]. rewrite healthEntry_afterEpoch.
  rewrite healthEntry_classify; [reflexivity|].
  apply validTimes_afterEpoch.
Qed.

(** ** Clusters over a consistent store *)

Lemma NoDup_pointsAt {B} (f : Point -> B) (points : list Point)
    (g : list nat) (c : list Point) :
  NoDup (map f points) -> NoDup g -> pointsAt points g c -> NoDup (map f c).
Proof.
  intros Hpoints Hg Hgc. induction Hgc as [|j p g c Hjp Hgc IH].
  - constructor.
  - inversion Hg as [|? ? Hj Hg']; subst. cbn [map].
    constructor; [|apply IH; exact Hg'].
    intros Hin. apply in_map_iff in Hin. destruct Hin as (q & Hq & Hqc).
    assert (Hi : exists i, In i g /\ nth_error points i = Some q).
    { clear - Hgc Hqc. induction Hgc as [|i p' g c Hip _ IH]; [contradiction|].
      destruct Hqc as [->|Hqc].
      - exists i. split; [left; reflexivity|exact Hip].
      - destruct (IH Hqc) as (i' & Hi' & Hn). exists i'. split; [right|]; auto. }
    destruct Hi as (i & Hig & Hiq).
    assert (i = j).
    { apply (proj1 (NoDup_nth_error (map f points)) Hpoints).
      - rewrite length_map. apply nth_error_Some. congruence.
      - rewrite !nth_error_map, Hiq, Hjp. cbn. rewrite Hq. reflexivity. }
    subst i. contradiction.
Qed.

Lemma keys_of_trip (k : string) (l : list Booking) :
  NoDup (map riderKey l) ->
  NoDup (map riderId (filter (fun b => String.eqb (tripCode b) k) l)).
Proof.
  induction l as [|b l IH]; cbn [map filter]; intros H; [constructor|].
  inversion H as [|? ? Hb Hl]; subst.
  destruct (String.eqb (tripCode b) k) eqn:E; [|apply IH; exact Hl].
  cbn [map]. constructor; [|apply IH; exact Hl].
  intros Hin. apply Hb. apply in_map_iff in Hin.
  destruct Hin as (b' & Hr & Hb'). apply filter_In in Hb'.
  destruct Hb' as (Hb' & E'). apply in_map_iff. exists b'.
  split; [|exact Hb']. unfold riderKey. apply String.eqb_eq in E, E'.
  congruence.
Qed.

Section SoundFacts.

Variable d : Q -> Q -> Q -> Q -> Q -> bool.
Hypothesis Hsym : forall a b c e r, d a b c e r = d c e a b r.

(** A group of the scan has two indices or more. *)
Lemma group_size (points : list Point) (g : list nat) :
  g <> [] -> closed d points g ->
  (forall i, In i g -> linked d points i) ->
  NoDup g -> 2 <= length g.
Proof.
  intros Hne Hclosed Hlinked Hnd.
  destruct g as [|s g]; [congruence|].
  assert (Hs : linked d points s) by (apply Hlinked; left; reflexivity).
  unfold linked in Hs.
  destruct (Spec.neighbors d points s) as [|j l] eqn:E; [congruence|].
  assert (Hj : In j (Spec.neighbors d points s)) by (rewrite E; left; reflexivity).
  pose proof (Hclosed s j (or_introl eq_refl) Hj) as Hjg.
  apply neighbors_In in Hj. destruct Hj as (Hsj & _).
  destruct Hjg as [->|Hjg]; [congruence|].
  destruct g; [contradiction|cbn [length]; lia].
Qed.

Lemma in_concat_group (groups : list (list nat)) (g : list nat) (i : nat) :
  In g groups -> In i g -> In i (concat groups).
Proof. intros Hg Hi. apply in_concat. exists g. auto. Qed.

Lemma NoDup_concat_group (groups : list (list nat)) (g : list nat) :
  NoDup (concat groups) -> In g groups -> NoDup g.
Proof.
  induction groups as [|g0 groups IH]; [contradiction|].
  cbn [concat]. intros Hnd [->|Hg].
  - apply NoDup_app_remove_r in Hnd. exact Hnd.
  - apply IH; [|exact Hg]. apply NoDup_app_remove_l in Hnd. exact Hnd.
Qed.

Lemma Forall2_In_r {A B} (R : A -> B -> Prop) (l : list A) (l' : list B)
    (y : B) :
  Forall2 R l l' -> In y l' -> exists x, In x l /\ R x y.
Proof.
  induction 1 as [|x y' l l' Hxy _ IH]; [contradiction|].
  intros [->|Hy].
  - exists x. split; [left; reflexivity|exact Hxy].
  - destruct (IH Hy) as (x' & Hx' & HR). exists x'. split; [right|]; auto.
Qed.

(** The largest cluster of a trip: two points or more, at different places
    of the trip's list. *)
Lemma largest_group (points : list Point) (cs : list (list Point))
    (largest : list Point) :
  dbscan d points = Some cs -> reduceLargest cs = Some largest ->
  exists g, pointsAt points g largest /\ NoDup g /\ 2 <= length g.
Proof.
  intros Hcs Hl.
  destruct (dbscan_groups d Hsym points)
    as (groups & cs' & Hcs' & HF & Hnd & Hlinked & Hg).
  rewrite Hcs in Hcs'. injection Hcs' as <-.
  apply reduceLargest_In in Hl.
  destruct (Forall2_In_r _ _ _ _ HF Hl) as (g & Hgin & Hpts).
  rewrite Forall_forall in Hg. destruct (Hg g Hgin) as (Hne & Hclosed & _).
  pose proof (NoDup_concat_group groups g Hnd Hgin) as Hndg.
  exists g. split; [exact Hpts|]. split; [exact Hndg|].
  apply (group_size points g Hne Hclosed); [|exact Hndg].
  intros i Hi. apply Hlinked. apply in_concat_group with g; assumption.
Qed.

Lemma pointsAt_length (points : list Point) (g : list nat) (c : list Point) :
  pointsAt points g c -> length c = length g.
Proof. intros H. apply (Forall2_nth_error_In points g c H). Qed.

Lemma clusters_sound (data : Data) (w : World) :
  consistent data ->
  exists out,
    result (calculateClusters d (bookings data) (map asTrip (trips data)) w)
      = Some out /\
    forall k c,
      obj_get out k = Some c ->
      In k (codes (trips data)) /\
      c_tripCode c = k /\
      totalRiders c
        = length (filter (fun b => String.eqb (tripCode b) k) (bookings data)) /\
      2 <= riderCount c <= totalRiders c /\
      (strength c ==
       inject_Z (Z.of_nat (riderCount c))
       / inject_Z (Z.of_nat (totalRiders c)))%Q /\
      length (riders c) = riderCount c /\
      NoDup (riders c).
Proof.
  intros [H1 H2 H3 H4 H5 H6].
  assert (Hclean : forall b, In b (bookings data) ->
                             inheritedKey (tripCode b) = false).
  { intros b Hb. apply standard_not_inherited. apply H2. apply H4. exact Hb. }
  destruct (calculateClusters_returns d _ (map asTrip (trips data)) w Hclean)
    as (out & Hout).
  exists out. split; [exact Hout|]. intros k c Hc.
  pose proof (calculateClusters_emitted d _ _ w out k c Hout Hc) as Hem.
  set (now := tick w (reads w)) in *.
  destruct Hem as (cs & largest & center' & t & Hlen & Hcs & Hl & Hcenter & ->).
  destruct (largest_group _ _ _ Hcs Hl) as (g & Hpts & Hndg & Hsize).
  pose proof (pointsAt_length _ _ _ Hpts) as Hlg.
  set (recent := recentOf now (bookings data) k) in *.
  set (ofTrip := filter (fun b => String.eqb (tripCode b) k) (bookings data)).
  assert (Hrecent_in : forall b, In b recent -> In b (bookings data) /\ tripCode b = k).
  { intros b Hb. unfold recent, recentOf in Hb. apply filter_In in Hb.
    destruct Hb as (Hb & E). apply filter_In in Hb.
    split; [apply Hb|apply String.eqb_eq; exact E]. }
  assert (Hb0 : exists b, In b recent).
  { destruct recent as [|b l]; [cbn in Hlen; unfold MINIMUM_CLUSTER_SIZE in Hlen; lia|].
    exists b. left. reflexivity. }
  destruct Hb0 as (b0 & Hb0). destruct (Hrecent_in b0 Hb0) as (Hb0in & Hb0k).
  assert (Hk : In k (codes (trips data))) by (rewrite <- Hb0k; apply H4; exact Hb0in).
  assert (Hkt : truthy k = true) by (apply H2; exact Hk).
  assert (Hnd : NoDup (map riderId ofTrip)) by (apply keys_of_trip; exact H3).
  assert (Hcounted : ridersCounted k (bookings data) = map riderId ofTrip).
  { apply ridersCounted_all; [exact Hkt|].
    intros b Hb _. apply H5. exact Hb. }
  assert (Htotal : totalRidersForThisTrip
                     (fold_left addRider (bookings data) []) k (length largest)
                   = length ofTrip).
  { rewrite totalRidersForThisTrip_counted, Hcounted.
    rewrite nodup_fixed_point by exact Hnd. rewrite length_map.
    assert (Hpos : 0 < length ofTrip).
    { assert (In b0 ofTrip).
      { apply filter_In. split; [exact Hb0in|]. apply String.eqb_eq. exact Hb0k. }
      destruct ofTrip; [contradiction|cbn [length]; lia]. }
    destruct (length ofTrip =? 0) eqn:E; [|reflexivity].
    apply Nat.eqb_eq in E. lia. }
  assert (Hle : length largest <= length ofTrip).
  { apply Nat.le_trans with (length recent).
    - rewrite Hlg. rewrite <- (length_map toPoint recent).
      apply NoDup_lt_length; [exact Hndg|].
      intros j Hj. apply (pointsAt_lt _ _ _ Hpts). exact Hj.
    - unfold recent, recentOf, ofTrip. apply filter_filter_length. }
  unfold clusterRecord.
  cbn [c_tripCode totalRiders riderCount strength riders].
  rewrite Htotal. split; [exact Hk|]. split; [reflexivity|].
  split; [reflexivity|]. split; [lia|]. split.
  - apply strength_exact; lia.
  - split; [apply length_map|].
    apply (NoDup_pointsAt p_riderId (map toPoint recent) g largest);
      [|exact Hndg|exact Hpts].
    rewrite map_map. cbn [toPoint p_riderId].
    change (map (fun x => riderId x) recent) with (map riderId recent).
    unfold recent, recentOf. rewrite filter_comm.
    apply NoDup_map_filter. exact Hnd.
Qed.

End SoundFacts.

(** ** What a write leaves on the disk *)

(** A write to a file that could be read leaves the data written. *)
Lemma writeData_read (data old : Data) (disk disk' : Disk) :
  readData disk = Some old ->
  writeData data disk = Some disk' ->
  readData disk' = Some data /\ readOnly disk' = false /\ readOnly disk = false.
Proof.
  unfold writeData, readData. intros Hread.
  destruct (readOnly disk) eqn:E; [discriminate|].
  intros [= <-]. cbn [file readOnly].
  destruct (file disk); try discriminate Hread; auto.
Qed.

Lemma writeData_writes (data old : Data) (disk : Disk) :
  readData disk = Some old -> readOnly disk = false ->
  writeData data disk = Some {| file := Holds data; readOnly := false |}.
Proof.
  unfold writeData, readData. intros Hread ->.
  destruct (file disk); try discriminate Hread; reflexivity.
Qed.

Lemma standard_eq_not_blank (s : string) (c : string) :
  standard c -> toUpperCase (trim s) = c -> blank s = false.
Proof.
  intros (Ht & _) E. unfold blank.
  destruct s as [|a s]; [subst c; discriminate Ht|].
  cbn [truthy negb orb].
  destruct (trim (String a s)) eqn:Etrim; [|reflexivity].
  subst c. discriminate Ht.
Qed.

Lemma createTrip_cases (tripCode' : option string) (disk : Disk) (w : World) :
  refused (createTrip tripCode' disk w) disk \/
  exists s data disk',
    tripCode' = Some s /\ blank s = false /\
    readData disk = Some data /\
    ~ In (toUpperCase (trim s)) (codes (trips data)) /\
    writeData {| bookings := bookings data;
                 trips := trips data ++
                          [mkTripRecord (mkTrip (toUpperCase (trim s)))
                                        (tick w (reads w))] |} disk
      = Some disk' /\
    createTrip tripCode' disk w
      = (mkResponse 201 (SuccessTrip (toUpperCase (trim s))), disk').
Proof.
  unfold createTrip, refused.
  destruct tripCode' as [s|]; [|left; cbn; split; [reflexivity|lia]].
  destruct (blank s) eqn:Eb; [left; cbn; split; [reflexivity|lia]|].
  destruct (readData disk) as [data|] eqn:Er;
    [|left; cbn; split; [reflexivity|lia]].
  destruct (existsb _ (trips data)) eqn:Ee;
    [left; cbn; split; [reflexivity|lia]|].
  destruct (writeData _ disk) as [disk'|] eqn:Ew;
    [|left; cbn; split; [reflexivity|lia]].
  right. exists s, data, disk'. apply existsb_code_false in Ee.
  repeat split; auto.
Qed.

Lemma logBooking_cases (req : LogBody) (disk : Disk) (w : World) :
  refused (logBooking req disk w) disk \/
  exists c r data disk',
    body_code req = Some c /\ blank c = false /\
    body_riderId req = Some r /\ blank r = false /\
    isNaN (body_lat req) = false /\ isNaN (body_lng req) = false /\
    readData disk = Some data /\
    In (toUpperCase (trim c)) (codes (trips data)) /\
    let new :=
      {| tripCode := toUpperCase (trim c);
         riderId := trim r;
         timestamp := TsInstant (tick w (reads w));
         lat := written (body_lat req);
         lng := written (body_lng req);
         accuracy := if isNaN (body_acc req) || negative (body_acc req)
                     then JOther else written (body_acc req) |} in
    writeData {| bookings := upserted (bookings data) new;
                 trips := trips data |} disk = Some disk' /\
    logBooking req disk w
      = (mkResponse 200
           (Outcome true ("Location for " ++ trim r ++ " on trip " ++
                          toUpperCase (trim c) ++ " logged.")%string),
         disk').
Proof.
  unfold logBooking, refused.
  destruct (body_code req) as [c|]; [|left; cbn; split; [reflexivity|lia]].
  destruct (blank c) eqn:Ec; [left; cbn; split; [reflexivity|lia]|].
  destruct (body_riderId req) as [r|]; [|left; cbn; split; [reflexivity|lia]].
  destruct (blank r) eqn:Er; [left; cbn; split; [reflexivity|lia]|].
  destruct (isNaN (body_lat req) || isNaN (body_lng req)) eqn:En;
    [left; cbn; split; [reflexivity|lia]|].
  apply orb_false_iff in En. destruct En as (En1 & En2).
  destruct (readData disk) as [data|] eqn:Eread;
    [|left; cbn; split; [reflexivity|lia]].
  destruct (existsb _ (trips data)) eqn:Ee; cbn [negb];
    [|left; cbn; split; [reflexivity|lia]].
  destruct (writeData _ disk) as [disk'|] eqn:Ew;
    [|left; cbn; split; [reflexivity|lia]].
  right. exists c, r, data, disk'. apply existsb_code in Ee.
  repeat split; auto.
Qed.

(** ** The upsert *)

Lemma upserted_others (old : list Booking) (new : Booking)
    (f : Booking -> bool) :
  f new = false ->
  (forall b, riderKey b = riderKey new -> f b = false) ->
  filter f (upserted old new) = filter f old.
Proof.
  intros Hnew Hsame. unfold upserted.
  destruct (findIndex _ old) as [i|] eqn:E.
  - destruct (findIndex_Some _ _ _ E)
      as (pre & x & post & -> & _ & Hx & _ & Hassign).
    rewrite Hassign, !filter_app. cbn [filter]. rewrite Hnew.
    apply sameRider_key in Hx. rewrite (Hsame x Hx). reflexivity.
  - rewrite filter_app. cbn [filter]. rewrite Hnew. apply app_nil_r.
Qed.

Lemma sameRider_iff (new b : Booking) :
  sameRider new b = true <-> riderKey b = riderKey new.
Proof.
  unfold sameRider. apply (sameRider_key (tripCode new) (riderId new) b).
Qed.

Lemma filter_nil_iff {A} (f : A -> bool) (l : list A) :
  (forall x, In x l -> f x = false) -> filter f l = [].
Proof.
  induction l as [|x l IH]; intros H; [reflexivity|].
  cbn [filter]. rewrite (H x (or_introl eq_refl)). apply IH.
  intros y Hy. apply H. right. exact Hy.
Qed.

Lemma upserted_one (old : list Booking) (new : Booking) :
  NoDup (map riderKey old) ->
  filter (sameRider new) (upserted old new) = [new].
Proof.
  intros Hnd.
  assert (Hnew : sameRider new new = true) by (apply sameRider_iff; reflexivity).
  unfold upserted.
  destruct (findIndex _ old) as [i|] eqn:E.
  - destruct (findIndex_Some _ _ _ E)
      as (pre & x & post & -> & _ & Hx & Hpre & Hassign).
    rewrite Hassign, filter_app. cbn [filter]. rewrite Hnew.
    apply sameRider_key in Hx.
    rewrite map_app in Hnd. cbn [map] in Hnd.
    apply NoDup_remove_2 in Hnd.
    rewrite (filter_nil_iff (sameRider new) pre).
    2:{ intros y Hy. apply (Hpre y Hy). }
    rewrite (filter_nil_iff (sameRider new) post); [reflexivity|].
    intros y Hy. destruct (sameRider new y) eqn:Ey; [|reflexivity].
    exfalso. apply Hnd. apply in_app_iff. right.
    apply sameRider_iff in Ey. apply in_map_iff. exists y.
    split; [rewrite Ey; symmetry; exact Hx|exact Hy].
  - pose proof (findIndex_None _ _ E) as Hnone.
    rewrite filter_app. cbn [filter]. rewrite Hnew.
    rewrite (filter_nil_iff (sameRider new) old); [reflexivity|].
    intros y Hy. apply (Hnone y Hy).
Qed.

Lemma upserted_length (old : list Booking) (new : Booking) :
  length old <= length (upserted old new) <= S (length old).
Proof.
  unfold upserted. destruct (findIndex _ old) as [i|] eqn:E.
  - destruct (findIndex_Some _ _ _ E)
      as (pre & x & post & -> & _ & _ & _ & Hassign).
    rewrite Hassign, !length_app. cbn [length]. lia.
  - rewrite length_app. cbn [length]. lia.
Qed.

(** ** deleteTrip *)

Lemma filter_shorter {A} (f : A -> bool) (l : list A) :
  length (filter f l) <= length l /\
  (length (filter f l) < length l <-> exists x, In x l /\ f x = false).
Proof.
  induction l as [|x l (IHle & IHlt)].
  - cbn. split; [lia|]. split; [lia|]. intros (x & [] & _).
  - cbn [filter]. destruct (f x) eqn:E; cbn [length].
    + split; [lia|]. rewrite <- Nat.succ_lt_mono, IHlt. split.
      * intros (y & Hy & Ey). exists y. split; [right|]; auto.
      * intros (y & [<-|Hy] & Ey); [congruence|]. exists y. auto.
    + split; [lia|]. split; [|lia]. intros _. exists x.
      split; [left; reflexivity|exact E].
Qed.

Lemma deleteTrip_cases (tripCode' : option string) (disk : Disk) :
  refused (deleteTrip tripCode' disk) disk \/
  exists s data disk',
    tripCode' = Some s /\ blank s = false /\
    readData disk = Some data /\
    let c := toUpperCase (trim s) in
    let trips' :=
      filter (fun trip => negb (String.eqb (code (asTrip trip)) c))
             (trips data) in
    let bookings' :=
      filter (fun booking => negb (String.eqb (tripCode booking) c))
             (bookings data) in
    writeData {| bookings := bookings'; trips := trips' |} disk = Some disk' /\
    snd (deleteTrip tripCode' disk) = disk' /\
    statusCode (fst (deleteTrip tripCode' disk))
      = (if in_dec string_dec c (codes (trips data)) then 200 else 404).
Proof.
  unfold deleteTrip, refused.
  destruct tripCode' as [s|]; [|left; cbn; split; [reflexivity|lia]].
  destruct (blank s) eqn:Eb; [left; cbn; split; [reflexivity|lia]|].
  destruct (readData disk) as [data|] eqn:Er;
    [|left; cbn; split; [reflexivity|lia]].
  destruct (writeData _ disk) as [disk'|] eqn:Ew;
    [|left; cbn; split; [reflexivity|lia]].
  right. exists s, data, disk'. cbv zeta.
  split; [reflexivity|]. split; [exact Eb|]. split; [reflexivity|].
  split; [exact Ew|].
  set (c := toUpperCase (trim s)).
  destruct (filter_shorter
              (fun trip => negb (String.eqb (code (asTrip trip)) c))
              (trips data)) as (_ & Hlt).
  destruct (_ <? _) eqn:E; cbn [fst snd statusCode]; (split; [reflexivity|]).
  - apply Nat.ltb_lt in E. apply Hlt in E. destruct E as (t & Ht & Et).
    apply negb_false_iff, String.eqb_eq in Et.
    destruct (in_dec string_dec c (codes (trips data))) as [_|Hnot];
      [reflexivity|].
    exfalso. apply Hnot. unfold codes. apply in_map_iff. exists t. auto.
  - apply Nat.ltb_ge in E.
    destruct (in_dec string_dec c (codes (trips data))) as [Hin|_];
      [|reflexivity].
    exfalso. unfold codes in Hin. apply in_map_iff in Hin.
    destruct Hin as (t & Et & Ht).
    assert (length (filter (fun trip => negb (String.eqb (code (asTrip trip)) c))
                           (trips data)) < length (trips data)).
    { apply Hlt. exists t. split; [exact Ht|].
      apply negb_false_iff, String.eqb_eq. exact Et. }
    lia.
Qed.

(** ** The health of a trip that has just been heard of *)

Lemma max_ge_In (l : list Z) (a t : Z) :
  In t l -> (t <= fold_right Z.max a l)%Z.
Proof.
  induction l as [|x l IH]; [contradiction|].
  cbn [fold_right]. intros [->|H]; [lia|]. specialize (IH H). lia.
Qed.

Lemma classify_active (now : Z) (pings : list Booking) (k : string) (t : Z) :
  In t (Spec.validTimes k pings) ->
  (now - t <= 2 * 60 * 1000)%Z ->
  fst (Spec.classify now pings k) = ACTIVE.
Proof.
  intros Hin Hage. unfold Spec.classify.
  destruct (Spec.validTimes k pings) as [|t0 ts]; [contradiction|].
  cbn [fst].
  assert (Hle : (t <= fold_right Z.max t0 ts)%Z).
  { destruct Hin as [->|Hin]; [apply max_ge_seed|apply max_ge_In; exact Hin]. }
  replace (_ <=? _)%Z with true; [reflexivity|].
  symmetry. apply Z.leb_le. lia.
Qed.

Lemma standard_registered (registry : list TripRecord) (k : string) :
  standard k -> In k (codes registry) ->
  registered (map asTrip registry) k = true.
Proof.
  intros Hstd Hin. unfold registered. rewrite map_map.
  destruct (in_dec string_dec k _) as [_|Hnot]; [|contradiction].
  cbn [andb]. apply negb_true_iff. apply String.eqb_neq. intros ->.
  apply standard_not_inherited in Hstd. discriminate Hstd.
Qed.

Lemma unregistered (registry : list TripRecord) (k : string) :
  ~ In k (codes registry) -> registered (map asTrip registry) k = false.
Proof.
  intros Hnot. unfold registered. rewrite map_map.
  destruct (in_dec string_dec k _) as [Hin|_]; [contradiction|reflexivity].
Qed.

Lemma getTripHealth_tiers (disk : Disk) (data : Data) (w : World) :
  readData disk = Some data ->
  exists out,
    getTripHealth disk w = (mkResponse 200 (Health out), disk) /\
    forall k,
      option_map tierOf (obj_get out k) =
      if registered (map asTrip (trips data)) k
      then Some (Spec.classify (tick w (reads w))
                               (filter afterEpoch (bookings data)) k)
      else None.
Proof.
  intros Hread. unfold getTripHealth. rewrite Hread.
  destruct (health_tiers (bookings data) (map asTrip (trips data)) w)
    as (out & Hout & Htiers).
  apply result_Some in Hout. destruct Hout as (w' & Hout). rewrite Hout.
  exists out. split; [reflexivity|exact Htiers].
Qed.

Lemma upserted_new (old : list Booking) (new : Booking) :
  In new (upserted old new).
Proof.
  unfold upserted. destruct (findIndex _ old) as [i|] eqn:E.
  - destruct (findIndex_Some _ _ _ E)
      as (pre & x & post & -> & _ & _ & _ & Hassign).
    rewrite Hassign. apply in_app_iff. right. left. reflexivity.
  - apply in_app_iff. right. left. reflexivity.
Qed.

Lemma logged_active (req : LogBody) (disk disk' : Disk) (w w' : World)
    (answer : Response) :
  logBooking req disk w = (answer, disk') ->
  statusCode answer = 200 ->
  (0 < tick w (reads w))%Z ->
  (tick w' (reads w') - tick w (reads w) <= 2 * 60 * 1000)%Z ->
  exists c out h,
    body_code req = Some c /\
    getTripHealth disk' w' = (mkResponse 200 (Health out), disk') /\
    obj_get out (toUpperCase (trim c)) = Some h /\
    status h = ACTIVE.
Proof.
  intros Hlog Hok Hpos Hage.
  destruct (logBooking_cases req disk w) as [(Hsame & Hst)|Hdone].
  { rewrite Hlog in Hst. cbn [fst] in Hst. lia. }
  destruct Hdone as (c & r & data & disk1 & Hc & Hbc & Hr & Hbr & _ & _ &
                     Hread & Hreg & Hwrite).
  cbv zeta in Hwrite. destruct Hwrite as (Hwrite & Hresult).
  rewrite Hlog in Hresult. injection Hresult as _ <-.
  apply (writeData_read _ _ _ _ Hread) in Hwrite. destruct Hwrite as (Hread' & _).
  destruct (getTripHealth_tiers disk' _ w' Hread') as (out & Hget & Htiers).
  cbn [trips bookings] in Htiers.
  set (k := toUpperCase (trim c)) in *.
  specialize (Htiers k).
  rewrite (standard_registered (trips data) k (standard_code c Hbc) Hreg)
    in Htiers.
  destruct (obj_get out k) as [h|] eqn:Eh; [|discriminate Htiers].
  exists c, out, h. split; [exact Hc|]. split; [exact Hget|].
  split; [exact Eh|].
  cbn [option_map] in Htiers. injection Htiers as Htier.
  unfold tierOf in Htier.
  assert (Hst : status h = fst (status h, lastUpdate h)) by reflexivity.
  rewrite Hst, Htier.
  apply classify_active with (tick w (reads w)); [|exact Hage].
  unfold Spec.validTimes. apply in_flat_map.
  eexists. split.
  - apply filter_In. split; [apply upserted_new|].
    unfold afterEpoch. cbn [timestamp]. apply Z.ltb_lt. exact Hpos.
  - cbn [tripCode timestamp]. fold k. rewrite String.eqb_refl.
    left. reflexivity.
Qed.

(** ** The new bookings, newest first *)

Lemma newestFirst_dated (x y : Booking) :
  dated x -> dated y -> newestFirst x y = Some (stampOf y - stampOf x)%Z.
Proof.
  intros (tx & Hx) (ty & Hy). unfold newestFirst, stampOf.
  rewrite Hx, Hy. reflexivity.
Qed.

Lemma insertSorted_perm {A} (cmp : A -> A -> option Z) (x : A) (s : list A) :
  Permutation (insertSorted cmp x s) (x :: s).
Proof.
  induction s as [|y s IH]; [reflexivity|].
  cbn [insertSorted].
  assert (Hskip : Permutation (y :: insertSorted cmp x s) (x :: y :: s)).
  { rewrite IH. apply perm_swap. }
  destruct (cmp x y) as [v|]; [|exact Hskip].
  destruct (v <? 0)%Z; [reflexivity|exact Hskip].
Qed.

Lemma insertSorted_sorted (x : Booking) (s : list Booking) :
  dated x -> Forall dated s -> StronglySorted notOlder s ->
  StronglySorted notOlder (insertSorted newestFirst x s).
Proof.
  intros Hx Hs Hsorted. induction Hsorted as [|y s Hsorted IH Hy].
  - repeat constructor.
  - inversion Hs as [|? ? Hdy Hds]; subst.
    cbn [insertSorted]. rewrite (newestFirst_dated x y Hx Hdy).
    destruct (_ <? 0)%Z eqn:E.
    + apply Z.ltb_lt in E. constructor.
      * constructor; assumption.
      * constructor; [unfold notOlder; lia|].
        rewrite Forall_forall in *. intros z Hz. specialize (Hy z Hz).
        unfold notOlder in *. lia.
    + apply Z.ltb_ge in E. constructor; [apply IH; exact Hds|].
      rewrite Forall_forall in *. intros z Hz.
      apply (Permutation_in _ (insertSorted_perm newestFirst x s)) in Hz.
      destruct Hz as [<-|Hz]; [unfold notOlder; lia|apply Hy; exact Hz].
Qed.

Lemma insertSorted_stable (t : Z) (x : Booking) (s : list Booking) :
  dated x -> Forall dated s -> StronglySorted notOlder s ->
  filter (stampedAt t) (insertSorted newestFirst x s)
  = filter (stampedAt t) s ++ filter (stampedAt t) [x].
Proof.
  intros Hx Hs Hsorted. induction Hsorted as [|y s Hsorted IH Hy].
  - reflexivity.
  - inversion Hs as [|? ? Hdy Hds]; subst.
    cbn [insertSorted]. rewrite (newestFirst_dated x y Hx Hdy).
    destruct (_ <? 0)%Z eqn:E.
    + apply Z.ltb_lt in E.
      change (x :: y :: s) with ([x] ++ (y :: s)). rewrite filter_app.
      destruct (stampedAt t x) eqn:Ex.
      * rewrite (filter_nil_iff (stampedAt t) (y :: s));
          [rewrite app_nil_r; reflexivity|].
        unfold stampedAt in Ex. apply Z.eqb_eq in Ex.
        intros z [<-|Hz]; unfold stampedAt; apply Z.eqb_neq; [lia|].
        rewrite Forall_forall in Hy. specialize (Hy z Hz).
        unfold notOlder in Hy. lia.
      * replace (filter (stampedAt t) [x]) with (@nil Booking)
          by (cbn [filter]; rewrite Ex; reflexivity).
        rewrite app_nil_r. reflexivity.
    + cbn [filter]. rewrite (IH Hds).
      destruct (stampedAt t y); reflexivity.
Qed.

Lemma sort_facts (l : list Booking) :
  forall acc,
    Forall dated l -> Forall dated acc -> StronglySorted notOlder acc ->
    let sorted :=
      fold_left (fun sorted x => insertSorted newestFirst x sorted) l acc in
    Permutation sorted (acc ++ l) /\
    StronglySorted notOlder sorted /\
    forall t, filter (stampedAt t) sorted
              = filter (stampedAt t) acc ++ filter (stampedAt t) l.
Proof.
  induction l as [|x l IH]; intros acc Hl Hacc Hsorted; cbv zeta.
  - cbn. rewrite app_nil_r. split; [reflexivity|]. split; [exact Hsorted|].
    intros t. rewrite app_nil_r. reflexivity.
  - inversion Hl as [|? ? Hx Hl']; subst. cbn [fold_left].
    destruct (IH (insertSorted newestFirst x acc) Hl') as (Hp & Hs & Hst).
    + rewrite Forall_forall in *. intros z Hz.
      apply (Permutation_in _ (insertSorted_perm newestFirst x acc)) in Hz.
      destruct Hz as [<-|Hz]; auto.
    + apply insertSorted_sorted; assumption.
    + split; [|split; [exact Hs|]].
      * rewrite Hp, (insertSorted_perm newestFirst x acc).
        cbn [app]. apply Permutation_middle.
      * intros t. rewrite Hst, insertSorted_stable by assumption.
        change (x :: l) with ([x] ++ l).
        rewrite (filter_app _ [x] l), app_assoc. reflexivity.
Qed.

Lemma isNewer_dated (since : Z) (b : Booking) :
  isNewer since b = true -> dated b /\ (since < stampOf b)%Z.
Proof.
  unfold isNewer, dated, stampOf.
  destruct (isUndefined (timestamp b)); [discriminate|].
  destruct (getTime (timestamp b)) as [t|]; [|discriminate].
  intros H. apply Z.ltb_lt in H. split; [eauto|exact H].
Qed.

Lemma fetchNewBookings_sorted (since : option Z) (disk : Disk) (data : Data) :
  readData disk = Some data ->
  let since' :=
    match since with
    | Some n => if (n <? 0)%Z then 0%Z else n
    | None => 0%Z
    end in
  (since' <= MAX_TIME)%Z ->
  exists newBookings,
    fetchNewBookings since disk = (mkResponse 200 (Bookings newBookings), disk) /\
    Permutation newBookings (filter (isNewer since') (bookings data)) /\
    StronglySorted notOlder newBookings /\
    (forall t, filter (stampedAt t) newBookings
               = filter (stampedAt t) (filter (isNewer since') (bookings data))) /\
    (forall b, In b newBookings -> dated b /\ (since' < stampOf b)%Z).
Proof.
  intros Hread since' Hrange. unfold fetchNewBookings. fold since'.
  replace (MAX_TIME <? since')%Z with false
    by (symmetry; apply Z.ltb_ge; exact Hrange).
  rewrite Hread. eexists. split; [reflexivity|].
  set (new := filter (isNewer since') (bookings data)).
  assert (Hnew : Forall dated new).
  { apply Forall_forall. intros b Hb. apply filter_In in Hb.
    apply (isNewer_dated since' b). apply Hb. }
  destruct (sort_facts new [] Hnew (Forall_nil _) (SSorted_nil _))
    as (Hp & Hs & Hst).
  unfold sort. split; [exact Hp|]. split; [exact Hs|]. split; [exact Hst|].
  intros b Hb. apply (Permutation_in _ Hp) in Hb. cbn [app] in Hb.
  apply filter_In in Hb. apply (isNewer_dated since' b). apply Hb.
Qed.

(** ** The sample data *)








(** ** From the requests to the clusters *)

Lemma readData_Some (disk : Disk) :
  file disk <> Unreadable -> exists data, readData disk = Some data.
Proof.
  unfold readData. destruct (file disk); eauto. congruence.
Qed.


Section PipelineFacts.

Variable d : Q -> Q -> Q -> Q -> Q -> bool.
Hypothesis Hsym : forall a b c e r, d a b c e r = d c e a b r.

Lemma getClusters_sound (disk : Disk) (data : Data) (w : World) :
  consistentDisk disk -> readData disk = Some data ->
  exists out,
    getClusters d disk w = (mkResponse 200 (Clusters out), disk) /\
    (forall k,
       (exists c, obj_get out k = Some c) <->
       closePair d (tick w (reads w)) (bookings data) k) /\
    forall k c,
      obj_get out k = Some c ->
      In k (codes (trips data)) /\
      c_tripCode c = k /\
      totalRiders c
        = length (filter (fun b => String.eqb (tripCode b) k) (bookings data)) /\
      2 <= riderCount c <= totalRiders c /\
      (strength c ==
       inject_Z (Z.of_nat (riderCount c))
       / inject_Z (Z.of_nat (totalRiders c)))%Q /\
      length (riders c) = riderCount c /\
      NoDup (riders c).
Proof.
  intros Hd Hread. pose proof (readData_consistent _ _ Hd Hread) as Hc.
  destruct (clusters_sound d Hsym data w Hc) as (out & Hout & Hsound).
  destruct (clusters_entries d Hsym (bookings data) (map asTrip (trips data)) w)
    as (out' & Hout' & Hentries).
  { intros b Hb. apply standard_not_inherited.
    apply (codes_standard _ Hc). apply (riders_registered _ Hc). exact Hb. }
  rewrite Hout in Hout'. injection Hout' as <-.
  exists out. unfold getClusters. rewrite Hread.
  apply result_Some in Hout. destruct Hout as (w' & Hout). rewrite Hout.
  split; [reflexivity|]. split; assumption.
Qed.

Hypothesis Hsame : forall a b, d a b a b CLUSTER_RADIUS_METERS = true.



End PipelineFacts.

(** ** The file stays readable *)

Lemma writeData_readable (data : Data) (disk disk' : Disk) :
  file disk <> Unreadable ->
  writeData data disk = Some disk' -> file disk' <> Unreadable.
Proof.
  unfold writeData. intros Hd. destruct (readOnly disk); [discriminate|].
  intros [= <-]. cbn [file]. destruct (file disk); congruence.
Qed.

Lemma serve_readable (d : Q -> Q -> Q -> Q -> Q -> bool) (request : Request)
    (disk : Disk) (w : World) (c : Chance) :
  file disk <> Unreadable -> file (snd (serve d request disk w c)) <> Unreadable.
Proof.
  intros Hd. destruct request; cbn [serve].
  - unfold checkDataAvailability. destruct (readData disk); exact Hd.
  - unfold fetchData. destruct (readData disk); exact Hd.
  - unfold getTrips. destruct (readData disk); exact Hd.
  - destruct (createTrip_cases tripCode' disk w) as [(-> & _)|H]; [exact Hd|].
    destruct H as (s & data & disk' & _ & _ & _ & _ & Hw & ->).
    apply (writeData_readable _ _ _ Hd Hw).
  - unfold getClusters. destruct (readData disk); [|exact Hd].
    destruct (calculateClusters _ _ _ _) as [[? ?]|]; exact Hd.
  - unfold getTripHealth. destruct (readData disk); [|exact Hd].
    destruct (calculateTripHealth _ _ _) as [[? ?]|]; exact Hd.
  - unfold initData. destruct (readData disk); [|exact Hd].
    destruct (fold_left ensureTrip _ _) as [? ?].
    destruct (fold_left sampleBookings _ _) as [[? ?] ?].
    destruct (writeData _ disk) eqn:Hw; [|exact Hd].
    apply (writeData_readable _ _ _ Hd Hw).
  - destruct (logBooking_cases req disk w) as [(-> & _)|H]; [exact Hd|].
    destruct H as (? & ? & ? & disk' & _ & _ & _ & _ & _ & _ & _ & _ & H).
    cbv zeta in H. destruct H as (Hw & ->).
    apply (writeData_readable _ _ _ Hd Hw).
  - unfold fetchNewBookings. destruct (_ <? _)%Z; [exact Hd|].
    destruct (readData disk); exact Hd.
  - destruct (deleteTrip_cases tripCode' disk) as [(-> & _)|H]; [exact Hd|].
    destruct H as (s & data & disk' & _ & _ & _ & H).
    cbv zeta in H. destruct H as (Hw & -> & _).
    apply (writeData_readable _ _ _ Hd Hw).
  - unfold resetData. destruct (writeData _ disk) eqn:Hw; [|exact Hd].
    apply (writeData_readable _ _ _ Hd Hw).
Qed.

Lemma serveAll_readable (d : Q -> Q -> Q -> Q -> Q -> bool)
    (requests : list (Request * World * Chance)) :
  forall disk, file disk <> Unreadable ->
               file (serveAll d requests disk) <> Unreadable.
Proof.
  induction requests as [|[[request w] c] rest IH]; intros disk Hd;
    [exact Hd|].
  cbn [serveAll]. apply IH. apply serve_readable. exact Hd.
Qed.

(** ** One trip at a time *)

Lemma recentOf_ofTrip (now : Z) (l : list Booking) (k : string) :
  recentOf now l k = filter (isRecent (cutoffAt now)) (ofTrip k l).
Proof. unfold recentOf, ofTrip. apply filter_comm. Qed.

Lemma ridersCounted_ofTrip (k : string) (l : list Booking) :
  ridersCounted k l =
  map riderId (filter (fun b => truthy (tripCode b) && truthy (riderId b))
                      (ofTrip k l)).
Proof.
  unfold ridersCounted, ofTrip. f_equal.
  induction l as [|b l IH]; [reflexivity|].
  cbn [filter]. destruct (String.eqb (tripCode b) k) eqn:E; cbn [filter].
  - rewrite andb_true_r. destruct (_ && _); rewrite IH; reflexivity.
  - rewrite andb_false_r. exact IH.
Qed.

Section IndependenceFacts.

Variable d : Q -> Q -> Q -> Q -> Q -> bool.
Hypothesis Hsym : forall a b c e r, d a b c e r = d c e a b r.

Lemma emitted_untimed (now : Z) (l1 l2 : list Booking) (k : string)
    (c1 c2 : Cluster) :
  ofTrip k l1 = ofTrip k l2 ->
  emittedFor d now l1 k c1 -> emittedFor d now l2 k c2 ->
  untimed c1 = untimed c2.
Proof.
  intros Hsame (cs1 & g1 & m1 & t1 & _ & Hcs1 & Hl1 & Hm1 & ->)
               (cs2 & g2 & m2 & t2 & _ & Hcs2 & Hl2 & Hm2 & ->).
  rewrite recentOf_ofTrip in Hcs1, Hcs2. rewrite Hsame in Hcs1.
  rewrite Hcs1 in Hcs2. injection Hcs2 as <-.
  rewrite Hl1 in Hl2. injection Hl2 as <-.
  rewrite Hm1 in Hm2. injection Hm2 as <-.
  unfold untimed, clusterRecord.
  cbn [c_tripCode center strength riderCount totalRiders riders].
  rewrite !totalRidersForThisTrip_counted, !ridersCounted_ofTrip, Hsame.
  reflexivity.
Qed.

Lemma closePair_ofTrip (now : Z) (l1 l2 : list Booking) (k : string) :
  ofTrip k l1 = ofTrip k l2 ->
  closePair d now l1 k -> closePair d now l2 k.
Proof.
  intros Hsame. unfold closePair. rewrite !recentOf_ofTrip, Hsame. auto.
Qed.

Lemma clusters_independent (l1 l2 : list Booking) (trips1 trips2 : list Trip)
    (w1 w2 : World) (k : string) :
  (forall b, In b l1 -> inheritedKey (tripCode b) = false) ->
  (forall b, In b l2 -> inheritedKey (tripCode b) = false) ->
  tick w1 (reads w1) = tick w2 (reads w2) ->
  ofTrip k l1 = ofTrip k l2 ->
  exists out1 out2,
    result (calculateClusters d l1 trips1 w1) = Some out1 /\
    result (calculateClusters d l2 trips2 w2) = Some out2 /\
    option_map untimed (obj_get out1 k) = option_map untimed (obj_get out2 k).
Proof.
  intros Hclean1 Hclean2 Hnow Hsame.
  destruct (clusters_entries d Hsym l1 trips1 w1 Hclean1) as (out1 & Hout1 & He1).
  destruct (clusters_entries d Hsym l2 trips2 w2 Hclean2) as (out2 & Hout2 & He2).
  exists out1, out2. split; [exact Hout1|]. split; [exact Hout2|].
  destruct (obj_get out1 k) as [c1|] eqn:E1.
  - assert (Hp : closePair d (tick w2 (reads w2)) l2 k).
    { apply closePair_ofTrip with l1; [exact Hsame|]. rewrite <- Hnow.
      apply He1. exists c1. exact E1. }
    apply He2 in Hp. destruct Hp as (c2 & E2). rewrite E2. cbn [option_map].
    f_equal.
    apply (emitted_untimed (tick w1 (reads w1)) l1 l2 k); [exact Hsame| |].
    + apply (calculateClusters_emitted d l1 trips1 w1 out1 k c1 Hout1 E1).
    + rewrite Hnow.
      apply (calculateClusters_emitted d l2 trips2 w2 out2 k c2 Hout2 E2).
  - destruct (obj_get out2 k) as [c2|] eqn:E2; [|reflexivity].
    assert (Hp : closePair d (tick w1 (reads w1)) l1 k).
    { apply closePair_ofTrip with l2; [symmetry; exact Hsame|]. rewrite Hnow.
      apply He2. exists c2. exact E2. }
    apply He1 in Hp. destruct Hp as (c1 & E1'). congruence.
Qed.

End IndependenceFacts.

(** ** A later report replaces an earlier one *)

Lemma findIndex_ext {A} (f g : A -> bool) (l : list A) :
  (forall x, f x = g x) -> findIndex f l = findIndex g l.
Proof.
  intros H. induction l as [|x l IH]; [reflexivity|].
  cbn [findIndex]. rewrite H, IH. reflexivity.
Qed.

Lemma findIndex_app {A} (f : A -> bool) (pre post : list A) (x : A) :
  (forall y, In y pre -> f y = false) -> f x = true ->
  findIndex f (pre ++ x :: post) = Some (length pre).
Proof.
  intros Hpre Hx. induction pre as [|y pre IH]; cbn [app findIndex length].
  - rewrite Hx. reflexivity.
  - rewrite (Hpre y (or_introl eq_refl)), IH; [reflexivity|].
    intros z Hz. apply Hpre. right. exact Hz.
Qed.

Lemma assignAt_middle {A} (pre post : list A) (x y : A) :
  assignAt (pre ++ x :: post) (length pre) y = pre ++ y :: post.
Proof.
  induction pre as [|z pre IH]; [reflexivity|].
  cbn [app length assignAt]. rewrite IH. reflexivity.
Qed.

Lemma upserted_again (old : list Booking) (new1 new2 : Booking) :
  riderKey new1 = riderKey new2 ->
  upserted (upserted old new1) new2 = upserted old new2.
Proof.
  intros Hkey.
  assert (Hf : forall b,
            String.eqb (tripCode b) (tripCode new1)
            && String.eqb (riderId b) (riderId new1)
            = String.eqb (tripCode b) (tripCode new2)
              && String.eqb (riderId b) (riderId new2)).
  { intros b. unfold riderKey in Hkey. injection Hkey as -> ->. reflexivity. }
  unfold upserted at 2 3.
  rewrite (findIndex_ext _ _ _ Hf).
  destruct (findIndex _ old) as [i|] eqn:E.
  - destruct (findIndex_Some _ _ _ E)
      as (pre & x & post & -> & Hlen & Hx & Hpre & Hassign).
    rewrite !Hassign. unfold upserted.
    assert (E' : findIndex (fun booking =>
                   String.eqb (tripCode booking) (tripCode new2)
                   && String.eqb (riderId booking) (riderId new2))
                   (pre ++ new1 :: post) = Some (length pre)).
    { apply findIndex_app; [exact Hpre|].
      rewrite <- Hf. apply sameRider_key. reflexivity. }
    rewrite E'. apply assignAt_middle.
  - pose proof (findIndex_None _ _ E) as Hnone. unfold upserted.
    assert (E' : findIndex (fun booking =>
                   String.eqb (tripCode booking) (tripCode new2)
                   && String.eqb (riderId booking) (riderId new2))
                   (old ++ [new1]) = Some (length old)).
    { apply findIndex_app; [exact Hnone|].
      rewrite <- Hf. apply sameRider_key. reflexivity. }
    rewrite E'. apply assignAt_middle.
Qed.

Lemma logBooking_again (req1 req2 : LogBody) (disk disk1 disk2 : Disk)
    (w1 w2 : World) (a1 a2 : Response) (c1 c2 r1 r2 : string) :
  logBooking req1 disk w1 = (a1, disk1) -> statusCode a1 = 200 ->
  logBooking req2 disk1 w2 = (a2, disk2) -> statusCode a2 = 200 ->
  body_code req1 = Some c1 -> body_code req2 = Some c2 ->
  toUpperCase (trim c1) = toUpperCase (trim c2) ->
  body_riderId req1 = Some r1 -> body_riderId req2 = Some r2 ->
  trim r1 = trim r2 ->
  logBooking req2 disk w2 = (a2, disk2).
Proof.
  intros Hlog1 Hok1 Hlog2 Hok2 Hc1 Hc2 Hcodes Hr1 Hr2 Hriders.
  destruct (logBooking_cases req1 disk w1) as [(_ & Hst)|Hdone1].
  { rewrite Hlog1 in Hst. cbn [fst] in Hst. lia. }
  destruct Hdone1 as (c1' & r1' & data & disk1' & Hc1' & _ & Hr1' & _ & _ & _ &
                      Hread & Hreg & Hwrite1).
  cbv zeta in Hwrite1. destruct Hwrite1 as (Hwrite1 & Hres1).
  rewrite Hlog1 in Hres1. injection Hres1 as _ <-.
  rewrite Hc1 in Hc1'. injection Hc1' as <-.
  rewrite Hr1 in Hr1'. injection Hr1' as <-.
  destruct (logBooking_cases req2 disk1 w2) as [(_ & Hst)|Hdone2].
  { rewrite Hlog2 in Hst. cbn [fst] in Hst. lia. }
  destruct Hdone2 as (c2' & r2' & data1 & disk2' & Hc2' & Hb2 & Hr2' & Hbr2 &
                      Hn1 & Hn2 & Hread1 & Hreg1 & Hwrite2).
  cbv zeta in Hwrite2. destruct Hwrite2 as (Hwrite2 & Hres2).
  rewrite Hlog2 in Hres2. injection Hres2 as -> <-.
  rewrite Hc2 in Hc2'. injection Hc2' as <-.
  rewrite Hr2 in Hr2'. injection Hr2' as <-.
  pose proof (writeData_read _ _ _ _ Hread Hwrite1) as (Hread1' & Hro1 & Hro).
  rewrite Hread1 in Hread1'. injection Hread1' as ->.
  cbn [bookings trips] in Hwrite2, Hreg1.
  rewrite upserted_again in Hwrite2.
  2:{ unfold riderKey. cbn [tripCode riderId]. congruence. }
  unfold logBooking. rewrite Hc2, Hb2, Hr2, Hbr2, Hn1, Hn2. cbn [orb].
  rewrite Hread.
  replace (existsb _ (trips data)) with true
    by (symmetry; apply existsb_code; exact Hreg1).
  cbn [negb].
  rewrite (writeData_writes _ _ _ Hread Hro).
  rewrite (writeData_writes _ _ _ Hread1 Hro1) in Hwrite2.
  injection Hwrite2 as <-. reflexivity.
Qed.

(** ** A trip that is created and deleted *)

Lemma filter_all {A} (f : A -> bool) (l : list A) :
  (forall x, In x l -> f x = true) -> filter f l = l.
Proof.
  induction l as [|x l IH]; intros H; [reflexivity|].
  cbn [filter]. rewrite (H x (or_introl eq_refl)), IH; [reflexivity|].
  intros y Hy. apply H. right. exact Hy.
Qed.

Lemma created_then_deleted (s s' : string) (disk disk1 : Disk) (w : World)
    (a1 : Response) :
  consistentDisk disk ->
  createTrip (Some s) disk w = (a1, disk1) -> statusCode a1 = 201 ->
  toUpperCase (trim s') = toUpperCase (trim s) ->
  exists data disk2,
    readData disk = Some data /\
    deleteTrip (Some s') disk1
      = (mkResponse 200
           (Outcome true
              ("Trip " ++ toUpperCase (trim s) ++
               " and 0 associated bookings deleted.")%string),
         disk2) /\
    readData disk2 = Some data.
Proof.
  intros Hd Hcreate Hok Hs'.
  destruct (createTrip_cases (Some s) disk w) as [(_ & Hst)|Hdone].
  { rewrite Hcreate in Hst. cbn [fst] in Hst. lia. }
  destruct Hdone as (s0 & data & disk1' & [= <-] & Hb & Hread & Hnew & Hwrite & Hres).
  rewrite Hcreate in Hres. injection Hres as _ <-.
  pose proof (readData_consistent _ _ Hd Hread) as Hc.
  pose proof (writeData_read _ _ _ _ Hread Hwrite) as (Hread1 & Hro1 & Hro).
  set (c := toUpperCase (trim s)) in *.
  assert (Htrips : filter (fun trip => negb (String.eqb (code (asTrip trip)) c))
                     (trips data ++ [mkTripRecord (mkTrip c) (tick w (reads w))])
                   = trips data).
  { rewrite filter_app. cbn [filter asTrip code]. rewrite String.eqb_refl.
    cbn [negb]. rewrite app_nil_r. apply filter_all.
    intros t Ht. apply negb_true_iff, String.eqb_neq. intros E.
    apply Hnew. unfold codes. apply in_map_iff. exists t. auto. }
  assert (Hbookings : filter (fun booking => negb (String.eqb (tripCode booking) c))
                        (bookings data) = bookings data).
  { apply filter_all. intros b Hb'. apply negb_true_iff, String.eqb_neq.
    intros E. apply Hnew. rewrite <- E. apply (riders_registered _ Hc b Hb'). }
  exists data, (mkDisk (Holds data) false).
  split; [exact Hread|]. split; [|reflexivity].
  unfold deleteTrip.
  rewrite (standard_eq_not_blank s' c (standard_code s Hb) Hs'), Hs', Hread1.
  cbn [trips bookings].
  rewrite Htrips, Hbookings, Nat.sub_diag.
  rewrite length_app. cbn [length].
  replace (length (trips data) <? length (trips data) + 1) with true
    by (symmetry; apply Nat.ltb_lt; lia).
  rewrite (writeData_writes _ _ _ Hread1 Hro1). destruct data. reflexivity.
Qed.

(** ** The health record *)

Lemma latestOf_result (l : list Booking) :
  let '(latest, str) := fold_left latestOf l (0%Z, None) in
  (latest = 0%Z /\ str = None) \/
  ((0 < latest)%Z /\ str = Some (TsInstant latest)).
Proof.
  rewrite (latestOf_afterEpoch l 0 None) by lia.
  set (l' := filter afterEpoch l).
  assert (Hpos : forall t,
            In t (flat_map (fun b => match timestamp b with
                                     | TsInstant ms => [ms]
                                     | _ => []
                                     end) l') -> (0 < t)%Z).
  { intros t Ht. apply in_flat_map in Ht. destruct Ht as (b & Hb & Ht).
    apply filter_In in Hb. destruct Hb as (_ & Hb). unfold afterEpoch in Hb.
    destruct (timestamp b) as [| |ms]; try contradiction.
    destruct Ht as [<-|[]]. apply Z.ltb_lt. exact Hb. }
  rewrite (latestOf_fold l' 0%Z None (or_introl (conj eq_refl eq_refl)) Hpos).
  destruct (flat_map _ l') as [|t ts] eqn:E; [left; auto|right].
  split; [|reflexivity].
  assert (0 < t)%Z by (apply Hpos; left; reflexivity).
  cbn [fold_right]. lia.
Qed.

Lemma minutes_gt (a k : Z) :
  Qle_bool (inject_Z a / inject_Z (60 * 1000)) (inject_Z k) = false ->
  (inject_Z k < inject_Z a / inject_Z (60 * 1000))%Q /\ (k * 60000 < a)%Z.
Proof.
  intros H. split.
  - apply Qnot_le_lt. intros Hle. apply Qle_bool_iff in Hle. congruence.
  - rewrite minutes_le in H. apply Z.leb_gt in H. exact H.
Qed.

Lemma Math_round_ge (q : Q) (k : Z) :
  (inject_Z k <= q)%Q -> (k <= Math_round q)%Z.
Proof.
  intros H. unfold Math_round. rewrite <- (Qfloor_Z k).
  apply Qfloor_resp_le. Lqa.lra.
Qed.

Lemma Math_round_le (q : Q) (k : Z) :
  (q <= inject_Z k)%Q -> (Math_round q <= k)%Z.
Proof.
  intros H. unfold Math_round.
  assert (Hlt : (inject_Z (Qfloor (q + (1 # 2))) < inject_Z (k + 1))%Q).
  { apply Qle_lt_trans with (q + (1 # 2))%Q; [apply Qfloor_le|].
    rewrite inject_Z_plus. change (inject_Z 1) with 1%Q. Lqa.lra. }
  rewrite <- Zlt_Qlt in Hlt. lia.
Qed.

Lemma healthEntry_coherent (now : Z) (l : list Booking) (k : string) :
  coherent now (healthEntry now l k).
Proof.
  unfold healthEntry, coherent.
  destruct (length _ =? 0); [cbn; auto|].
  pose proof (latestOf_result (filter (fun b => String.eqb (tripCode b) k) l))
    as Hres.
  destruct (fold_left latestOf _ _) as [latest str].
  destruct Hres as [(-> & ->)|(Hpos & ->)]; [cbn; auto|].
  replace (latest =? 0)%Z with false by (symmetry; apply Z.eqb_neq; lia).
  cbn [orb isNull].
  change 2%Q with (inject_Z 2). change 10%Q with (inject_Z 10).
  destruct (Qle_bool _ (inject_Z 2)) eqn:E2.
  - cbn [status message lastUpdate]. split; [reflexivity|].
    exists latest. rewrite minutes_le in E2. apply Z.leb_le in E2.
    repeat split; auto; lia.
  - apply minutes_gt in E2. destruct E2 as (Hq2 & Hz2).
    destruct (Qle_bool _ (inject_Z 10)) eqn:E10.
    + cbn [status message lastUpdate].
      pose proof E10 as Hq10. apply Qle_bool_iff in Hq10.
      rewrite minutes_le in E10. apply Z.leb_le in E10.
      eexists. exists latest. split; [reflexivity|].
      split; [split; [apply Math_round_ge; apply Qlt_le_weak; exact Hq2
                     |apply Math_round_le; exact Hq10]|].
      repeat split; auto; lia.
    + cbn [status message lastUpdate].
      apply minutes_gt in E10. destruct E10 as (Hq10 & Hz10).
      eexists. exists latest. split; [reflexivity|].
      split; [apply Math_round_ge; apply Qlt_le_weak; exact Hq10|].
      repeat split; auto; lia.
Qed.

Lemma health_coherent (l : list Booking) (registry : list Trip) (w : World)
    (out : obj HealthStatus) (k : string) (h : HealthStatus) :
  result (calculateTripHealth l registry w) = Some out ->
  obj_get out k = Some h ->
  coherent (tick w (reads w)) h.
Proof.
  rewrite calculateTripHealth_run. cbn [result option_map fst].
  intros [= <-]. rewrite health_lookup.
  destruct (registered registry k); [|discriminate].
  intros [= <-]. apply healthEntry_coherent.
Qed.

(** * The store and its handlers: what a client can rely on *)

(** X1. Whatever requests are served, one after the other, the data file
    stays consistent if it was so at the start (an absent file is): trip
    codes are trimmed, in upper case, not empty and registered once; there
    is one booking per trip and rider, each for a registered trip, with a
    rider id that is trimmed and not empty and a timestamp that is an
    instant.  A file that could be read can still be read. *)
Theorem store_stays_consistent (d : Q -> Q -> Q -> Q -> Q -> bool)
    (requests : list (Request * World * Chance)) (disk : Disk) :
  consistentDisk disk ->
  consistentDisk (serveAll d requests disk) /\
  (file disk <> Unreadable -> file (serveAll d requests disk) <> Unreadable).
Proof.
  intros Hd. split.
  - apply serveAll_consistent. exact Hd.
  - apply serveAll_readable.
Qed.

Lemma store_stays_consistent_witness :
  let disk := mkDisk Missing false in
  let requests :=
    [(POST_createTrip (Some " lagos-1 "), clockAt sampleNow, mkChance (fun _ => 0%Q) 0);
     (POST_logBooking
        (mkLogBody (Some "Lagos-1") (Some "R1")
                   (Finite (65244 # 10000)) (Finite (33792 # 10000)) NotANumber),
      clockAt sampleNow, mkChance (fun _ => 0%Q) 0);
     (POST_initData, clockAt sampleNow, mkChance (fun _ => 1 # 2) 0);
     (DELETE_deleteTrip (Some "IKI490"), clockAt sampleNow,
      mkChance (fun _ => 0%Q) 0)] in
  consistentDisk disk /\
  consistentDisk (serveAll Haversine.within requests disk) /\
  file (serveAll Haversine.within requests disk) <> Unreadable.
Proof.
  intros disk requests. split; [exact I|].
  destruct (store_stays_consistent Haversine.within requests disk I)
    as (Hc & Hr).
  split; [exact Hc|]. apply Hr. discriminate.
Defined.

(** X2. Over a consistent store, after any requests, GET /api/getClusters
    answers 200, and in every cluster record: the key is the record's trip
    code and a registered trip; totalRiders is the number of bookings stored
    for the trip; riderCount is at least 2 and at most totalRiders; the
    strength is exactly riderCount / totalRiders; the rider list has
    riderCount entries and no rider twice.  The distance test is symmetric,
    as the Haversine test is. *)
Theorem served_clusters_are_sound (d : Q -> Q -> Q -> Q -> Q -> bool)
    (requests : list (Request * World * Chance)) (disk : Disk) (w : World) :
  (forall a b c e r, d a b c e r = d c e a b r) ->
  consistentDisk disk -> file disk <> Unreadable ->
  exists data out,
    readData (serveAll d requests disk) = Some data /\
    getClusters d (serveAll d requests disk) w
      = (mkResponse 200 (Clusters out), serveAll d requests disk) /\
    forall k c,
      obj_get out k = Some c ->
      In k (codes (trips data)) /\
      c_tripCode c = k /\
      totalRiders c
        = length (filter (fun b => String.eqb (tripCode b) k) (bookings data)) /\
      2 <= riderCount c <= totalRiders c /\
      (strength c ==
       inject_Z (Z.of_nat (riderCount c))
       / inject_Z (Z.of_nat (totalRiders c)))%Q /\
      length (riders c) = riderCount c /\
      NoDup (riders c).
Proof.
  intros Hsym Hd Hr.
  pose proof (serveAll_consistent d requests disk Hd) as Hd'.
  pose proof (serveAll_readable d requests disk Hr) as Hr'.
  destruct (readData_Some _ Hr') as (data & Hread).
  destruct (getClusters_sound d Hsym _ data w Hd' Hread)
    as (out & Hget & _ & Hsound).
  exists data, out. auto.
Qed.

Lemma served_clusters_are_sound_witness :
  let disk := mkDisk Missing false in
  let requests :=
    [(POST_createTrip (Some "t1"), clockAt sampleNow, mkChance (fun _ => 0%Q) 0);
     (POST_logBooking
        (mkLogBody (Some "T1") (Some "R1")
                   (Finite (65244 # 10000)) (Finite (33792 # 10000)) (Finite 10)),
      clockAt sampleNow, mkChance (fun _ => 0%Q) 0);
     (POST_logBooking
        (mkLogBody (Some "T1") (Some "R2")
                   (Finite (65244 # 10000)) (Finite (33792 # 10000)) (Finite 10)),
      clockAt sampleNow, mkChance (fun _ => 0%Q) 0)] in
  (forall a b c e r,
     Haversine.within a b c e r = Haversine.within c e a b r) /\
  consistentDisk disk /\ file disk <> Unreadable /\
  exists data out,
    readData (serveAll Haversine.within requests disk) = Some data /\
    getClusters Haversine.within (serveAll Haversine.within requests disk)
                (clockAt sampleNow)
      = (mkResponse 200 (Clusters out),
         serveAll Haversine.within requests disk) /\
    forall k c, obj_get out k = Some c -> 2 <= riderCount c <= totalRiders c.
Proof.
  intros disk requests. split; [exact within_sym|]. split; [exact I|].
  split; [discriminate|].
  destruct (served_clusters_are_sound Haversine.within requests disk
              (clockAt sampleNow) within_sym I)
    as (data & out & Hread & Hget & Hsound); [discriminate|].
  exists data, out. split; [exact Hread|]. split; [exact Hget|].
  intros k c Hc. apply (Hsound k c Hc).
Defined.

(** * The clusters of a trip *)

(** X3. For a symmetric distance test, the clusters that [dbscan] finds are
    groups of indices of the trip's points such that: no point is in two
    clusters or twice in one; the clustered points are exactly the points
    that have another point within the radius; every cluster has at least
    two points, contains every point within the radius of one of its
    members, and each of its members is joined to its first point by a chain
    of neighbours inside the cluster. *)
Theorem clusters_are_connected_groups (d : Q -> Q -> Q -> Q -> Q -> bool)
    (points : list Point) :
  (forall a b c e r, d a b c e r = d c e a b r) ->
  exists groups clusters,
    dbscan d points = Some clusters /\
    Forall2 (pointsAt points) groups clusters /\
    NoDup (concat groups) /\
    (forall i, In i (concat groups) <-> linked d points i) /\
    forall g,
      In g groups ->
      2 <= length g /\
      closed d points g /\
      forall i, In i g -> chained d points g (hd 0 g) i.
Proof.
  intros Hsym.
  destruct (dbscan_groups d Hsym points)
    as (groups & clusters & Hcs & HF & Hnd & Hlinked & Hg).
  exists groups, clusters. split; [exact Hcs|]. split; [exact HF|].
  split; [exact Hnd|]. split; [exact Hlinked|].
  intros g Hin. rewrite Forall_forall in Hg.
  destruct (Hg g Hin) as (Hne & Hclosed & Hchain).
  split; [|split; assumption].
  apply (group_size d points g Hne Hclosed).
  - intros i Hi. apply Hlinked. apply in_concat_group with g; assumption.
  - apply NoDup_concat_group with groups; assumption.
Qed.

Lemma clusters_are_connected_groups_witness :
  let points :=
    map toPoint
      [ping "T1" "R1" (TsInstant sampleNow) lagos_lat lagos_lng;
       ping "T1" "R2" (TsInstant sampleNow) (JNum (Num 7)) (JNum (Num 4));
       ping "T1" "R3" (TsInstant sampleNow) lagos_lat lagos_lng] in
  (forall a b c e r,
     Haversine.within a b c e r = Haversine.within c e a b r) /\
  exists groups clusters,
    dbscan Haversine.within points = Some clusters /\
    Forall2 (pointsAt points) groups clusters /\
    NoDup (concat groups) /\
    forall g, In g groups -> 2 <= length g.
Proof.
  intros points. split; [exact within_sym|].
  destruct (clusters_are_connected_groups Haversine.within points within_sym)
    as (groups & clusters & Hcs & HF & Hnd & _ & Hg).
  exists groups, clusters. split; [exact Hcs|]. split; [exact HF|].
  split; [exact Hnd|]. intros g Hin. apply (Hg g Hin).
Defined.

Lemma emitted_count (d : Q -> Q -> Q -> Q -> Q -> bool) (now : Z)
    (l : list Booking) (k : string) (c : Cluster) :
  (forall a b c e r, d a b c e r = d c e a b r) ->
  emittedFor d now l k c ->
  2 <= riderCount c <= length (recentOf now l k).
Proof.
  intros Hsym (cs & largest & center' & t & _ & Hcs & Hl & _ & ->).
  destruct (largest_group d Hsym _ _ _ Hcs Hl) as (g & Hpts & Hnd & Hsize).
  pose proof (pointsAt_length _ _ _ Hpts) as Hlen.
  cbn [clusterRecord riderCount]. rewrite Hlen. split; [exact Hsize|].
  rewrite <- (length_map toPoint (recentOf now l k)).
  apply NoDup_lt_length; [exact Hnd|].
  intros j Hj. apply (pointsAt_lt _ _ _ Hpts). exact Hj.
Qed.

(** X4. [calculateClusters] has a record for a trip exactly when two of the
    trip's recent pings (not older than five minutes, with a timestamp and
    coordinates of number type) lie within the cluster radius of each
    other; the record then counts at least two riders and at most as many
    as the trip has recent pings.  The distance test is symmetric and no
    trip code among the bookings names a property of [Object.prototype]. *)
Theorem trip_has_cluster_iff_two_pings_close
    (d : Q -> Q -> Q -> Q -> Q -> bool) (bookings : list Booking)
    (trips : list Trip) (w : World) :
  (forall a b c e r, d a b c e r = d c e a b r) ->
  (forall b, In b bookings -> inheritedKey (tripCode b) = false) ->
  exists out,
    result (calculateClusters d bookings trips w) = Some out /\
    (forall k,
       (exists c, obj_get out k = Some c) <->
       closePair d (tick w (reads w)) bookings k) /\
    (forall k c,
       obj_get out k = Some c ->
       2 <= riderCount c <= length (recentOf (tick w (reads w)) bookings k)).
Proof.
  intros Hsym Hclean.
  destruct (clusters_entries d Hsym bookings trips w Hclean)
    as (out & Hout & Hiff).
  exists out. split; [exact Hout|]. split; [exact Hiff|].
  intros k c Hc. apply (emitted_count d _ _ _ _ Hsym).
  apply (calculateClusters_emitted d bookings trips w out k c Hout Hc).
Qed.

Lemma trip_has_cluster_iff_two_pings_close_witness :
  let bookings :=
    [ping "T1" "R1" (TsInstant sampleNow) lagos_lat lagos_lng;
     ping "T2" "R2" (TsInstant sampleNow) lagos_lat lagos_lng;
     ping "T1" "R3" (TsInstant sampleNow) lagos_lat lagos_lng] in
  (forall a b c e r,
     Haversine.within a b c e r = Haversine.within c e a b r) /\
  (forall b, In b bookings -> inheritedKey (tripCode b) = false) /\
  exists out c,
    result (calculateClusters Haversine.within bookings [] (clockAt sampleNow))
      = Some out /\
    obj_get out "T1" = Some c /\ riderCount c = 2 /\
    obj_get out "T2" = None.
Proof.
  intros bookings.
  assert (Hclean : forall b, In b bookings -> inheritedKey (tripCode b) = false).
  { intros b [<-|[<-|[<-|[]]]]; reflexivity. }
  split; [exact within_sym|]. split; [exact Hclean|].
  destruct (trip_has_cluster_iff_two_pings_close Haversine.within bookings []
              (clockAt sampleNow) within_sym Hclean)
    as (out & Hout & Hiff & Hcount).
  assert (H1 : exists c, obj_get out "T1" = Some c).
  { apply Hiff. exists 0, 1.
    exists (ping "T1" "R1" (TsInstant sampleNow) lagos_lat lagos_lng).
    exists (ping "T1" "R3" (TsInstant sampleNow) lagos_lat lagos_lng).
    split; [discriminate|]. split; [reflexivity|]. split; [reflexivity|].
    apply within_same. }
  destruct H1 as (c & Hc). exists out, c. split; [exact Hout|].
  split; [exact Hc|]. split.
  - pose proof (Hcount "T1" c Hc) as H. cbn in H. lia.
  - destruct (obj_get out "T2") as [c2|] eqn:E2; [|reflexivity].
    pose proof (Hcount "T2" c2 E2) as H. cbn in H. lia.
Defined.

(** X6. [calculateTripHealth] never throws.  Its result has an entry for
    every registered trip code (other than "__proto__") and for no other
    code, and the tier and the last update of a trip are those of the
    classifier of the specification applied to the pings stamped after the
    epoch: a ping stamped at the epoch or before it counts as a ping without
    a timestamp. *)
Theorem health_tier_of_every_trip (bookings : list Booking)
    (trips : list Trip) (w : World) :
  exists out,
    result (calculateTripHealth bookings trips w) = Some out /\
    forall k,
      option_map tierOf (obj_get out k) =
      if registered trips k
      then Some (Spec.classify (tick w (reads w))
                               (filter afterEpoch bookings) k)
      else None.
Proof. apply health_tiers. Qed.

(** * The handlers that write *)

(** X7. POST /api/createTrip either refuses (a status of 400 or more, the
    disk as it was) or answers 201: then the code stored is the trimmed
    code in upper case, not registered before; it is added after the trips
    that were there, with the time of the request, and the bookings are
    untouched; and any later request to create a code that is the same up to
    case and surrounding white space is refused as already existing, the
    disk unchanged. *)
Theorem createTrip_registers_once (tripCode' : option string) (disk : Disk)
    (w : World) :
  refused (createTrip tripCode' disk w) disk \/
  exists s data,
    tripCode' = Some s /\
    readData disk = Some data /\
    let c := toUpperCase (trim s) in
    let disk' := snd (createTrip tripCode' disk w) in
    fst (createTrip tripCode' disk w) = mkResponse 201 (SuccessTrip c) /\
    standard c /\ ~ In c (codes (trips data)) /\
    readData disk'
      = Some {| bookings := bookings data;
                trips := trips data ++
                           [mkTripRecord (mkTrip c) (tick w (reads w))] |} /\
    forall s' w',
      toUpperCase (trim s') = c ->
      createTrip (Some s') disk' w'
        = (mkResponse 400
             (Error ("Trip code '" ++ c ++ "' already exists")%string),
           disk').
Proof.
  destruct (createTrip_cases tripCode' disk w) as [Href|Hdone];
    [left; exact Href|right].
  destruct Hdone as (s & data & disk' & -> & Hb & Hread & Hnew & Hwrite & Hres).
  exists s, data. split; [reflexivity|]. split; [exact Hread|].
  cbv zeta. rewrite Hres. cbn [fst snd].
  pose proof (standard_code s Hb) as Hstd.
  apply (writeData_read _ _ _ _ Hread) in Hwrite. destruct Hwrite as (Hread' & _).
  split; [reflexivity|]. split; [exact Hstd|]. split; [exact Hnew|].
  split; [exact Hread'|].
  intros s' w' Hs'. unfold createTrip.
  rewrite (standard_eq_not_blank s' _ Hstd Hs'), Hs', Hread'.
  cbn [trips].
  replace (existsb _ _) with true; [reflexivity|].
  symmetry. apply existsb_code. rewrite codes_app, in_app_iff.
  right. left. reflexivity.
Qed.

(** X8. POST /api/logBooking either refuses (a status of 400 or more, the
    disk as it was) or answers 200: then the trip code, trimmed and in upper
    case, is a registered trip; the booking stored has the trimmed rider id,
    the time of the request, the coordinates as numbers when they are
    finite (and null when infinite) and the accuracy as a number when it is
    finite and not negative; it replaces, where it stands, the first
    booking of the same trip and rider, or is added at the end; the
    bookings of other riders and the trips are untouched; and if the store
    had at most one booking per trip and rider, the new booking is the only
    one of its rider on its trip. *)
Theorem logBooking_upserts_rider (req : LogBody) (disk : Disk) (w : World) :
  refused (logBooking req disk w) disk \/
  exists c r data new,
    body_code req = Some c /\ body_riderId req = Some r /\
    readData disk = Some data /\
    statusCode (fst (logBooking req disk w)) = 200 /\
    new = {| tripCode := toUpperCase (trim c);
             riderId := trim r;
             timestamp := TsInstant (tick w (reads w));
             lat := written (body_lat req);
             lng := written (body_lng req);
             accuracy := if isNaN (body_acc req) || negative (body_acc req)
                         then JOther else written (body_acc req) |} /\
    In (tripCode new) (codes (trips data)) /\
    readData (snd (logBooking req disk w))
      = Some {| bookings := upserted (bookings data) new;
                trips := trips data |} /\
    In new (upserted (bookings data) new) /\
    filter (fun b => negb (sameRider new b)) (upserted (bookings data) new)
      = filter (fun b => negb (sameRider new b)) (bookings data) /\
    length (bookings data) <= length (upserted (bookings data) new)
      <= S (length (bookings data)) /\
    (NoDup (map riderKey (bookings data)) ->
     filter (sameRider new) (upserted (bookings data) new) = [new]).
Proof.
  destruct (logBooking_cases req disk w) as [Href|Hdone];
    [left; exact Href|right].
  destruct Hdone as (c & r & data & disk' & Hc & _ & Hr & _ & _ & _ &
                     Hread & Hreg & Hwrite).
  cbv zeta in Hwrite. destruct Hwrite as (Hwrite & Hres).
  exists c, r, data. eexists. split; [exact Hc|]. split; [exact Hr|].
  split; [exact Hread|]. rewrite Hres. cbn [fst snd statusCode].
  split; [reflexivity|]. split; [reflexivity|].
  apply (writeData_read _ _ _ _ Hread) in Hwrite. destruct Hwrite as (Hread' & _).
  split; [exact Hreg|]. split; [exact Hread'|].
  split; [apply upserted_new|]. split; [|split; [apply upserted_length|]].
  - apply upserted_others.
    + apply negb_false_iff. apply sameRider_iff. reflexivity.
    + intros b Hb. apply negb_false_iff. apply sameRider_iff. exact Hb.
  - apply upserted_one.
Qed.

(** X9. DELETE /api/deleteTrip either refuses (a status of 400 or more,
    the disk as it was) or rewrites the file without the trip of the trimmed
    code in upper case and without any booking of that code, all other
    trips and bookings kept in their order; it answers 200 when the trip
    was registered and 404 when it was not, having removed the bookings of
    that code all the same.  Afterwards the code is neither registered nor
    the trip code of any booking. *)
Theorem deleteTrip_removes_trip_and_bookings (tripCode' : option string)
    (disk : Disk) :
  refused (deleteTrip tripCode' disk) disk \/
  exists s data,
    tripCode' = Some s /\ readData disk = Some data /\
    let c := toUpperCase (trim s) in
    let trips' :=
      filter (fun trip => negb (String.eqb (code (asTrip trip)) c))
             (trips data) in
    let bookings' :=
      filter (fun booking => negb (String.eqb (tripCode booking) c))
             (bookings data) in
    readData (snd (deleteTrip tripCode' disk))
      = Some {| bookings := bookings'; trips := trips' |} /\
    statusCode (fst (deleteTrip tripCode' disk))
      = (if in_dec string_dec c (codes (trips data)) then 200 else 404) /\
    ~ In c (codes trips') /\
    (forall b, In b bookings' -> tripCode b <> c).
Proof.
  destruct (deleteTrip_cases tripCode' disk) as [Href|Hdone];
    [left; exact Href|right].
  destruct Hdone as (s & data & disk' & -> & _ & Hread & Hrest).
  cbv zeta in Hrest. destruct Hrest as (Hwrite & Hsnd & Hstatus).
  exists s, data. split; [reflexivity|]. split; [exact Hread|]. cbv zeta.
  rewrite Hsnd, Hstatus.
  apply (writeData_read _ _ _ _ Hread) in Hwrite. destruct Hwrite as (Hread' & _).
  split; [exact Hread'|]. split; [reflexivity|]. split.
  - unfold codes. rewrite in_map_iff. intros (t & Ht & Hin).
    apply filter_In in Hin. destruct Hin as (_ & Hne).
    apply negb_true_iff, String.eqb_neq in Hne. contradiction.
  - intros b Hb. apply filter_In in Hb. destruct Hb as (_ & Hne).
    apply negb_true_iff, String.eqb_neq in Hne. exact Hne.
Qed.

(** X10. DELETE /api/resetData on a disk that can be written answers 200
    whatever the file was.  When the file held data, was absent or was
    garbled, there is afterwards no trip and no booking: the availability
    check answers false, the bookings and the trips are empty lists, and
    the clusters and the health are empty objects.  A file that could not
    be read still cannot: the reset does not repair it, and the
    availability check answers 500 as before.  On a read-only disk the
    reset answers 500 and the disk is as it was. *)
Theorem resetData_empties_store (d : Q -> Q -> Q -> Q -> Q -> bool)
    (disk : Disk) (w : World) :
  if readOnly disk then
    resetData disk = (mkResponse 500 (Error "Failed to reset data"), disk)
  else
    let disk' := snd (resetData disk) in
    statusCode (fst (resetData disk)) = 200 /\
    match file disk with
    | Unreadable =>
        file disk' = Unreadable /\
        checkDataAvailability disk'
          = (mkResponse 500 (Error "Could not read data file"), disk')
    | _ =>
        checkDataAvailability disk' = (mkResponse 200 (Flag false), disk') /\
        fetchData disk' = (mkResponse 200 (Bookings []), disk') /\
        getTrips disk' = (mkResponse 200 (Trips []), disk') /\
        getClusters d disk' w = (mkResponse 200 (Clusters []), disk') /\
        getTripHealth disk' w = (mkResponse 200 (Health []), disk')
    end.
Proof.
  unfold resetData, writeData. destruct (readOnly disk); [reflexivity|].
  cbn [fst snd statusCode]. split; [reflexivity|].
  destruct (file disk); cbn; repeat split; reflexivity.
Qed.

(** * The handlers that read *)

(** X11. GET /api/fetchNewBookings, for a file that can be read and a
    [since] that a [Date] can hold (a negative or unparsable [since] counts
    as 0), answers 200 with exactly the bookings whose timestamp is a date
    strictly after [since], each as often as it is stored, sorted from the
    newest to the oldest, bookings of the same instant in their stored
    order.  A [since] beyond the largest time value of a [Date] is answered
    with 500, whatever the bookings stored. *)
Theorem fetchNewBookings_newest_first (since : option Z) (disk : Disk)
    (data : Data) :
  readData disk = Some data ->
  let since' :=
    match since with
    | Some n => if (n <? 0)%Z then 0%Z else n
    | None => 0%Z
    end in
  if (MAX_TIME <? since')%Z then
    fetchNewBookings since disk
      = (mkResponse 500 (Error "Failed to fetch new bookings"), disk)
  else
    exists newBookings,
      fetchNewBookings since disk
        = (mkResponse 200 (Bookings newBookings), disk) /\
      Permutation newBookings (filter (isNewer since') (bookings data)) /\
      StronglySorted notOlder newBookings /\
      (forall t, filter (stampedAt t) newBookings
                 = filter (stampedAt t)
                          (filter (isNewer since') (bookings data))) /\
      (forall b, In b newBookings -> dated b /\ (since' < stampOf b)%Z).
Proof.
  intros Hread since'.
  destruct (MAX_TIME <? since')%Z eqn:E.
  - unfold fetchNewBookings. fold since'. rewrite E. reflexivity.
  - apply Z.ltb_ge in E.
    apply (fetchNewBookings_sorted since disk data Hread E).
Qed.

Lemma fetchNewBookings_newest_first_witness :
  let b1 := ping "T1" "R1" (TsInstant 1000) lagos_lat lagos_lng in
  let b2 := ping "T1" "R2" (TsInstant 3000) lagos_lat lagos_lng in
  let b3 := ping "T1" "R3" (TsInstant 2000) lagos_lat lagos_lng in
  let data := {| bookings := [b1; b2; b3]; trips := [] |} in
  let disk := mkDisk (Holds data) false in
  readData disk = Some data /\
  fetchNewBookings (Some 1500%Z) disk
    = (mkResponse 200 (Bookings [b2; b3]), disk).
Proof.
  intros b1 b2 b3 data disk. split; [reflexivity|].
  pose proof (fetchNewBookings_newest_first (Some 1500%Z) disk data eq_refl)
    as H.
  cbv zeta in H. cbn [Z.ltb Z.compare] in H.
  destruct H as (l & Hl & _). rewrite Hl. vm_compute in Hl.
  injection Hl as <-. reflexivity.
Defined.



(** * From one request to the next *)

(** X13. After POST /api/logBooking has answered 200 at an instant after
    the epoch, GET /api/getTripHealth answers 200 and reports the trip
    ACTIVE as long as its clock is not more than two minutes past that
    instant. *)
Theorem logged_trip_is_active (req : LogBody) (disk disk' : Disk)
    (w w' : World) (answer : Response) :
  logBooking req disk w = (answer, disk') ->
  statusCode answer = 200 ->
  (0 < tick w (reads w))%Z ->
  (tick w' (reads w') - tick w (reads w) <= 2 * 60 * 1000)%Z ->
  exists c out h,
    body_code req = Some c /\
    getTripHealth disk' w' = (mkResponse 200 (Health out), disk') /\
    obj_get out (toUpperCase (trim c)) = Some h /\
    status h = ACTIVE.
Proof. apply logged_active. Qed.

Lemma logged_trip_is_active_witness :
  let disk :=
    mkDisk (Holds {| bookings := [];
                     trips := [mkTripRecord (mkTrip "T1") 0] |}) false in
  let req :=
    mkLogBody (Some " t1") (Some "R1") (Finite (65244 # 10000))
              (Finite (33792 # 10000)) (Finite 10) in
  let w := clockAt sampleNow in
  let w' := clockAt (sampleNow + 90000) in
  statusCode (fst (logBooking req disk w)) = 200 /\
  (0 < tick w (reads w))%Z /\
  (tick w' (reads w') - tick w (reads w) <= 2 * 60 * 1000)%Z /\
  exists out h,
    getTripHealth (snd (logBooking req disk w)) w'
      = (mkResponse 200 (Health out), snd (logBooking req disk w)) /\
    obj_get out "T1" = Some h /\ status h = ACTIVE.
Proof.
  intros disk req w w'.
  split; [reflexivity|]. split; [reflexivity|]. split; [discriminate|].
  destruct (logged_trip_is_active req disk (snd (logBooking req disk w)) w w'
              (fst (logBooking req disk w)))
    as (c & out & h & Hc & Hget & Hh & Hs).
  - reflexivity.
  - reflexivity.
  - reflexivity.
  - discriminate.
  - injection Hc as <-. exists out, h. auto.
Defined.



(** X15. The cluster of a trip depends on the bookings of that trip only:
    two runs of [calculateClusters] at the same clock reading, over booking
    lists that have the same bookings for a trip, both have a record for
    the trip or both have none, and the two records agree in everything but
    the time of computation.  The distance test is symmetric and no trip
    code names a property of [Object.prototype]. *)
Theorem trips_are_clustered_independently
    (d : Q -> Q -> Q -> Q -> Q -> bool) (l1 l2 : list Booking)
    (trips1 trips2 : list Trip) (w1 w2 : World) (k : string) :
  (forall a b c e r, d a b c e r = d c e a b r) ->
  (forall b, In b l1 -> inheritedKey (tripCode b) = false) ->
  (forall b, In b l2 -> inheritedKey (tripCode b) = false) ->
  tick w1 (reads w1) = tick w2 (reads w2) ->
  ofTrip k l1 = ofTrip k l2 ->
  exists out1 out2,
    result (calculateClusters d l1 trips1 w1) = Some out1 /\
    result (calculateClusters d l2 trips2 w2) = Some out2 /\
    option_map untimed (obj_get out1 k) = option_map untimed (obj_get out2 k).
Proof. intros Hsym. apply (clusters_independent d Hsym). Qed.

Lemma trips_are_clustered_independently_witness :
  let a := ping "T1" "R1" (TsInstant sampleNow) lagos_lat lagos_lng in
  let b := ping "T1" "R2" (TsInstant sampleNow) lagos_lat lagos_lng in
  let other := ping "T2" "R3" (TsInstant sampleNow) lagos_lat lagos_lng in
  let l1 := [a; b] in
  let l2 := [other; a; other; b] in
  (forall a b c e r,
     Haversine.within a b c e r = Haversine.within c e a b r) /\
  ofTrip "T1" l1 = ofTrip "T1" l2 /\
  exists out1 out2,
    result (calculateClusters Haversine.within l1 [] (clockAt sampleNow))
      = Some out1 /\
    result (calculateClusters Haversine.within l2 [] (clockAt sampleNow))
      = Some out2 /\
    option_map untimed (obj_get out1 "T1")
      = option_map untimed (obj_get out2 "T1").
Proof.
  intros a b other l1 l2. split; [exact within_sym|].
  split; [reflexivity|].
  apply (trips_are_clustered_independently Haversine.within l1 l2 [] []
           (clockAt sampleNow) (clockAt sampleNow) "T1" within_sym).
  - intros x [<-|[<-|[]]]; reflexivity.
  - intros x [<-|[<-|[<-|[<-|[]]]]]; reflexivity.
  - reflexivity.
  - reflexivity.
Defined.

(** * One report after another *)

(** X17. When a rider reports twice for the same trip (the codes equal up
    to case and white space, the rider ids up to white space) and both
    reports are accepted, the store after the second report is the store
    that the second report alone would have left: the later report takes the
    place of the earlier one and no booking is added. *)
Theorem later_report_replaces_earlier (req1 req2 : LogBody)
    (disk disk1 disk2 : Disk) (w1 w2 : World) (a1 a2 : Response)
    (c1 c2 r1 r2 : string) :
  logBooking req1 disk w1 = (a1, disk1) -> statusCode a1 = 200 ->
  logBooking req2 disk1 w2 = (a2, disk2) -> statusCode a2 = 200 ->
  body_code req1 = Some c1 -> body_code req2 = Some c2 ->
  toUpperCase (trim c1) = toUpperCase (trim c2) ->
  body_riderId req1 = Some r1 -> body_riderId req2 = Some r2 ->
  trim r1 = trim r2 ->
  logBooking req2 disk w2 = (a2, disk2).
Proof. apply logBooking_again. Qed.

Lemma later_report_replaces_earlier_witness :
  let disk :=
    mkDisk (Holds {| bookings := [];
                     trips := [mkTripRecord (mkTrip "T1") 0] |}) false in
  let req1 :=
    mkLogBody (Some "T1") (Some "R1") (Finite (65244 # 10000))
              (Finite (33792 # 10000)) (Finite 10) in
  let req2 :=
    mkLogBody (Some " t1") (Some "R1 ") (Finite (66 # 10))
              (Finite (335 # 100)) (Finite 20) in
  let w1 := clockAt sampleNow in
  let w2 := clockAt (sampleNow + 30000) in
  let disk1 := snd (logBooking req1 disk w1) in
  statusCode (fst (logBooking req1 disk w1)) = 200 /\
  statusCode (fst (logBooking req2 disk1 w2)) = 200 /\
  logBooking req2 disk w2 = logBooking req2 disk1 w2.
Proof.
  intros disk req1 req2 w1 w2 disk1.
  split; [reflexivity|]. split; [reflexivity|].
  apply (later_report_replaces_earlier req1 req2 disk disk1
           (snd (logBooking req2 disk1 w2)) w1 w2
           (fst (logBooking req1 disk w1)) (fst (logBooking req2 disk1 w2))
           "T1" " t1" "R1" "R1 "); reflexivity.
Defined.

(** X18. Over a consistent store, a trip that has just been created is
    deleted again by a request for the same code (up to case and white
    space) with the answer 200 and the message that 0 bookings were
    deleted, and the data are then what they were before the trip was
    created. *)
Theorem created_trip_is_deleted_cleanly (s s' : string) (disk disk1 : Disk)
    (w : World) (a1 : Response) :
  consistentDisk disk ->
  createTrip (Some s) disk w = (a1, disk1) -> statusCode a1 = 201 ->
  toUpperCase (trim s') = toUpperCase (trim s) ->
  exists data disk2,
    readData disk = Some data /\
    deleteTrip (Some s') disk1
      = (mkResponse 200
           (Outcome true
              ("Trip " ++ toUpperCase (trim s) ++
               " and 0 associated bookings deleted.")%string),
         disk2) /\
    readData disk2 = Some data.
Proof. apply created_then_deleted. Qed.

Lemma created_trip_is_deleted_cleanly_witness :
  let disk := mkDisk Missing false in
  let w := clockAt sampleNow in
  consistentDisk disk /\
  statusCode (fst (createTrip (Some "Lagos 1 ") disk w)) = 201 /\
  exists disk2,
    deleteTrip (Some " lagos 1") (snd (createTrip (Some "Lagos 1 ") disk w))
      = (mkResponse 200
           (Outcome true "Trip LAGOS 1 and 0 associated bookings deleted."),
         disk2) /\
    readData disk2 = Some initialData.
Proof.
  intros disk w. split; [exact I|]. split; [reflexivity|].
  destruct (created_trip_is_deleted_cleanly "Lagos 1 " " lagos 1" disk
              (snd (createTrip (Some "Lagos 1 ") disk w)) w
              (fst (createTrip (Some "Lagos 1 ") disk w)) I
              eq_refl eq_refl eq_refl)
    as (data & disk2 & Hread & Hdel & Hread2).
  injection Hread as <-. exists disk2. split; assumption.
Defined.

(** X19. Every record that [calculateTripHealth] returns is coherent:
    NO_SIGNAL goes with no last update and one of the two "no signal"
    messages; ACTIVE, STALE and INACTIVE go with a last update that is an
    instant after the epoch, whose age at the clock reading is at most 2
    minutes, more than 2 and at most 10 minutes, and more than 10 minutes;
    the minutes in the STALE message lie between 2 and 10, those in the
    INACTIVE message are 10 or more. *)
Theorem health_record_is_coherent (bookings : list Booking)
    (trips : list Trip) (w : World) (out : obj HealthStatus) (k : string)
    (h : HealthStatus) :
  result (calculateTripHealth bookings trips w) = Some out ->
  obj_get out k = Some h ->
  coherent (tick w (reads w)) h.
Proof. apply health_coherent. Qed.

Lemma health_record_is_coherent_witness :
  let bookings :=
    [ping "T1" "R1" (TsInstant (sampleNow - 5 * 60000)) lagos_lat lagos_lng] in
  let h := {| status := STALE; message := MsgStale 5;
              lastUpdate := Some (TsInstant (sampleNow - 5 * 60000)) |} in
  result (calculateTripHealth bookings [mkTrip "T1"] (clockAt sampleNow))
    = Some [("T1", h)] /\
  coherent sampleNow h.
Proof.
  intros bookings h.
  assert (Hrun : result (calculateTripHealth bookings [mkTrip "T1"]
                           (clockAt sampleNow)) = Some [("T1", h)])
    by (vm_compute; reflexivity).
  split; [exact Hrun|].
  apply (health_record_is_coherent bookings [mkTrip "T1"] (clockAt sampleNow)
           [("T1", h)] "T1" h Hrun eq_refl).
Defined.
